(** * anydraw: the shape store, the tool geometry and the collaboration relay

    A shallow embedding of the TypeScript sources of the drawing client
    (draw/Game.ts, resize.ts, select.ts, pencil.ts, eraser.ts) and of the
    WebSocket relay (ws-backend/src/index.ts and the variant of it in
    part_007), followed by the properties of the specification that were
    checked against them and by further properties of the code.

    Conventions of the embedding.
    - A JavaScript [number] is an exact rational ([Q]).  Rounding, [NaN] and
      the infinities of IEEE arithmetic are outside this reading; a division
      by zero, which JavaScript answers with an infinity or [NaN], is [Q]'s
      total division and no theorem below depends on its value.  A property
      is stated over [Q] where the doubles of the source agree with it: it
      follows the structure of the code, equates a field with the very
      expression the source assigns to it, or rests on [Math.max],
      [Math.min] and comparisons, which are exact.  Where rounding decides
      (the size of a box after a resize) the functions at stake are embedded
      a second time over binary64 numbers, in [Doubles].
    - A string is the byte sequence of its UTF-8 encoding; the white space
      that [Number] and the pattern [\s] skip is the white space of the
      language, the code points beyond ASCII included ([Js.white_space]).
    - [Math.sqrt] is irrational-valued, so it is a parameter ([sqrt]) of the
      definitions that call it ([Math.hypot x y] is [sqrt (x*x + y*y)]);
      [CanvasRenderingContext2D.measureText] is a parameter as well.
    - A mutable object is a record that the functions take and return; what a
      handler sends on a socket or asks of the database is returned as a list
      of effects, in the order the code issues them. *)

From Stdlib Require Import QArith Qminmax Qabs Lqa.
From Stdlib Require Import ZArith Arith Lia Bool List Permutation.
From Stdlib Require Import String Ascii DecimalString Morphisms.
From Stdlib Require Floats.
Import ListNotations.

Set Implicit Arguments.

(** ** JavaScript primitives *)

Module Js.

Open Scope Q_scope.

(** [a < b], [a <= b] and [a === b] on numbers. *)
Definition ltb (a b : Q) : bool := negb (Qle_bool b a).
Definition leb (a b : Q) : bool := Qle_bool a b.
Definition eqb (a b : Q) : bool := Qeq_bool a b.

(** [a || d] on numbers: [0] is the only falsy rational. *)
Definition or_else (a d : Q) : Q := if eqb a 0 then d else a.

(** [a ?? d] on an optional field. *)
Definition nullish {A : Type} (a : option A) (d : A) : A :=
  match a with Some v => v | None => d end.

(** Truthiness of a string: only the empty string is falsy. *)
Definition truthy_string (s : string) : bool :=
  match s with EmptyString => false | _ => true end.

(** [Array.prototype.findIndex]: [None] stands for [-1]. *)
Fixpoint findIndex {A : Type} (p : A -> bool) (l : list A) : option nat :=
  match l with
  | [] => None
  | a :: l' => if p a then Some 0%nat else option_map S (findIndex p l')
  end.

(** [arr[i] = v] for an index inside the array ([findIndex] never returns
    another one). *)
Fixpoint set_nth {A : Type} (i : nat) (v : A) (l : list A) : list A :=
  match l, i with
  | [], _ => []
  | _ :: l', O => v :: l'
  | a :: l', S i' => a :: set_nth i' v l'
  end.

(** [arr.splice(i, 1)]: the removed element, if any, and what is left. *)
Fixpoint splice1 {A : Type} (i : nat) (l : list A) : option A * list A :=
  match l, i with
  | [], _ => (None, [])
  | a :: l', O => (Some a, l')
  | a :: l', S i' => let (r, rest) := splice1 i' l' in (r, a :: rest)
  end.

(** A string is the sequence of bytes of its UTF-8 encoding.  The code
    points that [String.prototype.trim], [Number] and the regular expression
    class [\s] count as white space (WhiteSpace and LineTerminator of the
    language), each by the bytes of its encoding. *)
Definition white_space : list (list nat) :=
  [ [9]; [10]; [11]; [12]; [13]; [32];          (* TAB LF VT FF CR SP *)
    [194; 160];                                   (* U+00A0 *)
    [225; 154; 128];                              (* U+1680 *)
    [226; 128; 128]; [226; 128; 129]; [226; 128; 130]; [226; 128; 131];
    [226; 128; 132]; [226; 128; 133]; [226; 128; 134]; [226; 128; 135];
    [226; 128; 136]; [226; 128; 137]; [226; 128; 138];   (* U+2000 .. U+200A *)
    [226; 128; 168]; [226; 128; 169];             (* U+2028 U+2029 *)
    [226; 128; 175];                              (* U+202F *)
    [226; 129; 159];                              (* U+205F *)
    [227; 128; 128];                              (* U+3000 *)
    [239; 187; 191] ]%nat.                        (* U+FEFF *)

Fixpoint starts_with (p : list nat) (l : list ascii) : bool :=
  match p, l with
  | [], _ => true
  | n :: p', c :: l' => Nat.eqb (nat_of_ascii c) n && starts_with p' l'
  | _ :: _, [] => false
  end.

(** How many bytes the white-space character at the front of [l] takes, if
    there is one. *)
Definition white_length (l : list ascii) : option nat :=
  option_map (@List.length nat) (find (fun p => starts_with p l) white_space).

(** The characters of a text as far as white space goes: [None] stands for
    one white-space character, [Some c] for any other byte.  [skip] counts
    the bytes still to pass of a white-space character already seen. *)
Fixpoint mark_space (skip : nat) (l : list ascii) : list (option ascii) :=
  match l with
  | [] => []
  | c :: l' =>
      match skip with
      | S k => mark_space k l'
      | O =>
          match white_length l with
          | Some n => None :: mark_space (Nat.pred n) l'
          | None => Some c :: mark_space 0 l'
          end
      end
  end.

Definition characters (s : string) : list (option ascii) :=
  mark_space 0 (list_ascii_of_string s).

(** [s.split(/\s+/)]: a run of white space separates two fields; a leading
    or trailing run leaves an empty first or last field. *)
Fixpoint split_ws_from (cur : string) (prev_ws : bool) (s : list (option ascii))
    : list string :=
  match s with
  | [] => [cur]
  | None :: s' =>
      if prev_ws then split_ws_from cur true s'
      else cur :: split_ws_from EmptyString true s'
  | Some c :: s' => split_ws_from (cur ++ String c EmptyString) false s'
  end.

Definition split_ws (s : string) : list string :=
  split_ws_from EmptyString false (characters s).

End Js.

(** ** Shapes (draw/Game.ts, draw/tools.ts) *)

Module Shapes.

Open Scope Q_scope.

Inductive TextAlign := align_left | align_center | align_right.
Inductive VerticalAlign := valign_top | valign_middle | valign_bottom.

(** tools.ts, [TextBox]. *)
Record TextBox := mkTextBox {
  tb_id : option string;
  tb_x : Q;
  tb_y : Q;
  tb_width : Q;
  tb_height : Q;
  tb_text : string;
  tb_fontSize : Q;
  tb_fontFamily : string;
  tb_lineHeight : Q;
  tb_textAlign : TextAlign;
  tb_verticalAlign : VerticalAlign;
  tb_strokeColor : option string;
  tb_strokeWidth : option Q
}.

Definition GlobalPoint : Type := (Q * Q)%type.

(** Game.ts, [Shape]: the union tagged by [type]. *)
Inductive Shape :=
| rect (x y width height : Q) (strokeWidth : option Q) (strokeColor : option string)
| circle (centerX centerY radius : Q) (strokeWidth : option Q) (strokeColor : option string)
| pencil (path : list GlobalPoint) (strokeWidth : Q) (strokeColor : string)
| line (startX startY endX endY : Q) (strokeWidth : option Q) (strokeColor : option string)
| arrow (startX startY endX endY : Q) (strokeWidth : option Q) (strokeColor : option string)
| diamond (centerX centerY width height : Q) (strokeWidth : option Q)
    (strokeColor : option string) (cornerRadius : option Q)
| text (box : TextBox).

(** Game.ts, [StoredShape]. *)
Record StoredShape := mkStored {
  id : string;
  shape : Shape;
  tempId : option string
}.

(** The box [{ x, y, w, h }] that [bbox] and [bboxOf] return. *)
Record BBox := mkBBox { bx : Q; by_ : Q; bw : Q; bh : Q }.

Inductive HandleName := h_nw | h_n | h_ne | h_e | h_se | h_s | h_sw | h_w.

(** [minx], [maxx], [miny] and [maxy] after the loop over a pencil path
    that starts with [p].  The source folds [Math.min] and [Math.max] over
    all the points from [Infinity] and [-Infinity]; on a non-empty path
    that is the fold over the rest from the first point. *)
Definition path_extent (p : GlobalPoint) (rest : list GlobalPoint) : Q * Q * Q * Q :=
  (fold_left (fun m q => Qmin m (fst q)) rest (fst p),
   fold_left (fun m q => Qmax m (fst q)) rest (fst p),
   fold_left (fun m q => Qmin m (snd q)) rest (snd p),
   fold_left (fun m q => Qmax m (snd q)) rest (snd p)).

(** The bounding box of a pencil path. *)
Definition path_bbox (path : list GlobalPoint) : BBox :=
  match path with
  | [] => mkBBox 0 0 0 0
  | p :: rest =>
      let '(minx, maxx, miny, maxy) := path_extent p rest in
      mkBBox minx miny (maxx - minx) (maxy - miny)
  end.

(** resize.ts [ResizeTool.bbox] and select.ts [bboxOf]: the same function,
    written twice in the sources. *)
Definition bbox (s : Shape) : BBox :=
  match s with
  | rect x y width height _ _ => mkBBox x y width height
  | circle cx cy radius _ _ =>
      let r := Qabs radius in mkBBox (cx - r) (cy - r) (2 * r) (2 * r)
  | diamond cx cy width height _ _ _ =>
      mkBBox (cx - width / 2) (cy - height / 2) width height
  | text tb => mkBBox (tb_x tb) (tb_y tb) (tb_width tb) (tb_height tb)
  | line x1 y1 x2 y2 _ _ | arrow x1 y1 x2 y2 _ _ =>
      mkBBox (Qmin x1 x2) (Qmin y1 y2) (Qabs (x2 - x1)) (Qabs (y2 - y1))
  | pencil path _ _ => path_bbox path
  end.

Definition bboxOf : Shape -> BBox := bbox.

(** [handlesFor]: the eight handle centres, in the key order of the object
    literal. *)
Definition handlesFor (b : BBox) : list (HandleName * (Q * Q)) :=
  let cx := bx b + bw b / 2 in
  let cy := by_ b + bh b / 2 in
  [ (h_nw, (bx b, by_ b));
    (h_n, (cx, by_ b));
    (h_ne, (bx b + bw b, by_ b));
    (h_e, (bx b + bw b, cy));
    (h_se, (bx b + bw b, by_ b + bh b));
    (h_s, (cx, by_ b + bh b));
    (h_sw, (bx b, by_ b + bh b));
    (h_w, (bx b, cy)) ].

(** The loop over [Object.keys(handles)] of [hitTestHandles] and [findAt]:
    the first handle whose square of half-side [half] holds the point. *)
Definition handle_at (half x y : Q) (b : BBox) : option HandleName :=
  option_map fst
    (find (fun h => Js.leb (Qabs (x - fst (snd h))) half
                    && Js.leb (Qabs (y - snd (snd h))) half)
          (handlesFor b)).

End Shapes.

(** ** The resize tool (resize.ts) *)

Module Resize.

Import Shapes.
Open Scope Q_scope.

(** The fields of a [ResizeTool]; [handleSize] is the constant 12. *)
Record ResizeTool := mkResizeTool {
  activeHandle : option HandleName;
  startPointer : option (Q * Q);
  originalShape : option Shape;
  selectedId : option string
}.

Definition handleSize : Q := 12.

Definition idle : ResizeTool := mkResizeTool None None None None.

Definition hitTestHandles (x y : Q) (s : Shape) : option HandleName :=
  handle_at (handleSize / 2) x y (bbox s).

Definition startResize (i : string) (s : Shape) (pointerX pointerY : Q)
    (h : HandleName) (t : ResizeTool) : ResizeTool :=
  mkResizeTool (Some h) (Some (pointerX, pointerY)) (Some s) (Some i).

Definition finishResize (t : ResizeTool) : ResizeTool := idle.

Definition isResizing (t : ResizeTool) : bool :=
  match activeHandle t with Some _ => true | None => false end.

Definition getSelectedId (t : ResizeTool) : option string := selectedId t.

Definition setSelectedId (i : option string) (t : ResizeTool) : ResizeTool :=
  mkResizeTool (activeHandle t) (startPointer t) (originalShape t) i.

Definition moves_left (h : HandleName) : bool :=
  match h with h_nw | h_w | h_sw => true | _ => false end.

Definition moves_right (h : HandleName) : bool :=
  match h with h_ne | h_e | h_se => true | _ => false end.

Definition moves_top (h : HandleName) : bool :=
  match h with h_nw | h_n | h_ne => true | _ => false end.

Definition moves_bottom (h : HandleName) : bool :=
  match h with h_se | h_s | h_sw => true | _ => false end.

Definition minSize : Q := 6.

(** [computeNewBBoxFromHandle]: the [switch] moves the edges the handle
    names, then the two [if]s enforce the minimum size on the side that
    moved.  The returned width is [right - left] computed anew, which in
    doubles need not be the 6 that was added or subtracted
    ([Doubles.computeNewBBoxFromHandle]). *)
Definition computeNewBBoxFromHandle (origBBox : BBox) (h : HandleName) (dx dy : Q) : BBox :=
  let left0 := bx origBBox in
  let top0 := by_ origBBox in
  let right0 := bx origBBox + bw origBBox in
  let bottom0 := by_ origBBox + bh origBBox in
  let left1 := if moves_left h then left0 + dx else left0 in
  let right1 := if moves_right h then right0 + dx else right0 in
  let top1 := if moves_top h then top0 + dy else top0 in
  let bottom1 := if moves_bottom h then bottom0 + dy else bottom0 in
  let '(left_, right_) :=
    if Js.ltb (right1 - left1) minSize
    then if moves_left h then (right1 - minSize, right1) else (left1, left1 + minSize)
    else (left1, right1) in
  let '(top_, bottom_) :=
    if Js.ltb (bottom1 - top1) minSize
    then if moves_top h then (bottom1 - minSize, bottom1) else (top1, top1 + minSize)
    else (top1, bottom1) in
  mkBBox left_ top_ (right_ - left_) (bottom_ - top_).

Section WithCanvas.

(** [measureText fontSize fontFamily s] is the [width] that the canvas
    reports for [s] under the font [`${fontSize}px ${fontFamily}`]. *)
Variable measureText : Q -> string -> string -> Q.

(** The word-wrapping loop of the text branch: [lines] and [currentLine]
    after the words seen so far. *)
Fixpoint wrap_words (fontSize : Q) (family : string) (width : Q)
    (words : list string) (lines : list string) (currentLine : string) : list string :=
  match words with
  | [] => if Js.truthy_string currentLine then lines ++ [currentLine] else lines
  | word :: rest =>
      let testLine :=
        if Js.truthy_string currentLine
        then (currentLine ++ " " ++ word)%string else word in
      if Js.ltb width (measureText fontSize family testLine)
         && Js.truthy_string currentLine
      then wrap_words fontSize family width rest (lines ++ [currentLine]) word
      else wrap_words fontSize family width rest lines testLine
  end.

Definition affects_height (h : HandleName) : bool :=
  match h with h_n | h_s | h_nw | h_ne | h_sw | h_se => true | _ => false end.

(** The text branch of [applyResize].  When the original box has height 0
    the source's [scaleY] is an infinity or [NaN] and so is the new font
    size; here the quotient is [Q]'s, so the font size of such a box is not
    the source's.  The width never depends on it, nor does the height of a
    box whose text is empty. *)
Definition resize_text (tb : TextBox) (origBBox : BBox) (h : HandleName) (dx dy : Q) : TextBox :=
  let newBBox := computeNewBBoxFromHandle origBBox h dx dy in
  let width := Qmax 30 (bw newBBox) in
  let fontSize :=
    if affects_height h
    then Qmax 8 (Js.or_else (tb_fontSize tb) 16 * (bh newBBox / bh origBBox))
    else tb_fontSize tb in
  let height :=
    if Js.truthy_string (tb_text tb)
    then
      let lines :=
        wrap_words fontSize (tb_fontFamily tb) width (Js.split_ws (tb_text tb))
                   [] EmptyString in
      let lineHeightPx := Js.or_else fontSize 12 * Js.or_else (tb_lineHeight tb) (12 # 10) in
      inject_Z (Z.of_nat (List.length lines)) * lineHeightPx
    else Qmax 20 (bh newBBox) in
  mkTextBox (tb_id tb) (bx newBBox) (by_ newBBox) width height (tb_text tb)
            fontSize (tb_fontFamily tb) (tb_lineHeight tb) (tb_textAlign tb)
            (tb_verticalAlign tb) (tb_strokeColor tb) (tb_strokeWidth tb).

(** The line and arrow branch: which endpoint the handle moves. *)
Definition moves_start (h : HandleName) (startY endY : Q) (origBBox : BBox) : bool :=
  if moves_left h then true
  else if moves_right h then false
  else Js.ltb (Qabs (startY - by_ origBBox)) (Qabs (endY - by_ origBBox)).

(** The pencil branch: every point is scaled about the centre of the
    original box and moved to the centre of the new one. *)
Definition resize_path (path : list GlobalPoint) (origBBox : BBox) (h : HandleName)
    (dx dy : Q) : list GlobalPoint :=
  let origW := Js.or_else (bw origBBox) 1 in
  let origH := Js.or_else (bh origBBox) 1 in
  let newBBox := computeNewBBoxFromHandle origBBox h dx dy in
  let scaleX := bw newBBox / origW in
  let scaleY := bh newBBox / origH in
  let cx := bx origBBox + bw origBBox / 2 in
  let cy := by_ origBBox + bh origBBox / 2 in
  let newCx := bx newBBox + bw newBBox / 2 in
  let newCy := by_ newBBox + bh newBBox / 2 in
  map (fun p => ((fst p - cx) * scaleX + newCx, (snd p - cy) * scaleY + newCy)) path.

(** [applyResize]: the shape for the pointer at [(pointerX, pointerY)],
    computed from the snapshot taken by [startResize]; [None] is [null]. *)
Definition applyResize (t : ResizeTool) (pointerX pointerY : Q) : option Shape :=
  match activeHandle t, startPointer t, originalShape t with
  | Some h, Some (sx, sy), Some orig =>
      let dx := pointerX - sx in
      let dy := pointerY - sy in
      let origBBox := bbox orig in
      match orig with
      | rect _ _ _ _ sw sc =>
          let newBBox := computeNewBBoxFromHandle origBBox h dx dy in
          Some (rect (bx newBBox) (by_ newBBox)
                     (Qmax 6 (bw newBBox)) (Qmax 6 (bh newBBox)) sw sc)
      | circle _ _ _ sw sc =>
          let newBBox := computeNewBBoxFromHandle origBBox h dx dy in
          let size := Qmax (Qmax (bw newBBox) (bh newBBox)) 6 in
          let cx := bx newBBox + bw newBBox / 2 in
          let cy := by_ newBBox + bh newBBox / 2 in
          Some (circle cx cy (Qmax 3 (size / 2)) sw sc)
      | diamond _ _ _ _ sw sc cr =>
          let newBBox := computeNewBBoxFromHandle origBBox h dx dy in
          Some (diamond (bx newBBox + bw newBBox / 2) (by_ newBBox + bh newBBox / 2)
                        (Qmax 6 (bw newBBox)) (Qmax 6 (bh newBBox)) sw sc cr)
      | line x1 y1 x2 y2 sw sc =>
          if moves_start h y1 y2 origBBox
          then Some (line (x1 + dx) (y1 + dy) x2 y2 sw sc)
          else Some (line x1 y1 (x2 + dx) (y2 + dy) sw sc)
      | arrow x1 y1 x2 y2 sw sc =>
          if moves_start h y1 y2 origBBox
          then Some (arrow (x1 + dx) (y1 + dy) x2 y2 sw sc)
          else Some (arrow x1 y1 (x2 + dx) (y2 + dy) sw sc)
      | text tb => Some (text (resize_text tb origBBox h dx dy))
      | pencil path sw sc => Some (pencil (resize_path path origBBox h dx dy) sw sc)
      end
  | _, _, _ => None
  end.

End WithCanvas.

End Resize.

(** ** The resize box in binary64 (resize.ts) *)

(** The numbers of the source are IEEE 754 doubles.  [computeNewBBoxFromHandle],
    the pencil branch of [bbox] and the pencil branch of [applyResize] are
    written here once more with the arithmetic of the source, to run them
    where rounding decides the outcome. *)
Module Doubles.

Import Shapes Resize.
Import PrimFloat.
#[local] Open Scope float_scope.
#[local] Set Warnings "-inexact-float".

(** [Math.max] and [Math.min] on two numbers: [NaN] when either is; of the
    two zeros, [+0] is the larger. *)
Definition Math_max (a b : float) : float :=
  if is_nan a || is_nan b then nan
  else if a <? b then b
  else if b <? a then a
  else if get_sign a then b else a.

Definition Math_min (a b : float) : float :=
  if is_nan a || is_nan b then nan
  else if a <? b then a
  else if b <? a then b
  else if get_sign a then a else b.

(** [a || d] on numbers: the zeros and [NaN] are falsy. *)
Definition or_else (a d : float) : float :=
  if is_zero a || is_nan a then d else a.

Record BBox := mkBBox { bx : float; by_ : float; bw : float; bh : float }.

(** The pencil branch of [bbox]. *)
Definition path_bbox (path : list (float * float)) : BBox :=
  match path with
  | [] => mkBBox 0 0 0 0
  | _ :: _ =>
      let '(minx, maxx, miny, maxy) :=
        fold_left
          (fun (acc : float * float * float * float) (p : float * float) =>
             let '(minx, maxx, miny, maxy) := acc in
             (Math_min minx (fst p), Math_max maxx (fst p),
              Math_min miny (snd p), Math_max maxy (snd p)))
          path (infinity, neg_infinity, infinity, neg_infinity) in
      mkBBox minx miny (maxx - minx) (maxy - miny)
  end.

Definition minSize : float := 6.

(** [computeNewBBoxFromHandle]. *)
Definition computeNewBBoxFromHandle (origBBox : BBox) (h : HandleName) (dx dy : float)
    : BBox :=
  let left0 := bx origBBox in
  let top0 := by_ origBBox in
  let right0 := bx origBBox + bw origBBox in
  let bottom0 := by_ origBBox + bh origBBox in
  let left1 := if moves_left h then left0 + dx else left0 in
  let right1 := if moves_right h then right0 + dx else right0 in
  let top1 := if moves_top h then top0 + dy else top0 in
  let bottom1 := if moves_bottom h then bottom0 + dy else bottom0 in
  let '(left_, right_) :=
    if right1 - left1 <? minSize
    then if moves_left h then (right1 - minSize, right1) else (left1, left1 + minSize)
    else (left1, right1) in
  let '(top_, bottom_) :=
    if bottom1 - top1 <? minSize
    then if moves_top h then (bottom1 - minSize, bottom1) else (top1, top1 + minSize)
    else (top1, bottom1) in
  mkBBox left_ top_ (right_ - left_) (bottom_ - top_).

(** The pencil branch of [applyResize]. *)
Definition resize_path (path : list (float * float)) (h : HandleName) (dx dy : float)
    : list (float * float) :=
  let origBBox := path_bbox path in
  let origW := or_else (bw origBBox) 1 in
  let origH := or_else (bh origBBox) 1 in
  let newBBox := computeNewBBoxFromHandle origBBox h dx dy in
  let scaleX := bw newBBox / origW in
  let scaleY := bh newBBox / origH in
  let cx := bx origBBox + bw origBBox / 2 in
  let cy := by_ origBBox + bh origBBox / 2 in
  let newCx := bx newBBox + bw newBBox / 2 in
  let newCy := by_ newBBox + bh newBBox / 2 in
  map (fun p => ((fst p - cx) * scaleX + newCx, (snd p - cy) * scaleY + newCy)) path.

(** A stroke from (8.1, 0) to (18.1, 10), and a box at x = 2.2. *)
Definition stroke : list (float * float) := [(8.1, 0); (18.1, 10)].
Definition box : BBox := mkBBox 2.2 0 10 10.

End Doubles.

(** ** The selection tool (select.ts) *)

Module Select.

Import Shapes.
Open Scope Q_scope.

Inductive SelectPart := part_inside | part_handle | part_edge | part_none.

Definition handleSize : Q := 10.

Section WithSqrt.

Variable sqrt : Q -> Q.

(** [Math.hypot] on two arguments. *)
Definition hypot (a b : Q) : Q := sqrt (a * a + b * b).

(** The point of the segment from [(x1, y1)] to [(x2, y2)] that the line
    and arrow branch measures the distance to. *)
Definition closest_on_segment (x y x1 y1 x2 y2 : Q) : Q * Q :=
  let A := x - x1 in
  let B := y - y1 in
  let C := x2 - x1 in
  let D := y2 - y1 in
  let dot := A * C + B * D in
  let len2 := C * C + D * D in
  let param := if negb (Js.eqb len2 0) then dot / len2 else -(1) in
  if Js.ltb param 0 then (x1, y1)
  else if Js.ltb 1 param then (x2, y2)
  else (x1 + param * C, y1 + param * D).

(** [pointInShape(x, y, shape, padding)]; the callers leave [padding] to
    its default, 6. *)
Definition pointInShape (x y : Q) (s : Shape) (padding : Q) : bool :=
  match s with
  | rect sx sy width height _ _ =>
      Js.leb (sx - padding) x && Js.leb x (sx + width + padding)
      && Js.leb (sy - padding) y && Js.leb y (sy + height + padding)
  | circle cx cy radius _ _ =>
      Js.leb (hypot (x - cx) (y - cy)) (Qabs radius + padding)
  | diamond cx cy width height _ _ _ =>
      (* bounding-box approximate *)
      let w := width / 2 + padding in
      let h := height / 2 + padding in
      Js.leb (cx - w) x && Js.leb x (cx + w) && Js.leb (cy - h) y && Js.leb y (cy + h)
  | line x1 y1 x2 y2 sw _ | arrow x1 y1 x2 y2 sw _ =>
      let '(xx, yy) := closest_on_segment x y x1 y1 x2 y2 in
      Js.leb (hypot (x - xx) (y - yy)) (padding + Js.nullish sw 4)
  | pencil path _ _ =>
      match path with
      | [] => false
      | p :: rest =>
          let '(minx, maxx, miny, maxy) := path_extent p rest in
          Js.leb (minx - padding) x && Js.leb x (maxx + padding)
          && Js.leb (miny - padding) y && Js.leb y (maxy + padding)
      end
  | text tb =>
      Js.leb (tb_x tb - padding) x && Js.leb x (tb_x tb + tb_width tb + padding)
      && Js.leb (tb_y tb - padding) y && Js.leb y (tb_y tb + tb_height tb + padding)
  end.

Definition default_padding : Q := 6.

(** What [findAt] reports: the id it returns, and the part and handle it
    passes to the [onSelect] callback. *)
Record Hit := mkHit {
  hit_id : option string;
  hit_part : SelectPart;
  hit_handle : option HandleName
}.

(** One turn of the loop of [findAt], on the stored shape [s]. *)
Definition hit_of (x y : Q) (s : StoredShape) : option Hit :=
  match handle_at (handleSize / 2) x y (bboxOf (shape s)) with
  | Some k => Some (mkHit (Some (id s)) part_handle (Some k))
  | None =>
      if pointInShape x y (shape s) default_padding
      then Some (mkHit (Some (id s)) part_inside None)
      else None
  end.

(** The loop runs from the last stored shape down to the first, so [top_down]
    is the reversed array. *)
Fixpoint first_hit (x y : Q) (top_down : list StoredShape) : Hit :=
  match top_down with
  | [] => mkHit None part_none None
  | s :: below =>
      match hit_of x y s with
      | Some h => h
      | None => first_hit x y below
      end
  end.

Definition findAt (x y : Q) (stored : list StoredShape) : Hit :=
  first_hit x y (rev stored).

End WithSqrt.

End Select.

(** ** The pencil tool (pencil.ts) *)

Module PencilTool.

Import Shapes.
Open Scope Q_scope.

Section WithSqrt.

Variable sqrt : Q -> Q.

Definition point (x y : Q) : GlobalPoint := (x, y).

Definition pointDistance (a b : GlobalPoint) : Q :=
  Select.hypot sqrt (fst a - fst b) (snd a - snd b).

(** The local function [lineDistance] of [simplifyRDP]. *)
Definition lineDistance (p a b : GlobalPoint) : Q :=
  let num := Qabs ((fst b - fst a) * (snd a - snd p) - (fst a - fst p) * (snd b - snd a)) in
  let den := Select.hypot sqrt (fst b - fst a) (snd b - snd a) in
  if Js.eqb den 0 then pointDistance p a else num / den.

Definition origin : GlobalPoint := (0, 0).

(** The [for] loop of [simplifyRDP]: [(index, dmax)] after the interior
    indices [1 .. points.length - 2]. *)
Definition farthest (points : list GlobalPoint) : nat * Q :=
  let a := nth 0 points origin in
  let b := last points origin in
  fold_left
    (fun st i =>
       let d := lineDistance (nth i points origin) a b in
       if Js.ltb (snd st) d then (i, d) else st)
    (seq 1 (List.length points - 2))
    (0%nat, 0).

(** [simplifyRDP].  The recursion of the source is not structural (and does
    not end for a negative [epsilon]), so the model counts the depth of the
    recursion down from [fuel]; [None] means the fuel ran out. *)
Fixpoint simplifyRDP (fuel : nat) (points : list GlobalPoint) (epsilon : Q)
    : option (list GlobalPoint) :=
  if (List.length points <? 3)%nat then Some points
  else
    match fuel with
    | O => None
    | S fuel' =>
        let '(index, dmax) := farthest points in
        if Js.ltb epsilon dmax then
          match simplifyRDP fuel' (firstn (index + 1) points) epsilon,
                simplifyRDP fuel' (skipn index points) epsilon with
          | Some rec1, Some rec2 => Some (removelast rec1 ++ rec2)
          | _, _ => None
          end
        else Some [nth 0 points origin; last points origin]
    end.

(** The fields of a [Pencil]. *)
Record Pencil := mkPencil {
  points : list GlobalPoint;
  smoothed : list GlobalPoint;
  strokeWidth : Q;
  strokeColor : string
}.

Definition newPencil (w : Q) (c : string) : Pencil := mkPencil [] [] w c.

Definition epsilon_tuned : Q := 15 # 10.
Definition min_spacing : Q := 5 # 10.

(** [updateSmoothed]; the recursion of [simplifyRDP] is given as much fuel
    as there are points. *)
Definition updateSmoothed (p : Pencil) : option Pencil :=
  if (List.length (points p) <? 2)%nat
  then Some (mkPencil (points p) (points p) (strokeWidth p) (strokeColor p))
  else
    match simplifyRDP (List.length (points p)) (points p) epsilon_tuned with
    | Some sm => Some (mkPencil (points p) sm (strokeWidth p) (strokeColor p))
    | None => None
    end.

Definition addPoint (x y : Q) (p : Pencil) : option Pencil :=
  let q := point x y in
  let accept :=
    match points p with
    | [] => true
    | _ :: _ => Js.ltb min_spacing (pointDistance (last (points p) origin) q)
    end in
  if accept
  then updateSmoothed (mkPencil (points p ++ [q]) (smoothed p) (strokeWidth p) (strokeColor p))
  else Some p.

Definition getPath (p : Pencil) : list GlobalPoint := smoothed p.

End WithSqrt.

End PencilTool.

(** ** JSON values, as [JSON.parse] returns them *)

Module Json.

Open Scope string_scope.

#[local] Set Warnings "-register-all".

Inductive JsValue :=
| JUndefined
| JNull
| JBool (b : bool)
| JNum (q : Q)
| JStr (s : string)
| JArr (items : list JsValue)
| JObj (fields : list (string * JsValue)).

(** [v.k]: the last binding of [k] when [v] is an object, [undefined]
    otherwise. *)
Fixpoint lookup (k : string) (fields : list (string * JsValue)) : JsValue :=
  match fields with
  | [] => JUndefined
  | (k', v) :: rest =>
      if existsb (fun kv => String.eqb k (fst kv)) rest then lookup k rest
      else if String.eqb k k' then v
      else JUndefined
  end.

Definition field (k : string) (v : JsValue) : JsValue :=
  match v with JObj fields => lookup k fields | _ => JUndefined end.

(** Truthiness, as [if (v)], [!v] and [v || w] read it. *)
Definition truthy (v : JsValue) : bool :=
  match v with
  | JUndefined | JNull => false
  | JBool b => b
  | JNum q => negb (Qeq_bool q 0)
  | JStr s => Js.truthy_string s
  | JArr _ | JObj _ => true
  end.

(** [v === "lit"]. *)
Definition is_string (lit : string) (v : JsValue) : bool :=
  match v with JStr s => String.eqb s lit | _ => false end.

Section StringConversion.

(** [Number.prototype.toString] in base ten. *)
Variable numberToString : Q -> string.

(** [String(v)]. *)
Fixpoint ToString (v : JsValue) : string :=
  match v with
  | JUndefined => "undefined"
  | JNull => "null"
  | JBool true => "true"
  | JBool false => "false"
  | JNum q => numberToString q
  | JStr s => s
  | JArr items =>
      (* Array.prototype.join: null and undefined elements print as nothing *)
      let elem v :=
        match v with JUndefined | JNull => "" | _ => ToString v end in
      (fix join (l : list JsValue) : string :=
         match l with
         | [] => ""
         | [a] => elem a
         | a :: rest => elem a ++ "," ++ join rest
         end) items
  | JObj _ => "[object Object]"
  end.

End StringConversion.

(** *** [Number(s)] on a string: is the result [NaN]? *)

Definition is_digit (c : ascii) : bool :=
  let n := nat_of_ascii c in (48 <=? n)%nat && (n <=? 57)%nat.

Definition is_hex_digit (c : ascii) : bool :=
  let n := nat_of_ascii c in
  is_digit c || ((65 <=? n)%nat && (n <=? 70)%nat) || ((97 <=? n)%nat && (n <=? 102)%nat).

Definition is_octal_digit (c : ascii) : bool :=
  let n := nat_of_ascii c in (48 <=? n)%nat && (n <=? 55)%nat.

Definition is_binary_digit (c : ascii) : bool :=
  let n := nat_of_ascii c in (48 <=? n)%nat && (n <=? 49)%nat.

(** The white space that [Number] skips at both ends of a text. *)
Fixpoint drop_space (l : list (option ascii)) : list (option ascii) :=
  match l with
  | None :: l' => drop_space l'
  | _ => l
  end.

Definition trim (l : list (option ascii)) : list (option ascii) :=
  rev (drop_space (rev (drop_space l))).

(** The bytes of a text that holds no white space. *)
Fixpoint plain (l : list (option ascii)) : option (list ascii) :=
  match l with
  | [] => Some []
  | Some c :: l' => option_map (cons c) (plain l')
  | None :: _ => None
  end.

(** The digits at the front of [l]: how many, and what follows them. *)
Fixpoint span_digits (l : list ascii) : nat * list ascii :=
  match l with
  | c :: l' =>
      if is_digit c then let (n, rest) := span_digits l' in (S n, rest) else (O, l)
  | [] => (O, [])
  end.

Definition drop_sign (l : list ascii) : list ascii :=
  match l with
  | c :: l' => if Ascii.eqb c "+" || Ascii.eqb c "-" then l' else l
  | [] => []
  end.

(** [ExponentPart], optional, up to the end of the text. *)
Definition exponent_to_end (l : list ascii) : bool :=
  match l with
  | [] => true
  | c :: l' =>
      (Ascii.eqb c "e" || Ascii.eqb c "E")
      && (let (n, rest) := span_digits (drop_sign l') in
          (0 <? n)%nat && match rest with [] => true | _ => false end)
  end.

(** [StrUnsignedDecimalLiteral]. *)
Definition unsigned_decimal (l : list ascii) : bool :=
  if String.eqb (string_of_list_ascii l) "Infinity" then true
  else
    let (n1, r1) := span_digits l in
    match r1 with
    | c :: r2 =>
        if Ascii.eqb c "."
        then let (n2, r3) := span_digits r2 in (0 <? n1 + n2)%nat && exponent_to_end r3
        else (0 <? n1)%nat && exponent_to_end r1
    | [] => (0 <? n1)%nat
    end.

(** [NonDecimalIntegerLiteral]: [0x], [0o] or [0b] and at least one digit
    of that base. *)
Definition non_decimal_integer (l : list ascii) : bool :=
  match l with
  | z :: b :: ((_ :: _) as ds) =>
      Ascii.eqb z "0"
      && (((Ascii.eqb b "x" || Ascii.eqb b "X") && forallb is_hex_digit ds)
          || ((Ascii.eqb b "o" || Ascii.eqb b "O") && forallb is_octal_digit ds)
          || ((Ascii.eqb b "b" || Ascii.eqb b "B") && forallb is_binary_digit ds))
  | _ => false
  end.

(** [StringNumericLiteral]: [Number(s)] is a number, not [NaN], exactly
    for the empty text and the literals below, white space at either end
    apart. *)
Definition string_is_numeric (s : string) : bool :=
  match trim (Js.characters s) with
  | [] => true
  | t =>
      match plain t with
      | Some l => non_decimal_integer l || unsigned_decimal (drop_sign l)
      | None => false
      end
  end.

Section NumberConversion.

Variable numberToString : Q -> string.

(** [Number.isNaN(Number(v))], which is also [isNaN(Number(v))]. *)
Definition Number_isNaN (v : JsValue) : bool :=
  match v with
  | JUndefined => true
  | JNull | JBool _ | JNum _ => false
  | JStr s => negb (string_is_numeric s)
  | JArr _ => negb (string_is_numeric (ToString numberToString v))
  | JObj _ => true
  end.

(** [typeof v === "number"]. *)
Definition is_number (v : JsValue) : bool :=
  match v with JNum _ => true | _ => false end.

End NumberConversion.

End Json.

(** ** The relay (ws-backend/src/index.ts, and its variant part_007) *)

Module Relay.

Import Json.
Open Scope string_scope.

(** A registered connection; [ws] names the socket. *)
Record User := mkUser {
  ws : nat;
  rooms : list string;
  userId : string;
  lastPing : option Z
}.

(** What a handler asks of [prismaClient.chat].  The arguments are the
    values the code converts with [Number] and [JSON.stringify]. *)
Inductive DbText :=
| json_text (v : JsValue)
| raw_text (s : string).

Inductive DbCall :=
| chat_create (roomId : JsValue) (message : DbText) (user : string)
| chat_update (id : JsValue) (message : DbText)
| chat_delete (id : JsValue).

(** How an awaited call ends: with the stored row's id, or by throwing. *)
Inductive DbResult := resolved (saved_id : Z) | rejected.

(** [ws.send(JSON.stringify(payload))] on the socket [ws]. *)
Definition Sent : Type := (nat * JsValue)%type.

(** One run of the asynchronous [message] handler: it either ends without
    awaiting, or awaits one database call and resumes against the registry
    as it is then, or throws outside every [try] (the promise of the handler
    is rejected and nobody handles it). *)
Inductive Run :=
| finished (users : list User) (sent : list Sent)
| awaiting (users : list User) (call : DbCall)
    (resume : DbResult -> list User -> list Sent)
| threw (users : list User).

Definition broadcastToRoom (roomId : string) (payload : JsValue) (users : list User)
    : list Sent :=
  map (fun u => (ws u, payload))
      (filter (fun u => existsb (String.eqb roomId) (rooms u)) users).

(** The handler closes over its own [user] object; a write to it shows in
    the registry for as long as the object is registered. *)
Definition update_user (sender : nat) (f : User -> User) (users : list User) : list User :=
  map (fun u => if Nat.eqb (ws u) sender then f u else u) users.

Definition join (room : string) (u : User) : User :=
  mkUser (ws u) (rooms u ++ [room]) (userId u) (lastPing u).

Definition leave (room : string) (u : User) : User :=
  mkUser (ws u) (filter (fun r => negb (String.eqb r room)) (rooms u)) (userId u) (lastPing u).

(** [v || null]. *)
Definition or_null (v : JsValue) : JsValue := if truthy v then v else JNull.

(** [const { type } = v] throws a [TypeError] when [v] is [null] or
    [undefined] ([JSON.parse] answers [null] for the text "null"). *)
Definition cannot_destructure (v : JsValue) : bool :=
  match v with JNull | JUndefined => true | _ => false end.

Section WithBuiltins.

Variable numberToString : Q -> string.

(** [JSON.parse]; [None] when it throws. *)
Variable parse : string -> option JsValue.

Abbreviation String_ := (ToString numberToString).

Definition delete_event (roomId shapeId : JsValue) : JsValue :=
  JObj [("type", JStr "delete"); ("id", shapeId); ("roomId", roomId)].

Definition update_event (roomId shapeId shape : JsValue) : JsValue :=
  JObj [("type", JStr "update"); ("id", shapeId); ("shape", shape); ("roomId", roomId)].

Definition chat_event (roomId : JsValue) (saved_id : Z) (tempId shapeObj : JsValue) : JsValue :=
  JObj [("type", JStr "chat"); ("id", JNum (inject_Z saved_id)); ("tempId", tempId);
        ("shape", shapeObj); ("roomId", roomId)].

(** index.ts: the body of [ws.on("message", ...)] once the text is parsed,
    for the connection [sender] of the user [uid]. *)
Definition dispatch (sender : nat) (uid : string) (parsedData : JsValue) (users : list User)
    : Run :=
  let type := field "type" parsedData in
  let roomId := field "roomId" parsedData in
  if cannot_destructure parsedData then threw users
  else if negb (truthy type) then finished users []
  else if is_string "join_room" type then
    finished (update_user sender (join (String_ roomId)) users) []
  else if is_string "leave_room" type then
    finished (update_user sender (leave (String_ roomId)) users) []
  else if is_string "chat" type then
    let tempId := field "tempId" parsedData in
    let messageContent :=
      if truthy (field "shape" parsedData)
      then JObj [("shape", field "shape" parsedData)]
      else JObj [("message", field "message" parsedData)] in
    awaiting users (chat_create roomId (json_text messageContent) uid)
      (fun r users' =>
         match r with
         | resolved saved_id =>
             let shapeObj := or_null (field "shape" messageContent) in
             broadcastToRoom (String_ roomId)
               (chat_event roomId saved_id tempId shapeObj) users'
         | rejected => []
         end)
  else if is_string "update" type then
    let shapeId := field "id" parsedData in
    let shape := field "shape" parsedData in
    awaiting users (chat_update shapeId (json_text (JObj [("shape", shape)])))
      (fun r users' =>
         match r with
         | resolved _ =>
             broadcastToRoom (String_ roomId) (update_event roomId shapeId shape) users'
         | rejected => []
         end)
  else if is_string "delete" type then
    let shapeId := field "id" parsedData in
    if Number_isNaN numberToString shapeId then
      (* Skipping delete for invalid ID; break *)
      finished users []
    else
      awaiting users (chat_delete shapeId)
        (fun _ users' =>
           broadcastToRoom (String_ roomId) (delete_event roomId shapeId) users')
  else
    (* default: Unknown message type *)
    finished users [].

(** index.ts: [ws.on("message", ...)]; a text that does not parse is
    dropped. *)
Definition onMessage (sender : nat) (uid : string) (data : string) (users : list User) : Run :=
  match parse data with
  | None => finished users []
  | Some parsedData => dispatch sender uid parsedData users
  end.

(** part_007: the body of the [message] handler of the variant of the
    relay, once the text is parsed. *)
Definition dispatch_part007 (sender : nat) (uid : string) (parsedData : JsValue)
    (users : list User) : Run :=
  let type := field "type" parsedData in
  let roomId := field "roomId" parsedData in
  if cannot_destructure parsedData then threw users
  else if negb (truthy type) then finished users []
  else if is_string "join_room" type then
    finished (update_user sender (join (String_ roomId)) users) []
  else if is_string "leave_room" type then
    finished (update_user sender (leave (String_ roomId)) users) []
  else if is_string "chat" type then
    let tempId := or_null (field "tempId" parsedData) in
    let message :=
      if truthy (field "shape" parsedData)
      then Some (json_text (JObj [("shape", field "shape" parsedData)]))
      else if truthy (field "message" parsedData)
      then Some (match field "message" parsedData with
                 | JStr s => raw_text s
                 | v => json_text v
                 end)
      else None in
    match message with
    | None => finished users []
    | Some m =>
        awaiting users (chat_create roomId m uid)
          (fun r users' =>
             match r with
             | resolved saved_id =>
                 let shapeObj :=
                   match m with
                   | json_text v => or_null (field "shape" v)
                   | raw_text s =>
                       match parse s with
                       | Some v => or_null (field "shape" v)
                       | None => JNull
                       end
                   end in
                 broadcastToRoom (String_ roomId)
                   (chat_event roomId saved_id tempId shapeObj) users'
             | rejected => []
             end)
    end
  else if is_string "update" type then
    let shapeId := field "id" parsedData in
    let shape :=
      match field "shape" parsedData with
      | JStr s => match parse s with Some v => v | None => JStr s end
      | v => v
      end in
    awaiting users (chat_update shapeId (json_text (JObj [("shape", shape)])))
      (fun r users' =>
         match r with
         | resolved _ =>
             broadcastToRoom (String_ roomId) (update_event roomId shapeId shape) users'
         | rejected => []
         end)
  else if is_string "delete" type then
    let shapeId := field "id" parsedData in
    if negb (is_number shapeId) && Number_isNaN numberToString shapeId then
      (* Skip deleting pending client shapes *)
      finished users
        (broadcastToRoom (String_ roomId) (delete_event roomId shapeId) users)
    else
      awaiting users (chat_delete shapeId)
        (fun _ users' =>
           broadcastToRoom (String_ roomId) (delete_event roomId shapeId) users')
  else
    finished users [].

Definition onMessage_part007 (sender : nat) (uid : string) (data : string)
    (users : list User) : Run :=
  match parse data with
  | None => finished users []
  | Some parsedData => dispatch_part007 sender uid parsedData users
  end.

(** The database calls and the messages of a run whose awaited call, if
    any, ends with [r] while the registry is [later]. *)
Definition calls_of (run : Run) : list DbCall :=
  match run with finished _ _ | threw _ => [] | awaiting _ c _ => [c] end.


Definition users_of (run : Run) : list User :=
  match run with finished us _ | awaiting us _ _ | threw us => us end.

End WithBuiltins.

End Relay.

(** ** The drawing session (draw/Game.ts) *)

Module Game.

Import Shapes.
Open Scope Q_scope.

Inductive Tool :=
| tool_select | tool_text | tool_circle | tool_rect | tool_pencil | tool_line
| tool_eraser | tool_arrow | tool_diamond | tool_Hand | tool_resize.

(** What the client sends on its socket. *)
Inductive Outgoing :=
| send_chat (tempId : string) (s : Shape) (roomId : string)
| send_update (id : string) (s : Shape) (roomId : string)
| send_delete (id : string) (roomId : string)
| send_reorder (order : list string) (roomId : string).

(** [IncomingMessage], after [JSON.parse]. *)
Inductive IncomingMessage :=
| msg_chat (id : Json.JsValue) (s : Shape) (tempId : option string)
| msg_delete (id : Json.JsValue)
| msg_reorder (order : list string)
| msg_update (id : Json.JsValue) (s : Shape)
| msg_other (type : string).

(** *** The store: [existingShapes] *)

Definition Store : Type := list StoredShape.

Definition has_id (i : string) (s : StoredShape) : bool := String.eqb (id s) i.

(** [s.tempId === t]. *)
Definition has_tempId (t : string) (s : StoredShape) : bool :=
  match tempId s with Some t' => String.eqb t' t | None => false end.

(** The [chat] branch of [socket.onmessage], on the store. *)
Definition reconcile (tempId : option string) (serverId : string) (serverShape : Shape)
    (store : Store) : Store :=
  let insert_unless_present :=
    if existsb (has_id serverId) store then store
    else store ++ [mkStored serverId serverShape None] in
  match tempId with
  | Some t =>
      if Js.truthy_string t then
        match Js.findIndex (fun s => has_tempId t s || has_id t s) store with
        | Some idx => Js.set_nth idx (mkStored serverId serverShape None) store
        | None => insert_unless_present
        end
      else insert_unless_present
  | None => insert_unless_present
  end.

(** The [delete] branch, on the store. *)
Definition applyRemoteDelete (deletedId : string) (store : Store) : Store :=
  filter (fun s => negb (has_id deletedId s)) store.

(** [idTo.get(id)] for the [Map] built from the store's [[id, shape]]
    pairs: a later pair replaces an earlier one with the same key. *)
Definition idTo_get (store : Store) (i : string) : option Shape :=
  option_map shape (find (has_id i) (rev store)).

(** The first loop of the [reorder] branch. *)
Definition ordered_part (order : list string) (store : Store) : Store :=
  flat_map (fun i => match idTo_get store i with
                     | Some sh => [mkStored i sh None]
                     | None => []
                     end) order.

(** The second loop: a stored shape is appended unless [newList] already
    holds its id. *)
Definition append_missing (newList : Store) (store : Store) : Store :=
  fold_left (fun acc s => if existsb (has_id (id s)) acc then acc else acc ++ [s])
            store newList.

(** The [reorder] branch, on the store. *)
Definition applyRemoteReorder (order : list string) (store : Store) : Store :=
  append_missing (ordered_part order store) store.

(** [this.existingShapes[idx].shape = shape]. *)
Definition set_shape (sh : Shape) (s : StoredShape) : StoredShape :=
  mkStored (id s) sh (tempId s).

Definition set_shape_at (idx : nat) (sh : Shape) (store : Store) : Store :=
  match nth_error store idx with
  | Some s => Js.set_nth idx (set_shape sh s) store
  | None => store
  end.

(** The [update] branch, on the store. *)
Definition applyRemoteUpdate (i : string) (sh : Shape) (store : Store) : Store :=
  match Js.findIndex (has_id i) store with
  | Some idx => set_shape_at idx sh store
  | None => store ++ [mkStored i sh None]
  end.

(** [`pending-${Date.now()}`]. *)
Definition pending_id (now : Z) : string :=
  ("pending-" ++ NilZero.string_of_int (Z.to_int now))%string.

(** The three statements that end a creation gesture (mouse up, pencil
    stroke and text box alike): the shape enters the store under a pending
    id. *)
Definition addPending (now : Z) (sh : Shape) (store : Store) : Store :=
  store ++ [mkStored (pending_id now) sh (Some (pending_id now))].

(** The store part of [bringToFront]. *)
Definition move_to_end (i : string) (store : Store) : Store :=
  match Js.findIndex (has_id i) store with
  | None => store
  | Some idx =>
      match Js.splice1 idx store with
      | (Some item, rest) => rest ++ [item]
      | (None, rest) => rest
      end
  end.

(** *** The session *)

Record Game := mkGame {
  existingShapes : Store;
  roomId : string;
  clicked : bool;
  startX : Q;
  startY : Q;
  selectedTool : Tool;
  defaultStrokeWidth : Q;
  defaultStrokeColor : string;
  activePencil : option PencilTool.Pencil;
  cameraX : Q;
  cameraY : Q;
  zoom : Q;
  isPanning : bool;
  isDraggingShape : bool;
  dragStartWorld : Q * Q;
  dragOriginalShape : option Shape;
  selectTool_selectedId : option string;
  resizeTool : Resize.ResizeTool;
  selectedShapeId : option string
}.

Definition with_existingShapes (v : Store) (g : Game) : Game :=
  mkGame v (roomId g) (clicked g) (startX g) (startY g) (selectedTool g)
    (defaultStrokeWidth g) (defaultStrokeColor g) (activePencil g) (cameraX g) (cameraY g)
    (zoom g) (isPanning g) (isDraggingShape g) (dragStartWorld g) (dragOriginalShape g)
    (selectTool_selectedId g) (resizeTool g) (selectedShapeId g).

Definition with_clicked (v : bool) (g : Game) : Game :=
  mkGame (existingShapes g) (roomId g) v (startX g) (startY g) (selectedTool g)
    (defaultStrokeWidth g) (defaultStrokeColor g) (activePencil g) (cameraX g) (cameraY g)
    (zoom g) (isPanning g) (isDraggingShape g) (dragStartWorld g) (dragOriginalShape g)
    (selectTool_selectedId g) (resizeTool g) (selectedShapeId g).

Definition with_activePencil (v : option PencilTool.Pencil) (g : Game) : Game :=
  mkGame (existingShapes g) (roomId g) (clicked g) (startX g) (startY g) (selectedTool g)
    (defaultStrokeWidth g) (defaultStrokeColor g) v (cameraX g) (cameraY g)
    (zoom g) (isPanning g) (isDraggingShape g) (dragStartWorld g) (dragOriginalShape g)
    (selectTool_selectedId g) (resizeTool g) (selectedShapeId g).

Definition with_camera (x y z : Q) (g : Game) : Game :=
  mkGame (existingShapes g) (roomId g) (clicked g) (startX g) (startY g) (selectedTool g)
    (defaultStrokeWidth g) (defaultStrokeColor g) (activePencil g) x y
    z (isPanning g) (isDraggingShape g) (dragStartWorld g) (dragOriginalShape g)
    (selectTool_selectedId g) (resizeTool g) (selectedShapeId g).

Definition with_isPanning (v : bool) (g : Game) : Game :=
  mkGame (existingShapes g) (roomId g) (clicked g) (startX g) (startY g) (selectedTool g)
    (defaultStrokeWidth g) (defaultStrokeColor g) (activePencil g) (cameraX g) (cameraY g)
    (zoom g) v (isDraggingShape g) (dragStartWorld g) (dragOriginalShape g)
    (selectTool_selectedId g) (resizeTool g) (selectedShapeId g).

Definition with_drag (dragging : bool) (orig : option Shape) (g : Game) : Game :=
  mkGame (existingShapes g) (roomId g) (clicked g) (startX g) (startY g) (selectedTool g)
    (defaultStrokeWidth g) (defaultStrokeColor g) (activePencil g) (cameraX g) (cameraY g)
    (zoom g) (isPanning g) dragging (dragStartWorld g) orig
    (selectTool_selectedId g) (resizeTool g) (selectedShapeId g).

Definition with_selection (sel : option string) (rt : Resize.ResizeTool)
    (selected : option string) (g : Game) : Game :=
  mkGame (existingShapes g) (roomId g) (clicked g) (startX g) (startY g) (selectedTool g)
    (defaultStrokeWidth g) (defaultStrokeColor g) (activePencil g) (cameraX g) (cameraY g)
    (zoom g) (isPanning g) (isDraggingShape g) (dragStartWorld g) (dragOriginalShape g)
    sel rt selected.

(** *** Messages from the relay *)

Section WithBuiltins.

Variable numberToString : Q -> string.
Variable sqrt : Q -> Q.
Variable measureText : Q -> string -> string -> Q.

(** [selectTool.clearSelection()]: the tool forgets its selection and calls
    the callback installed by the constructor, which clears the session's
    selection and the resize tool's. *)
Definition clearSelection (g : Game) : Game :=
  with_selection None (Resize.setSelectedId None (resizeTool g)) None g.

Definition same_id (a : option string) (b : string) : bool :=
  match a with Some a' => String.eqb a' b | None => false end.

(** [socket.onmessage], after the message has been parsed. *)
Definition onmessage (m : IncomingMessage) (g : Game) : Game :=
  match m with
  | msg_chat i sh t =>
      with_existingShapes
        (reconcile t (Json.ToString numberToString i) sh (existingShapes g)) g
  | msg_delete i =>
      let deletedId := Json.ToString numberToString i in
      let g1 := with_existingShapes (applyRemoteDelete deletedId (existingShapes g)) g in
      if same_id (selectedShapeId g1) deletedId then
        let g2 := clearSelection g1 in
        with_selection (selectTool_selectedId g2) (Resize.finishResize (resizeTool g2))
                       (selectedShapeId g2) g2
      else g1
  | msg_reorder order =>
      with_existingShapes (applyRemoteReorder order (existingShapes g)) g
  | msg_update i sh =>
      with_existingShapes
        (applyRemoteUpdate (Json.ToString numberToString i) sh (existingShapes g)) g
  | msg_other _ => g
  end.

(** [sendReorder]. *)
Definition sendReorder (g : Game) : Outgoing :=
  send_reorder (map id (existingShapes g)) (roomId g).

Definition bringToFront (i : string) (g : Game) : Game * list Outgoing :=
  match Js.findIndex (has_id i) (existingShapes g) with
  | None => (g, [])
  | Some _ =>
      let g' := with_existingShapes (move_to_end i (existingShapes g)) g in
      (g', [sendReorder g'])
  end.

(** *** The camera *)

Definition screenToWorld (g : Game) (sx sy : Q) : Q * Q :=
  (sx / zoom g + cameraX g, sy / zoom g + cameraY g).

Definition minZ : Q := 1 # 10.
Definition maxZ : Q := 8.

(** [setZoom(newZoom, screenX?, screenY?)]. *)
Definition setZoom (newZoom : Q) (screenX screenY : option Q) (g : Game) : Game :=
  let newZoom := Qmax minZ (Qmin maxZ newZoom) in
  match screenX, screenY with
  | Some sx, Some sy =>
      let worldBefore := screenToWorld g sx sy in
      let g1 := with_camera (cameraX g) (cameraY g) newZoom g in
      let worldAfter := screenToWorld g1 sx sy in
      with_camera (cameraX g1 + (fst worldBefore - fst worldAfter))
                  (cameraY g1 + (snd worldBefore - snd worldAfter)) newZoom g1
  | _, _ => with_camera (cameraX g) (cameraY g) newZoom g
  end.

Definition getZoom (g : Game) : Q := zoom g.

(** What the handlers read of a mouse or wheel event, and of the canvas
    rectangle at that moment. *)
Record MouseEvent := mkMouseEvent {
  clientX : Q;
  clientY : Q;
  offsetX : Q;
  offsetY : Q;
  deltaY : Q;
  rect_left : Q;
  rect_top : Q
}.

(** The [wheel] listener of [initMouseHandlers]. *)
Definition onWheel (ev : MouseEvent) (g : Game) : Game :=
  let cx := clientX ev - rect_left ev in
  let cy := clientY ev - rect_top ev in
  let delta := if Js.ltb (deltaY ev) 0 then 112 # 100 else 1 / (112 # 100) in
  setZoom (zoom g * delta) (Some cx) (Some cy) g.

(** *** The end of a gesture *)

Definition translateShape (s : Shape) (dx dy : Q) : Shape :=
  match s with
  | rect x y w h sw sc => rect (x + dx) (y + dy) w h sw sc
  | circle cx cy r sw sc => circle (cx + dx) (cy + dy) r sw sc
  | line x1 y1 x2 y2 sw sc => line (x1 + dx) (y1 + dy) (x2 + dx) (y2 + dy) sw sc
  | arrow x1 y1 x2 y2 sw sc => arrow (x1 + dx) (y1 + dy) (x2 + dx) (y2 + dy) sw sc
  | diamond cx cy w h sw sc cr => diamond (cx + dx) (cy + dy) w h sw sc cr
  | pencil path sw sc => pencil (map (fun p => (fst p + dx, snd p + dy)) path) sw sc
  | text tb =>
      text (mkTextBox (tb_id tb) (tb_x tb + dx) (tb_y tb + dy) (tb_width tb) (tb_height tb)
              (tb_text tb) (tb_fontSize tb) (tb_fontFamily tb) (tb_lineHeight tb)
              (tb_textAlign tb) (tb_verticalAlign tb) (tb_strokeColor tb) (tb_strokeWidth tb))
  end.

(** [existingShapes[idx].shape = newShape] for the index of the id, when
    there is one. *)
Definition replace_shape (i : string) (sh : Shape) (store : Store) : Store :=
  match Js.findIndex (has_id i) store with
  | Some idx => set_shape_at idx sh store
  | None => store
  end.

(** A stored id that is truthy. *)
Definition truthy_id (i : option string) : option string :=
  match i with
  | Some s => if Js.truthy_string s then Some s else None
  | None => None
  end.

(** The shape a drag from [(startX, startY)] to [world] creates with the
    current tool; [None] for the tools that create none here. *)
Definition shapeToSend (g : Game) (world : Q * Q) : option Shape :=
  let width := fst world - startX g in
  let height := snd world - startY g in
  let sw := Some (defaultStrokeWidth g) in
  let sc := Some (defaultStrokeColor g) in
  match selectedTool g with
  | tool_rect => Some (rect (startX g) (startY g) width height sw sc)
  | tool_circle =>
      let radius := sqrt (width * width + height * height) / 2 in
      Some (circle (startX g + width / 2) (startY g + height / 2) radius sw sc)
  | tool_line => Some (line (startX g) (startY g) (fst world) (snd world) sw sc)
  | tool_arrow => Some (arrow (startX g) (startY g) (fst world) (snd world) sw sc)
  | tool_diamond =>
      let cornerRadius := Js.or_else (Qmin (Qabs width) (Qabs height) * (8 # 100)) 6 in
      Some (diamond (startX g + width / 2) (startY g + height / 2)
                    (Qabs width) (Qabs height) sw sc (Some cornerRadius))
  | _ => None
  end.

(** The text box whose [textarea] a drag with the text tool opens. *)
Definition textShape (g : Game) (world : Q * Q) : TextBox :=
  let width := fst world - startX g in
  let height := snd world - startY g in
  mkTextBox None (startX g) (startY g) (Qabs width) (Qabs height) EmptyString
            (Qmax 12 (Qabs height)) "Arial"%string (12 # 10) align_left valign_top
            (Some (defaultStrokeColor g)) (Some (defaultStrokeWidth g)).

(** What a handler leaves behind: the session, the messages it sent, and
    the text box of the [textarea] it opened, if it opened one. *)
Record Outcome := mkOutcome {
  game : Game;
  sent : list Outgoing;
  textarea : option TextBox
}.

(** The last statements of [mouseUpHandler], also those of the pencil and
    of the text box: push under a pending id, send the [chat] message. *)
Definition commitPending (now : Z) (sh : Shape) (g : Game) : Game * list Outgoing :=
  (with_existingShapes (addPending now sh (existingShapes g)) g,
   [send_chat (pending_id now) sh (roomId g)]).

(** [mouseUpHandler]; [now] is what [Date.now()] answers during the call. *)
Definition mouseUpHandler (now : Z) (ev : MouseEvent) (g : Game) : Outcome :=
  if isPanning g then mkOutcome (with_isPanning false g) [] None
  else
    let screen := (clientX ev - rect_left ev, clientY ev - rect_top ev) in
    let world := screenToWorld g (fst screen) (snd screen) in
    let g := with_clicked false g in
    match (if isDraggingShape g then truthy_id (selectedShapeId g) else None),
          dragOriginalShape g with
    | Some sel, Some orig =>
        (* commit drag of selected shape *)
        let dx := fst world - fst (dragStartWorld g) in
        let dy := snd world - snd (dragStartWorld g) in
        let newShape := translateShape orig dx dy in
        let g1 := with_existingShapes (replace_shape sel newShape (existingShapes g)) g in
        mkOutcome (with_drag false None g1) [send_update sel newShape (roomId g)] None
    | _, _ =>
        match selectedTool g, activePencil g with
        | tool_pencil, Some p =>
            (* finalize pencil *)
            let sh := pencil (PencilTool.getPath p) (PencilTool.strokeWidth p)
                             (PencilTool.strokeColor p) in
            let (g1, out) := commitPending now sh g in
            mkOutcome (with_activePencil None g1) out None
        | _, _ =>
            if match selectedTool g with tool_resize => Resize.isResizing (resizeTool g)
               | _ => false end
            then
              (* finalize resize *)
              let finish g' :=
                with_selection (selectTool_selectedId g')
                               (Resize.finishResize (resizeTool g')) (selectedShapeId g') g' in
              match truthy_id (Resize.getSelectedId (resizeTool g)),
                    Resize.applyResize measureText (resizeTool g) (offsetX ev) (offsetY ev) with
              | Some i, Some newShape =>
                  let g1 := with_existingShapes
                              (replace_shape i newShape (existingShapes g)) g in
                  mkOutcome (finish g1) [send_update i newShape (roomId g)] None
              | _, _ => mkOutcome (finish g) [] None
              end
            else
              (* finalize drag-based shapes *)
              match selectedTool g with
              | tool_text => mkOutcome g [] (Some (textShape g world))
              | _ =>
                  match shapeToSend g world with
                  | None => mkOutcome g [] None
                  | Some sh =>
                      let (g1, out) := commitPending now sh g in
                      mkOutcome g1 out None
                  end
              end
        end
    end.

(** The [blur] listener of the [textarea]: the text typed becomes the
    box's literal text and the box enters the store. *)
Definition onTextBlur (now : Z) (value : string) (tb : TextBox) (g : Game)
    : Game * list Outgoing :=
  let tb' :=
    mkTextBox (tb_id tb) (tb_x tb) (tb_y tb) (tb_width tb) (tb_height tb) value
              (tb_fontSize tb) (tb_fontFamily tb) (tb_lineHeight tb) (tb_textAlign tb)
              (tb_verticalAlign tb) (tb_strokeColor tb) (tb_strokeWidth tb) in
  commitPending now (text tb') g.

End WithBuiltins.

End Game.

(** ** Notions the properties are stated with *)

Module Spec.

Import Shapes.
Open Scope Q_scope.

(** The first and the last point of a stroke, when it has any. *)
Definition first_point (l : list GlobalPoint) : option GlobalPoint := hd_error l.

Definition last_point (l : list GlobalPoint) : option GlobalPoint :=
  match l with [] => None | _ :: _ => Some (last l PencilTool.origin) end.

(** The loop of [simplifyRDP] either never moved [index] off its initial
    value, and then [dmax] is still the literal [0], or it left an interior
    index. *)
Definition loop_inv (n : nat) (st : nat * Q) : Prop :=
  st = (0%nat, 0) \/ (1 <= fst st <= n - 2)%nat.

(** What the recursion of [simplifyRDP] maintains between its input and
    its output. *)
Definition ends_kept (points out : list GlobalPoint) : Prop :=
  first_point out = first_point points
  /\ last_point out = last_point points
  /\ (2 <= List.length points -> 2 <= List.length out)%nat.

(** A square root to run the definitions with: the root of [n/d] to three
    decimal places, rounded down. *)
Definition sqrt_approx (q : Q) : Q :=
  Z.sqrt (Qnum q * Zpos (Qden q) * 1000000) # (Qden q * 1000).

(** A canvas to run the definitions with: every character is six tenths of
    the font size wide. *)
Definition measure_monospace (fontSize : Q) (family s : string) : Q :=
  fontSize * (6 # 10) * inject_Z (Z.of_nat (String.length s)).

(** The taxicab-normalised distance of [(x, y)] from the centre [(cx, cy)]
    of a diamond with half-extents [hw] and [hh]. *)
Definition taxicab_distance (x y cx cy hw hh : Q) : Q :=
  Qabs (x - cx) / hw + Qabs (y - cy) / hh.

(** Containment in a diamond as the specification words it for the
    selection hit-test: taxicab-normalised distance at most 1, the padding
    added to the half-extents. *)
Definition diamond_taxicab_inside (x y cx cy width height padding : Q) : bool :=
  Js.leb (taxicab_distance x y cx cy (width / 2 + padding) (height / 2 + padding)) 1.

(** The shapes whose resize branch ends in [Math.max] against a minimum:
    rectangles, circles, diamonds and text boxes.  Lines and arrows move one
    end point freely, and a pencil stroke is scaled to the new box without a
    last [Math.max]. *)
Definition clamped_on_resize (s : Shape) : Prop :=
  match s with
  | rect _ _ _ _ _ _ | circle _ _ _ _ _ | diamond _ _ _ _ _ _ _ | text _ => True
  | pencil _ _ _ | line _ _ _ _ _ _ | arrow _ _ _ _ _ _ => False
  end.

(** The minimum that the branch of the shape names for the width and for
    the height. *)
Definition least_width (s : Shape) : Q :=
  match s with text _ => 30 | _ => 6 end.

Definition least_height (s : Shape) : Q :=
  match s with text _ => 20 | _ => 6 end.

(** A text box with literal text takes the height of its wrapped lines; any
    other height is clamped. *)
Definition height_clamped (s : Shape) : Prop :=
  match s with text tb => tb_text tb = EmptyString | _ => True end.

(** *** The store *)

(** The ids of the store are pairwise distinct. *)
Definition unique_ids (store : Game.Store) : Prop := NoDup (map id store).

(** The entries that the [chat] branch looks for: those whose [tempId] or
    [id] is the event's [tempId], when that is a non-empty string. *)
Definition matches_tempId (tempId : option string) (s : StoredShape) : bool :=
  match tempId with
  | Some t => Js.truthy_string t && (Game.has_tempId t s || Game.has_id t s)
  | None => false
  end.

(** The id of [s] appears in [order]. *)
Definition mentioned (order : list string) (s : StoredShape) : bool :=
  existsb (String.eqb (id s)) order.

(** An entry rebuilt as [{ id, shape }]. *)
Definition strip (s : StoredShape) : StoredShape := mkStored (id s) (shape s) None.

(** The reordering as the specification words it: the entries whose id
    appears in [order], in the order given, then the entries whose id is
    absent from [order], in their prior relative order. *)
Definition in_order_given (order : list string) (store : Game.Store) : Game.Store :=
  flat_map (fun i => map strip (filter (Game.has_id i) store)) order.

Definition reorder_spec (order : list string) (store : Game.Store) : Game.Store :=
  in_order_given order store ++ filter (fun s => negb (mentioned order s)) store.

(** A session to run the handlers in: an empty canvas in room 1, the camera
    at rest, nothing selected, and [tool] in hand. *)
Definition session_with (tool : Game.Tool) : Game.Game :=
  Game.mkGame [] "1" false 0 0 tool 2 "white" None 0 0 1 false false (0, 0) None
              None Resize.idle None.

(** A mouse event at the client point [(x, y)] of a canvas whose rectangle
    starts at the origin. *)
Definition mouse_at (x y : Q) : Game.MouseEvent := Game.mkMouseEvent x y x y 0 0 0.

(** Three shapes, and the millisecond in which two gestures end. *)
Definition shapeA : Shape := rect 0 0 10 10 (Some 2) (Some "white"%string).
Definition shapeB : Shape := line 0 0 5 5 (Some 2) (Some "white"%string).
Definition shapeS : Shape := rect 0 0 10 10 None None.

Definition tick : Z := 1700000000000.

(** Two shapes drawn within [tick]. *)
Definition colliding : Game.Store :=
  Game.addPending tick shapeB (Game.addPending tick shapeA []).

(** A store of two confirmed shapes and one pending shape. *)
Definition three : Game.Store :=
  Game.addPending tick shapeS
    [mkStored "1" shapeA None; mkStored "2" shapeB None]%string.

(** *** The relay *)

(** The message that [sendReorder] sends, and a [delete] message. *)
Definition reorder_message (roomId order : Json.JsValue) : Json.JsValue :=
  Json.JObj [("type", Json.JStr "reorder"); ("order", order); ("roomId", roomId)]%string.

Definition delete_message (roomId shapeId : Json.JsValue) : Json.JsValue :=
  Json.JObj [("type", Json.JStr "delete"); ("id", shapeId); ("roomId", roomId)]%string.

(** The broadcast of a reorder as the specification words it: the received
    order, verbatim, to every connection joined to the room. *)
Definition reorder_broadcast (numberToString : Q -> string) (roomId order : Json.JsValue)
    (users : list Relay.User) : list Relay.Sent :=
  Relay.broadcastToRoom (Json.ToString numberToString roomId)
    (reorder_message roomId order) users.

(** An integer printed in base ten, for the room and shape ids of the
    cases below. *)
Definition print_integer (q : Q) : string :=
  NilZero.string_of_int (Z.to_int (Qnum q / Zpos (Qden q))).

(** Two connections joined to room 1 and one joined to room 2. *)
Definition three_users : list Relay.User :=
  [Relay.mkUser 1 ["1"%string] "ann" None;
   Relay.mkUser 2 ["2"%string] "bob" None;
   Relay.mkUser 3 ["1"%string] "cyd" None].

End Spec.

(** ** The eraser (eraser.ts) *)

Module Eraser.

Import Shapes.
Open Scope Q_scope.

Record Eraser := mkEraser { size : Q }.

(** [new Eraser(size = 10)]. *)
Definition default_size : Q := 10.

Definition setSize (v : Q) (e : Eraser) : Eraser := mkEraser v.
Definition getSize (e : Eraser) : Q := size e.

Section WithSqrt.

Variable sqrt : Q -> Q.

(** [pointToLineDistance]: the clamped projection is the one of the
    selection tool, the distance is [Math.sqrt(dx * dx + dy * dy)]. *)
Definition pointToLineDistance (p a b : Q * Q) : Q :=
  let '(xx, yy) :=
    Select.closest_on_segment (fst p) (snd p) (fst a) (snd a) (fst b) (snd b) in
  let dx := fst p - xx in
  let dy := snd p - yy in
  sqrt (dx * dx + dy * dy).

(** [isPointInShape].  In the diamond branch a half-extent of zero makes a
    quotient infinite or [NaN] in JavaScript and the comparison false; the
    model tests for it, since the division of [Q] is total. *)
Definition isPointInShape (e : Eraser) (x y : Q) (s : Shape) : bool :=
  match s with
  | rect sx sy width height _ _ =>
      Js.leb sx x && Js.leb x (sx + width) && Js.leb sy y && Js.leb y (sy + height)
  | circle cx cy radius _ _ =>
      let dx := x - cx in
      let dy := y - cy in
      Js.leb (sqrt (dx * dx + dy * dy)) (Qabs radius)
  | pencil path strokeWidth _ =>
      existsb (fun p => Js.leb (Select.hypot sqrt (fst p - x) (snd p - y))
                               (Js.or_else strokeWidth 2 + size e)) path
  | line x1 y1 x2 y2 _ _ | arrow x1 y1 x2 y2 _ _ =>
      Js.leb (pointToLineDistance (x, y) (x1, y1) (x2, y2)) (size e + 3)
  | diamond cx cy width height _ _ _ =>
      let dx := Qabs (x - cx) in
      let dy := Qabs (y - cy) in
      if Js.eqb (width / 2) 0 || Js.eqb (height / 2) 0 then false
      else Js.leb (dx / (width / 2) + dy / (height / 2)) 1
  | text tb =>
      Js.leb (tb_x tb) x && Js.leb x (tb_x tb + tb_width tb)
      && Js.leb (tb_y tb) y && Js.leb y (tb_y tb + tb_height tb)
  end.

(** [findShapeAt]: the loop runs from the last stored shape to the first;
    [None] is [null]. *)
Definition findShapeAt (e : Eraser) (x y : Q) (storedShapes : list StoredShape)
    : option string :=
  option_map id (find (fun s => isPointInShape e x y (shape s)) (rev storedShapes)).

End WithSqrt.

(** [eraseById]: what it returns, and the array it leaves. *)
Definition eraseById (i : string) (storedShapes : list StoredShape)
    : bool * list StoredShape :=
  match Js.findIndex (Game.has_id i) storedShapes with
  | None => (false, storedShapes)
  | Some idx => (true, snd (Js.splice1 idx storedShapes))
  end.

End Eraser.

(** ** The pointer and the keyboard (draw/Game.ts) *)

Module Input.

Import Shapes Game.
Open Scope Q_scope.

(** The fields of the session that [Game.Game] leaves out. *)
Record Session := mkSession {
  core : Game;
  spacePressed : bool;
  panStart : Q * Q;
  cameraStart : Q * Q;
  activeEraser : option Eraser.Eraser
}.

Definition with_core (g : Game) (s : Session) : Session :=
  mkSession g (spacePressed s) (panStart s) (cameraStart s) (activeEraser s).

Definition with_tool (tool : Tool) (g : Game) : Game :=
  mkGame (existingShapes g) (roomId g) (clicked g) (startX g) (startY g) tool
    (defaultStrokeWidth g) (defaultStrokeColor g) (activePencil g) (cameraX g) (cameraY g)
    (zoom g) (isPanning g) (isDraggingShape g) (dragStartWorld g) (dragOriginalShape g)
    (selectTool_selectedId g) (resizeTool g) (selectedShapeId g).

Definition with_start (x y : Q) (g : Game) : Game :=
  mkGame (existingShapes g) (roomId g) (clicked g) x y (selectedTool g)
    (defaultStrokeWidth g) (defaultStrokeColor g) (activePencil g) (cameraX g) (cameraY g)
    (zoom g) (isPanning g) (isDraggingShape g) (dragStartWorld g) (dragOriginalShape g)
    (selectTool_selectedId g) (resizeTool g) (selectedShapeId g).

Definition with_dragStart (dragging : bool) (start : Q * Q) (orig : option Shape) (g : Game)
    : Game :=
  mkGame (existingShapes g) (roomId g) (clicked g) (startX g) (startY g) (selectedTool g)
    (defaultStrokeWidth g) (defaultStrokeColor g) (activePencil g) (cameraX g) (cameraY g)
    (zoom g) (isPanning g) dragging start orig
    (selectTool_selectedId g) (resizeTool g) (selectedShapeId g).

Definition with_stroke (w : Q) (c : string) (p : option PencilTool.Pencil) (g : Game) : Game :=
  mkGame (existingShapes g) (roomId g) (clicked g) (startX g) (startY g) (selectedTool g)
    w c p (cameraX g) (cameraY g)
    (zoom g) (isPanning g) (isDraggingShape g) (dragStartWorld g) (dragOriginalShape g)
    (selectTool_selectedId g) (resizeTool g) (selectedShapeId g).

(** *** Tools and selection *)

Definition is_tool_resize (t : Tool) : bool :=
  match t with tool_resize => true | _ => false end.

Definition is_tool_select (t : Tool) : bool :=
  match t with tool_select => true | _ => false end.

(** [setTool]. *)
Definition setTool (tool : Tool) (g : Game) : Game :=
  let g1 := with_tool tool g in
  let g2 :=
    if negb (is_tool_resize tool) && Resize.isResizing (resizeTool g1)
    then with_selection (selectTool_selectedId g1) (Resize.finishResize (resizeTool g1))
                        (selectedShapeId g1) g1
    else g1 in
  if negb (is_tool_select tool) then clearSelection g2 else g2.

(** The callback that the constructor gives to the selection tool. *)
Definition onSelect (i : option string) (part : Select.SelectPart) (g : Game) : Game :=
  let g1 := with_selection (selectTool_selectedId g) (Resize.setSelectedId i (resizeTool g)) i g in
  match truthy_id i with
  | None => g1
  | Some _ =>
      match part with
      | Select.part_inside => setTool tool_select g1
      | Select.part_handle => setTool tool_resize g1
      | _ => g1
      end
  end.

Definition setStrokeWidth (w : Q) (g : Game) : Game :=
  with_stroke w (defaultStrokeColor g)
    (option_map (fun p => PencilTool.mkPencil (PencilTool.points p) (PencilTool.smoothed p)
                            w (PencilTool.strokeColor p)) (activePencil g)) g.

Definition setStrokeColor (c : string) (g : Game) : Game :=
  with_stroke (defaultStrokeWidth g) c
    (option_map (fun p => PencilTool.mkPencil (PencilTool.points p) (PencilTool.smoothed p)
                            (PencilTool.strokeWidth p) c) (activePencil g)) g.

(** [getLayers]: a copy of the array. *)
Definition getLayers (g : Game) : list StoredShape := existingShapes g.

Section WithBuiltins.

Variable sqrt : Q -> Q.

(** [selectTool.findAt(x, y, existingShapes)] as the session sees it: the
    tool records the hit and calls [onSelect] before it returns the id. *)
Definition selectAt (x y : Q) (g : Game) : option string * Game :=
  let hit := Select.findAt sqrt x y (existingShapes g) in
  let g1 := with_selection (Select.hit_id hit) (resizeTool g) (selectedShapeId g) g in
  (Select.hit_id hit, onSelect (Select.hit_id hit) (Select.hit_part hit) g1).

(** [this.selectedShapeId = found ?? null; this.resizeTool.setSelectedId(...)]. *)
Definition select_found (found : option string) (g : Game) : Game :=
  with_selection (selectTool_selectedId g) (Resize.setSelectedId found (resizeTool g)) found g.

Definition find_stored (i : string) (store : Store) : option StoredShape :=
  find (has_id i) store.

(** [mouseDownHandler]; [button] is [ev.button].  [None] would mean that
    the pencil's first point never came back from [simplifyRDP]. *)
Definition mouseDownHandler (button : Z) (ev : MouseEvent) (s : Session)
    : option (Session * list Outgoing) :=
  let g := core s in
  let screen := (clientX ev - rect_left ev, clientY ev - rect_top ev) in
  let world := screenToWorld g (fst screen) (snd screen) in
  if (button =? 1)%Z || spacePressed s then
    Some (mkSession (with_isPanning true g) (spacePressed s) screen (cameraX g, cameraY g)
                    (activeEraser s), [])
  else
    let g := with_start (fst world) (snd world) (with_clicked true g) in
    match selectedTool g with
    | tool_pencil =>
        match PencilTool.addPoint sqrt (fst world) (snd world)
                (PencilTool.newPencil (defaultStrokeWidth g) (defaultStrokeColor g)) with
        | Some p => Some (with_core (with_activePencil (Some p) g) s, [])
        | None => None
        end
    | tool_eraser =>
        let e := match activeEraser s with
                 | Some e => e
                 | None => Eraser.mkEraser Eraser.default_size
                 end in
        let s1 := mkSession g (spacePressed s) (panStart s) (cameraStart s) (Some e) in
        match truthy_id (Eraser.findShapeAt sqrt e (fst world) (snd world) (existingShapes g)) with
        | Some shapeId =>
            Some (with_core (with_existingShapes
                               (filter (fun st => negb (has_id shapeId st)) (existingShapes g)) g)
                            s1,
                  [send_delete shapeId (roomId g)])
        | None => Some (s1, [])
        end
    | tool_select =>
        let (found, g1) := selectAt (fst screen) (snd screen) g in
        let g2 := select_found found g1 in
        let g3 :=
          match truthy_id (selectedShapeId g2) with
          | Some sel =>
              match find_stored sel (existingShapes g2) with
              | Some stored => with_dragStart true world (Some (shape stored)) g2
              | None => g2
              end
          | None => g2
          end in
        Some (with_core g3 s, [])
    | tool_resize =>
        match truthy_id (selectedShapeId g) with
        | None =>
            let (found, g1) := selectAt (offsetX ev) (offsetY ev) g in
            Some (with_core (select_found found g1) s, [])
        | Some sel =>
            match find_stored sel (existingShapes g) with
            | None => Some (with_core g s, [])
            | Some stored =>
                match Resize.hitTestHandles (offsetX ev) (offsetY ev) (shape stored) with
                | Some handle =>
                    Some (with_core
                            (with_selection (selectTool_selectedId g)
                               (Resize.startResize sel (shape stored) (offsetX ev) (offsetY ev)
                                  handle (resizeTool g))
                               (selectedShapeId g) g) s, [])
                | None =>
                    let (found, g1) := selectAt (offsetX ev) (offsetY ev) g in
                    Some (with_core (select_found found g1) s, [])
                end
            end
        end
    | _ => Some (with_core g s, [])
    end.

(** [mouseMoveHandler], as far as it changes the session (the previews it
    draws leave no trace in it). *)
Definition mouseMoveHandler (ev : MouseEvent) (s : Session) : option Session :=
  let g := core s in
  let screen := (clientX ev - rect_left ev, clientY ev - rect_top ev) in
  let world := screenToWorld g (fst screen) (snd screen) in
  if isPanning g then
    let dx := fst screen - fst (panStart s) in
    let dy := snd screen - snd (panStart s) in
    Some (with_core (with_camera (fst (cameraStart s) - dx / zoom g)
                                 (snd (cameraStart s) - dy / zoom g) (zoom g) g) s)
  else if is_tool_select (selectedTool g) && isDraggingShape g
          && match dragOriginalShape g, truthy_id (selectedShapeId g) with
             | Some _, Some _ => true
             | _, _ => false
             end
  then Some s
  else
    match selectedTool g, activePencil g, clicked g with
    | tool_pencil, Some p, true =>
        match PencilTool.addPoint sqrt (fst world) (snd world) p with
        | Some p' => Some (with_core (with_activePencil (Some p') g) s)
        | None => None
        end
    | _, _, _ =>
        if is_tool_resize (selectedTool g) && Resize.isResizing (resizeTool g) then Some s
        else
          match selectedTool g, activeEraser s with
          | tool_eraser, None =>
              Some (mkSession g (spacePressed s) (panStart s) (cameraStart s)
                              (Some (Eraser.mkEraser Eraser.default_size)))
          | _, _ => Some s
          end
    end.

(** [keyDown] and [keyUp]; [space] says that [e.code] is ["Space"]. *)
Definition keyDown (space : bool) (s : Session) : Session :=
  if space then mkSession (core s) true (panStart s) (cameraStart s) (activeEraser s) else s.

Definition keyUp (space : bool) (s : Session) : Session :=
  if space then mkSession (core s) false (panStart s) (cameraStart s) (activeEraser s) else s.

End WithBuiltins.

End Input.

(** ** The registry of connections (ws-backend/src/index.ts) *)

Module Registry.

Import Relay.
Open Scope string_scope.

(** What the relay does to a socket besides sending on it. *)
Inductive SocketAction :=
| sock_close (ws : nat)
| sock_terminate (ws : nat)
| sock_ping (ws : nat).

(** The time, in milliseconds, after which a connection that sent no pong is
    dropped. *)
Definition timeout_ms : Z := 45000.

(** [!user.lastPing || now - user.lastPing > 45000]. *)
Definition stale (now : Z) (u : User) : bool :=
  match lastPing u with
  | None => true
  | Some t => (t =? 0)%Z || (timeout_ms <? now - t)%Z
  end.

(** The [for] loop of [heartbeat], from index [i - 1] down to 0: a stale
    connection is terminated and spliced out of the registry, any other is
    pinged. *)
Fixpoint heartbeat_from (now : Z) (i : nat) (users : list User)
    : list User * list SocketAction :=
  match i with
  | O => (users, [])
  | S i' =>
      match nth_error users i' with
      | Some user =>
          if stale now user then
            let (us, acts) := heartbeat_from now i' (snd (Js.splice1 i' users)) in
            (us, sock_terminate (ws user) :: acts)
          else
            let (us, acts) := heartbeat_from now i' users in
            (us, sock_ping (ws user) :: acts)
      | None => heartbeat_from now i' users
      end
  end.

(** [heartbeat]; [now] is what [Date.now()] answers. *)
Definition heartbeat (now : Z) (users : list User) : list User * list SocketAction :=
  heartbeat_from now (List.length users) users.

(** [ws.on("pong", ...)]. *)
Definition onPong (sender : nat) (now : Z) (users : list User) : list User :=
  update_user sender (fun u => mkUser (ws u) (rooms u) (userId u) (Some now)) users.

(** [ws.on("close", ...)]. *)
Definition onClose (sender : nat) (users : list User) : list User :=
  match Js.findIndex (fun u => Nat.eqb (ws u) sender) users with
  | Some idx => snd (Js.splice1 idx users)
  | None => users
  end.

Section WithJwt.

(** [jwt.verify(token, JWT_SECRET)] and the read of [userId] off what it
    returns: [None] when it throws, [Some None] when the payload has no
    [userId]. *)
Variable verify : string -> option (option string).

(** [new URLSearchParams(url.split("?")[1] || "").get("token") || ""]. *)
Variable token_of_url : string -> string.

(** [checkUser]. *)
Definition checkUser (token : string) : option string :=
  if negb (Js.truthy_string token) then None
  else
    match verify token with
    | Some (Some u) => if Js.truthy_string u then Some u else None
    | _ => None
    end.

(** [wss.on("connection", ...)], up to the registration of the handlers;
    [url] is [request.url] and [now] what [Date.now()] answers. *)
Definition onConnection (sock : nat) (url : option string) (now : Z) (users : list User)
    : list User * list SocketAction :=
  match url with
  | None => (users, [sock_close sock])
  | Some u =>
      if negb (Js.truthy_string u) then (users, [sock_close sock])
      else
        match checkUser (token_of_url u) with
        | None => (users, [sock_close sock])
        | Some uid => ((users ++ [mkUser sock [] uid (Some now)])%list, [])
        end
  end.

End WithJwt.

End Registry.

(** ** Further notions the properties are stated with *)

Unset Implicit Arguments.

Module Notions.

Import Shapes Game Input.
Open Scope Q_scope.

(** [l1] is [l2] with some elements left out. *)
Inductive subseq {A : Type} : list A -> list A -> Prop :=
| subseq_nil : subseq [] []
| subseq_skip (a : A) (l1 l2 : list A) : subseq l1 l2 -> subseq l1 (a :: l2)
| subseq_take (a : A) (l1 l2 : list A) : subseq l1 l2 -> subseq (a :: l1) (a :: l2).

Section WithSqrt.
Variable sqrt : Q -> Q.

(** Each recorded point is farther than the minimum spacing from the one
    recorded before it. *)
Fixpoint spaced (l : list GlobalPoint) : Prop :=
  match l with
  | a :: (b :: _) as rest =>
      PencilTool.min_spacing < PencilTool.pointDistance sqrt a b /\ spaced rest
  | _ => True
  end.

(** What a stroke maintains after each pointer position. *)
Definition stroke_inv (w : Q) (c : string) (first : GlobalPoint)
    (seen : list GlobalPoint) (p : PencilTool.Pencil) : Prop :=
  Spec.first_point (PencilTool.points p) = Some first
  /\ spaced (PencilTool.points p)
  /\ subseq (PencilTool.points p) seen
  /\ subseq (PencilTool.getPath p) (PencilTool.points p)
  /\ Spec.first_point (PencilTool.getPath p) = Some first
  /\ Spec.last_point (PencilTool.getPath p) = Spec.last_point (PencilTool.points p)
  /\ PencilTool.strokeWidth p = w
  /\ PencilTool.strokeColor p = c.

(** A stroke: the pencil made at mouse down and fed the pointer positions
    in turn. *)
Definition stroke (w : Q) (c : string) (coords : list GlobalPoint)
    : option PencilTool.Pencil :=
  fold_left (fun acc xy =>
               match acc with
               | Some p => PencilTool.addPoint sqrt (fst xy) (snd xy) p
               | None => None
               end)
            coords (Some (PencilTool.newPencil w c)).
End WithSqrt.

(** The canvas position of a mouse event ([getCanvasScreenCoords]). *)
Definition screen_of (ev : MouseEvent) : Q * Q :=
  (clientX ev - rect_left ev, clientY ev - rect_top ev).

(** The world point under the pointer of a mouse event. *)
Definition world_under (g : Game) (ev : MouseEvent) : Q * Q :=
  screenToWorld g (fst (screen_of ev)) (snd (screen_of ev)).


(** What a message from the relay has to satisfy for the store to keep its
    ids pairwise distinct: the id of a [chat] is not yet the id of a stored
    shape, and the order of a [reorder] names no id twice. *)
Definition admissible (numberToString : Q -> string) (m : IncomingMessage)
    (store : Store) : Prop :=
  match m with
  | msg_chat i _ _ => ~ In (Json.ToString numberToString i) (map id store)
  | msg_reorder order => NoDup order
  | _ => True
  end.

Section WithSqrt.
Variable sqrt : Q -> Q.

(** The pointer moving over the canvas: [mouseMoveHandler], event after
    event. *)
Fixpoint run_moves (evs : list MouseEvent) (s : Session) : option Session :=
  match evs with
  | [] => Some s
  | ev :: rest =>
      match mouseMoveHandler sqrt ev s with
      | Some s' => run_moves rest s'
      | None => None
      end
  end.
End WithSqrt.

(** What the heartbeat does to one connection. *)
Definition verdict (now : Z) (u : Relay.User) : Registry.SocketAction :=
  if Registry.stale now u then Registry.sock_terminate (Relay.ws u)
  else Registry.sock_ping (Relay.ws u).

(** What the moves of a pan leave alone: everything but the camera
    position. *)
Definition same_but_camera (s1 s : Session) : Prop :=
  Input.spacePressed s = Input.spacePressed s1 /\ panStart s = panStart s1
  /\ cameraStart s = cameraStart s1 /\ activeEraser s = activeEraser s1
  /\ isPanning (core s) = isPanning (core s1)
  /\ zoom (core s) = zoom (core s1)
  /\ forall x y z, with_camera x y z (core s) = with_camera x y z (core s1).

(** *** Cases to run the properties on *)

(** A session on the store [store]: room 1, the camera at rest, [tool] in
    hand, no key held, nothing selected. *)
Definition session_on (tool : Tool) (store : Store) : Session :=
  mkSession
    (mkGame store "1" false 0 0 tool 2 "white" None 0 0 1 false false (0, 0) None
            None Resize.idle None)
    false (0, 0) (0, 0) None.



End Notions.

(** * Properties *)

Unset Implicit Arguments.

(** ** Freehand simplification *)

Module PencilFacts.

Import Shapes PencilTool Spec.
Open Scope Q_scope.

Section WithSqrt.

Variable sqrt : Q -> Q.

Lemma farthest_step_inv (points : list GlobalPoint) (a b : GlobalPoint) (is_ : list nat) :
  forall st,
    Forall (fun i => (1 <= i <= List.length points - 2)%nat) is_ ->
    loop_inv (List.length points) st ->
    loop_inv (List.length points)
      (fold_left
         (fun st i =>
            let d := lineDistance sqrt (nth i points origin) a b in
            if Js.ltb (snd st) d then (i, d) else st) is_ st).
Proof.
  induction is_ as [|i rest IH]; intros st Hall Hst; simpl.
  - exact Hst.
  - inversion Hall as [|? ? Hi Hrest]; subst.
    apply IH; [exact Hrest|].
    destruct (Js.ltb (snd st) (lineDistance sqrt (nth i points origin) a b)).
    + right. simpl. exact Hi.
    + exact Hst.
Qed.

Lemma farthest_inv (points : list GlobalPoint) :
  loop_inv (List.length points) (farthest sqrt points).
Proof.
  unfold farthest. apply farthest_step_inv.
  - apply Forall_forall. intros i Hi. apply in_seq in Hi. lia.
  - left. reflexivity.
Qed.

Lemma ltb_zero_nonneg (epsilon : Q) : 0 <= epsilon -> Js.ltb epsilon 0 = false.
Proof.
  intros H. unfold Js.ltb.
  apply Qle_bool_iff in H. rewrite H. reflexivity.
Qed.

(** When the deviation found exceeds a tolerance that is not negative, the
    index found is interior. *)
Lemma farthest_interior (points : list GlobalPoint) (epsilon : Q) index dmax :
  0 <= epsilon ->
  farthest sqrt points = (index, dmax) ->
  Js.ltb epsilon dmax = true ->
  (1 <= index <= List.length points - 2)%nat.
Proof.
  intros Heps Hf Hlt.
  pose proof (farthest_inv points) as Hinv. rewrite Hf in Hinv.
  destruct Hinv as [Hinit | Hin].
  - inversion Hinit; subst.
    rewrite (ltb_zero_nonneg _ Heps) in Hlt. discriminate.
  - exact Hin.
Qed.

Lemma removelast_app_head (A : Type) (l1 l2 : list A) :
  (2 <= List.length l1)%nat -> hd_error (removelast l1 ++ l2) = hd_error l1.
Proof.
  destruct l1 as [|a [|b l1]]; simpl; intros H; try lia. reflexivity.
Qed.

Lemma last_app_r (A : Type) (l1 l2 : list A) (d : A) :
  l2 <> [] -> last (l1 ++ l2) d = last l2 d.
Proof.
  intros Hne. induction l1 as [|a l1 IH]; simpl; [reflexivity|].
  destruct (l1 ++ l2) eqn:E; [|exact IH].
  destruct l1, l2; simpl in E; congruence.
Qed.

Lemma last_point_app (l1 l2 : list GlobalPoint) :
  l2 <> [] -> last_point (l1 ++ l2) = last_point l2.
Proof.
  intros Hne. unfold last_point.
  destruct l2 as [|b l2]; [congruence|].
  destruct (l1 ++ b :: l2) eqn:E.
  - destruct l1; discriminate.
  - rewrite <- E. f_equal. apply last_app_r. discriminate.
Qed.

Lemma last_point_skipn (points : list GlobalPoint) (k : nat) :
  (k < List.length points)%nat -> last_point (skipn k points) = last_point points.
Proof.
  intros Hk.
  rewrite <- (firstn_skipn k points) at 2.
  symmetry. apply last_point_app.
  intros E. apply (f_equal (@List.length _)) in E.
  rewrite length_skipn in E. simpl in E. lia.
Qed.

Lemma first_point_firstn (points : list GlobalPoint) (k : nat) :
  (1 <= k)%nat -> first_point (firstn k points) = first_point points.
Proof.
  destruct k; [lia|]. destruct points; reflexivity.
Qed.

Lemma ends_of_long (points : list GlobalPoint) :
  (3 <= List.length points)%nat ->
  ends_kept points [nth 0 points origin; last points origin].
Proof.
  intros Hlen. destruct points as [|p rest]; [simpl in Hlen; lia|].
  repeat split; simpl; lia.
Qed.

(** [simplifyRDP] returns, and keeps both ends, whenever the tolerance is
    not negative and the fuel covers the points beyond the first two. *)
Lemma simplifyRDP_ends (epsilon : Q) :
  0 <= epsilon ->
  forall fuel points,
    (List.length points <= fuel + 2)%nat ->
    exists out, simplifyRDP sqrt fuel points epsilon = Some out /\ ends_kept points out.
Proof.
  intros Heps. induction fuel as [|fuel IH]; intros points Hlen.
  - exists points. split.
    + destruct points as [|? [|? [|? ?]]]; simpl in *; try reflexivity; lia.
    + repeat split; auto.
  - simpl. destruct (List.length points <? 3)%nat eqn:Hshort.
    + exists points. repeat split; auto.
    + apply Nat.ltb_ge in Hshort.
      destruct (farthest sqrt points) as [index dmax] eqn:Hf.
      destruct (Js.ltb epsilon dmax) eqn:Hlt.
      * pose proof (farthest_interior points epsilon index dmax Heps Hf Hlt) as Hidx.
        destruct (IH (firstn (index + 1) points)) as [out1 [E1 [H1f [_ H1n]]]].
        { rewrite length_firstn. lia. }
        destruct (IH (skipn index points)) as [out2 [E2 [_ [H2l H2n]]]].
        { rewrite length_skipn. lia. }
        rewrite E1, E2. exists (removelast out1 ++ out2).
        assert (Hn1 : (2 <= List.length out1)%nat).
        { apply H1n. rewrite length_firstn. lia. }
        assert (Hn2 : (2 <= List.length out2)%nat).
        { apply H2n. rewrite length_skipn. lia. }
        split; [reflexivity|]. repeat split.
        -- unfold first_point in *. rewrite removelast_app_head by exact Hn1.
           rewrite H1f. apply first_point_firstn. lia.
        -- rewrite last_point_app by (destruct out2; simpl in Hn2; [lia|discriminate]).
           rewrite H2l. apply last_point_skipn. lia.
        -- intros _. rewrite length_app. lia.
      * eexists. split; [reflexivity|]. apply ends_of_long. exact Hshort.
Qed.

End WithSqrt.

(** C7 (freehand simplification keeps the end points).  For every way of
    taking square roots, every point sequence and every tolerance that is
    not negative, [simplifyRDP] run with as much fuel as there are points
    returns a sequence whose first point is the first point of the input and
    whose last point is the last point of the input. *)
Theorem simplifyRDP_preserves_endpoints
    (sqrt : Q -> Q) (points : list GlobalPoint) (epsilon : Q) :
  0 <= epsilon ->
  exists out,
    simplifyRDP sqrt (List.length points) points epsilon = Some out
    /\ first_point out = first_point points
    /\ last_point out = last_point points.
Proof.
  intros Heps.
  destruct (simplifyRDP_ends sqrt epsilon Heps (List.length points) points)
    as [out [E [Hf [Hl _]]]].
  - lia.
  - exists out. auto.
Qed.

(** [updateSmoothed] returns, and the path it leaves has the ends of the
    recorded stroke. *)
Lemma updateSmoothed_keeps_endpoints (sqrt : Q -> Q) (p : PencilTool.Pencil) :
  exists p',
    PencilTool.updateSmoothed sqrt p = Some p'
    /\ PencilTool.points p' = PencilTool.points p
    /\ first_point (PencilTool.getPath p') = first_point (PencilTool.points p)
    /\ last_point (PencilTool.getPath p') = last_point (PencilTool.points p).
Proof.
  unfold PencilTool.updateSmoothed.
  destruct (List.length (PencilTool.points p) <? 2)%nat.
  - eexists. split; [reflexivity|]. auto.
  - destruct (simplifyRDP_ends sqrt PencilTool.epsilon_tuned) with
      (fuel := List.length (PencilTool.points p)) (points := PencilTool.points p)
      as [out [E [Hf [Hl _]]]].
    + unfold PencilTool.epsilon_tuned, Qle. simpl. lia.
    + lia.
    + rewrite E. eexists. split; [reflexivity|]. auto.
Qed.

End PencilFacts.

(** C7, at a stroke of four points with the tolerance of the pencil. *)
Lemma simplifyRDP_preserves_endpoints_witness :
  exists out,
    PencilTool.simplifyRDP Spec.sqrt_approx 4 [(0, 0); (1, 5); (2, 0); (3, 0)]%Q (15 # 10)
      = Some out
    /\ Spec.first_point out = Some (0, 0)%Q
    /\ Spec.last_point out = Some (3, 0)%Q.
Proof.
  apply (PencilFacts.simplifyRDP_preserves_endpoints
           Spec.sqrt_approx [(0, 0); (1, 5); (2, 0); (3, 0)]%Q (15 # 10)).
  unfold Qle. simpl. lia.
Defined.

(** ** The camera *)

Module CameraFacts.

Import Game.
Open Scope Q_scope.

Lemma clamp_within (z : Q) : minZ <= Qmax minZ (Qmin maxZ z) <= maxZ.
Proof.
  split.
  - apply Q.le_max_l.
  - apply Q.max_lub.
    + unfold minZ, maxZ, Qle. simpl. lia.
    + apply Q.le_min_l.
Qed.

Lemma zoom_with_camera (x y z : Q) (g : Game) : zoom (with_camera x y z g) = z.
Proof. reflexivity. Qed.

Lemma setZoom_zoom (newZoom : Q) (sx sy : option Q) (g : Game) :
  zoom (setZoom newZoom sx sy g) = Qmax minZ (Qmin maxZ newZoom).
Proof.
  unfold setZoom. destruct sx as [sx|], sy as [sy|]; apply zoom_with_camera.
Qed.

Lemma onWheel_zoom (ev : MouseEvent) (g : Game) :
  exists z, zoom (onWheel ev g) = Qmax minZ (Qmin maxZ z).
Proof.
  unfold onWheel. eexists. apply setZoom_zoom.
Qed.

(** The wheel listener, event after event. *)
Lemma wheel_zoom_within (evs : list MouseEvent) (ev : MouseEvent) (g : Game) :
  minZ <= zoom (fold_left (fun g e => onWheel e g) (evs ++ [ev]) g) <= maxZ.
Proof.
  rewrite fold_left_app. cbn [fold_left].
  destruct (onWheel_zoom ev (fold_left (fun g e => onWheel e g) evs g)) as [z Hz].
  rewrite Hz. apply clamp_within.
Qed.

(** C10 (the zoom factor stays within its bounds).  Whatever zoom is asked
    of [setZoom], with or without a screen point to zoom about, the zoom
    factor stored afterwards lies in the closed interval from [minZ] = 1/10
    to [maxZ] = 8; so it does after any non-empty run of wheel events, each
    of which asks [setZoom] for the current factor times or over 1.12. *)
Theorem setZoom_within_bounds
    (newZoom : Q) (screenX screenY : option Q) (g : Game)
    (evs : list MouseEvent) (ev : MouseEvent) :
  (minZ <= getZoom (setZoom newZoom screenX screenY g) <= maxZ)
  /\ (minZ <= getZoom (fold_left (fun g e => onWheel e g) (evs ++ [ev]) g) <= maxZ).
Proof.
  unfold getZoom. split.
  - rewrite setZoom_zoom. apply clamp_within.
  - apply wheel_zoom_within.
Qed.

End CameraFacts.

(** ** The selection hit-test *)

Module SelectFacts.

Import Shapes Select Spec.
Open Scope Q_scope.

Lemma leb_true_iff (a b : Q) : Js.leb a b = true <-> a <= b.
Proof. unfold Js.leb. apply Qle_bool_iff. Qed.

(** C8, as the code has it (the selection test of a diamond is its padded
    bounding box).  For every diamond and every query point, [pointInShape]
    answers [true] exactly when the point lies in the axis-aligned box
    around the diamond's centre whose half-extents are half the width plus
    the padding and half the height plus the padding. *)
Theorem pointInShape_diamond_is_padded_box
    (sqrt : Q -> Q) (x y cx cy width height padding : Q)
    (sw : option Q) (sc : option string) (cr : option Q) :
  pointInShape sqrt x y (diamond cx cy width height sw sc cr) padding = true
  <-> (cx - (width / 2 + padding) <= x <= cx + (width / 2 + padding)
       /\ cy - (height / 2 + padding) <= y <= cy + (height / 2 + padding)).
Proof.
  unfold pointInShape.
  rewrite !andb_true_iff, !leb_true_iff. tauto.
Qed.

(** C8 fails as stated: the point (16, 16) is in the padded box of the
    diamond of width and height 20 centred at the origin, so the hit-test
    says inside, while its taxicab-normalised distance from the centre is 2
    with padded half-extents (and 16/5 with the bare ones). *)
Lemma pointInShape_diamond_not_taxicab :
  pointInShape sqrt_approx 16 16 (diamond 0 0 20 20 None None None) default_padding = true
  /\ diamond_taxicab_inside 16 16 0 0 20 20 default_padding = false
  /\ taxicab_distance 16 16 0 0 (20 / 2 + default_padding) (20 / 2 + default_padding) == 2
  /\ taxicab_distance 16 16 0 0 (20 / 2) (20 / 2) == 16 # 5.
Proof.
  repeat split; vm_compute; reflexivity.
Qed.

End SelectFacts.

(** ** The resize transform *)

Module ResizeFacts.

Import Shapes Resize Spec.
Open Scope Q_scope.

Lemma ltb_true (a b : Q) : Js.ltb a b = true -> a < b.
Proof.
  unfold Js.ltb. intros H. apply negb_true_iff in H.
  destruct (Qlt_le_dec a b) as [Hlt|Hle]; [exact Hlt|].
  apply Qle_bool_iff in Hle. congruence.
Qed.

Lemma ltb_false (a b : Q) : Js.ltb a b = false -> b <= a.
Proof.
  unfold Js.ltb. intros H. apply negb_false_iff in H. apply Qle_bool_iff. exact H.
Qed.

Lemma Qabs_max3 (a : Q) : 6 <= 2 * Qabs (Qmax 3 a).
Proof.
  pose proof (Q.le_max_l 3 a) as H.
  rewrite Qabs_pos by lra. lra.
Qed.

(** C3, as the code has it (the minimum size holds where the branch ends in
    [Math.max]).  For every rectangle, circle, diamond and text box, every
    handle and every pointer position, a resize gesture started on the shape
    returns a shape whose bounding box is at least as wide as the minimum of
    its branch, which is 6 for a rectangle, a circle and a diamond and 30
    for a text box, and so at least [minSize] = 6 wide; and at least as high
    as the minimum of its branch, 6 or, for a text box, 20, unless the shape
    is a text box with literal text. *)
Theorem applyResize_min_size
    (measureText : Q -> string -> string -> Q)
    (i : string) (orig : Shape) (sx sy : Q) (h : HandleName) (t : ResizeTool)
    (pointerX pointerY : Q) :
  clamped_on_resize orig ->
  exists s',
    applyResize measureText (startResize i orig sx sy h t) pointerX pointerY = Some s'
    /\ minSize <= least_width orig <= bw (bbox s')
    /\ (height_clamped orig -> minSize <= least_height orig <= bh (bbox s')).
Proof.
  intros Hc. unfold applyResize, startResize. cbn [activeHandle startPointer originalShape].
  set (dx := pointerX - sx). set (dy := pointerY - sy).
  assert (H66 : 6 <= 6) by apply Qle_refl.
  assert (H630 : 6 <= 30) by (unfold Qle; simpl; lia).
  assert (H620 : 6 <= 20) by (unfold Qle; simpl; lia).
  unfold minSize.
  destruct orig as [x y w0 h0 sw sc | cx cy r sw sc | path sw sc | x1 y1 x2 y2 sw sc
                   | x1 y1 x2 y2 sw sc | cx cy w0 h0 sw sc cr | tb];
    cbn [clamped_on_resize] in Hc; try contradiction;
    eexists; (split; [reflexivity|]);
    cbn [bbox bw bh least_width least_height height_clamped].
  - repeat split; try exact H66; apply Q.le_max_l.
  - repeat split; try exact H66; apply Qabs_max3.
  - repeat split; try exact H66; apply Q.le_max_l.
  - unfold resize_text. cbn [tb_width tb_height]. split.
    + split; [exact H630|apply Q.le_max_l].
    + intros Hempty. rewrite Hempty. cbn [Js.truthy_string].
      split; [exact H620|apply Q.le_max_l].
Qed.

(** A text box with a word in it takes the height of its wrapped lines, and
    a vertical stroke keeps a box of width 0. *)
Example applyResize_text_height_of_lines :
  exists tb,
    applyResize measure_monospace
      (startResize "7"
         (text (mkTextBox None 0 0 100 40 "hi" 2 "Arial" 1 align_left valign_top None None))
         100 20 h_e idle) 150 20 = Some (text tb)
    /\ tb_height tb == 2.
Proof.
  eexists. split; [reflexivity|]. vm_compute. reflexivity.
Qed.

Example applyResize_flat_stroke_stays_flat :
  exists s',
    applyResize measure_monospace
      (startResize "7" (pencil [(0, 0); (0, 10)] 2 "white") 0 10 h_se idle) 30 30 = Some s'
    /\ bw (bbox s') == 0.
Proof.
  eexists. split; [reflexivity|]. vm_compute. reflexivity.
Qed.

End ResizeFacts.

(** ** Resizing: where the minimum size fails *)

Module ResizeCases.

Import Shapes Resize Spec.
Import PrimFloat.
#[local] Open Scope float_scope.
#[local] Set Warnings "-inexact-float".

(** C3 fails as stated, for the two kinds of branch that do not end in
    [Math.max].  A line from (0, 0) to (10, 10), taken by its [se] handle at
    (10, 10) and dragged to (0, 0), comes back with both end points at
    (0, 0), a bounding box of width and height 0.  A pencil stroke from
    (8.1, 0) to (18.1, 10), its [se] handle dragged by (-100, -100), comes
    back in the arithmetic of the source as (8.1, 0), (14.099999999999998,
    6): [computeNewBBoxFromHandle] clamps the box to 8.1 + 6 - 8.1, and the
    scaled stroke is 5.999999999999998 wide, below the minimum. *)
Lemma applyResize_below_min_size :
  (exists s',
      applyResize measure_monospace
        (startResize "7" (line 0 0 10 10 None None)%Q 10%Q 10%Q h_se idle) 0%Q 0%Q = Some s'
      /\ (bw (bbox s') == 0 /\ bh (bbox s') == 0
          /\ ~ minSize <= bw (bbox s') /\ ~ minSize <= bh (bbox s'))%Q)
  /\ (let out := Doubles.resize_path Doubles.stroke h_se (-100) (-100) in
      out = [(8.1, 0); (14.099999999999998, 6)]
      /\ Doubles.bw (Doubles.path_bbox out) = 5.999999999999998
      /\ (Doubles.bw (Doubles.path_bbox out) <? Doubles.minSize) = true).
Proof.
  split.
  - eexists. split; [reflexivity|].
    split; [vm_compute; reflexivity|].
    split; [vm_compute; reflexivity|].
    split; intros H; unfold Qle in H; simpl in H; lia.
  - cbv zeta. repeat split; vm_compute; reflexivity.
Qed.

(** [computeNewBBoxFromHandle] itself can answer with a box below the
    minimum it enforces: the box at x = 2.2, 10 wide, its [e] handle dragged
    by -100, is clamped to 2.2 + 6 - 2.2, which is 5.999999999999999 in the
    arithmetic of the source. *)
Example computeNewBBoxFromHandle_rounds_below_min :
  Doubles.bw (Doubles.computeNewBBoxFromHandle Doubles.box h_e (-100) 0)
  = 5.999999999999999.
Proof. vm_compute. reflexivity. Qed.

End ResizeCases.

(** C3 as amended, at an empty text box whose [nw] handle is dragged far
    past the opposite corner: the box that comes back is at least 30 wide
    and 20 high. *)
Lemma applyResize_min_size_witness :
  exists s',
    Resize.applyResize Spec.measure_monospace
      (Resize.startResize "7"
         (Shapes.text (Shapes.mkTextBox None 0 0 100 40 "" 16 "Arial" (12 # 10)
                         Shapes.align_left Shapes.valign_top None None))
         0 0 Shapes.h_nw Resize.idle) 500 500 = Some s'
    /\ (Resize.minSize <= 30 <= Shapes.bw (Shapes.bbox s'))%Q
    /\ (Resize.minSize <= 20 <= Shapes.bh (Shapes.bbox s'))%Q.
Proof.
  destruct (ResizeFacts.applyResize_min_size Spec.measure_monospace "7"
              (Shapes.text (Shapes.mkTextBox None 0 0 100 40 "" 16 "Arial" (12 # 10)
                              Shapes.align_left Shapes.valign_top None None))
              0 0 Shapes.h_nw Resize.idle 500 500 I) as [s' [E [Hw Hh]]].
  exists s'. split; [exact E|]. split; [exact Hw|]. apply Hh. reflexivity.
Defined.

(** ** The store *)

Module StoreFacts.

Import Shapes Game Spec.

Section FindIndex.

Context {A : Type} (p : A -> bool).

Lemma findIndex_None (l : list A) :
  Js.findIndex p l = None <-> forallb (fun a => negb (p a)) l = true.
Proof.
  induction l as [|a l IH]; simpl; [tauto|].
  destruct (p a); simpl.
  - split; discriminate.
  - rewrite <- IH. destruct (Js.findIndex p l); simpl; split; congruence.
Qed.

Lemma findIndex_Some (l : list A) (i : nat) :
  Js.findIndex p l = Some i ->
  exists l1 a l2,
    l = l1 ++ a :: l2 /\ List.length l1 = i /\ p a = true
    /\ forallb (fun a => negb (p a)) l1 = true.
Proof.
  revert i. induction l as [|a l IH]; simpl; intros i H; [discriminate|].
  destruct (p a) eqn:Pa.
  - inversion H; subst. exists [], a, l. auto.
  - destruct (Js.findIndex p l) as [j|] eqn:E; simpl in H; [|discriminate].
    inversion H; subst.
    destruct (IH j eq_refl) as [l1 [b [l2 [El [Hlen [Pb Hl1]]]]]].
    exists (a :: l1), b, l2. subst l. simpl. rewrite Pa, Hl1. auto.
Qed.

Lemma findIndex_app_skip (l1 l2 : list A) :
  forallb (fun a => negb (p a)) l1 = true ->
  Js.findIndex p (l1 ++ l2) = option_map (Nat.add (List.length l1)) (Js.findIndex p l2).
Proof.
  induction l1 as [|a l1 IH]; simpl; intros H.
  - destruct (Js.findIndex p l2); reflexivity.
  - apply andb_true_iff in H. destruct H as [Ha Hl].
    apply negb_true_iff in Ha. rewrite Ha, (IH Hl).
    destruct (Js.findIndex p l2); reflexivity.
Qed.

Lemma set_nth_middle (l1 l2 : list A) (a v : A) :
  Js.set_nth (List.length l1) v (l1 ++ a :: l2) = l1 ++ v :: l2.
Proof.
  induction l1 as [|b l1 IH]; simpl; [reflexivity|]. rewrite IH. reflexivity.
Qed.

Lemma filter_none (l : list A) :
  forallb (fun a => negb (p a)) l = true -> filter p l = [].
Proof.
  induction l as [|a l IH]; simpl; intros H; [reflexivity|].
  apply andb_true_iff in H. destruct H as [Ha Hl].
  apply negb_true_iff in Ha. rewrite Ha. auto.
Qed.

Lemma filter_nil_none (l : list A) :
  filter p l = [] -> forallb (fun a => negb (p a)) l = true.
Proof.
  induction l as [|a l IH]; simpl; intros H; [reflexivity|].
  destruct (p a); [discriminate|]. simpl. auto.
Qed.

End FindIndex.

Lemma insert_unless_present_twice (i : string) (sh : Shape) (store : Store) :
  let once := if existsb (has_id i) store then store else store ++ [mkStored i sh None] in
  existsb (has_id i) once = true.
Proof.
  simpl. destruct (existsb (has_id i) store) eqn:E; [exact E|].
  rewrite existsb_app. simpl. unfold has_id at 2. simpl. rewrite String.eqb_refl.
  apply orb_true_r.
Qed.

(** C5, as the code has it (reconciliation is idempotent when at most one
    entry answers to the temporary id).  For every store in which at most
    one entry has its [tempId] or its [id] equal to the event's [tempId],
    applying a reconciliation event and then the identical event again
    leaves the store as the first application left it. *)
Theorem reconcile_idempotent
    (tempId : option string) (serverId : string) (serverShape : Shape) (store : Store) :
  (List.length (filter (matches_tempId tempId) store) <= 1)%nat ->
  reconcile tempId serverId serverShape (reconcile tempId serverId serverShape store)
  = reconcile tempId serverId serverShape store.
Proof.
  intros Hone.
  pose proof (insert_unless_present_twice serverId serverShape store) as Hins.
  cbv zeta in Hins.
  assert (Hfallback :
    forall st, existsb (has_id serverId) st = true ->
      (if existsb (has_id serverId) st then st
       else st ++ [mkStored serverId serverShape None]) = st).
  { intros st H. rewrite H. reflexivity. }
  destruct tempId as [t|]; [destruct (Js.truthy_string t) eqn:Ht|].
  2,3: unfold reconcile; try rewrite Ht; apply Hfallback, Hins.
  set (P := fun s => has_tempId t s || has_id t s) in *.
  set (new := mkStored serverId serverShape None).
  assert (HP : forall s, matches_tempId (Some t) s = P s).
  { intros s. unfold matches_tempId. rewrite Ht. reflexivity. }
  rewrite (filter_ext _ _ HP) in Hone.
  assert (Hnew : has_id serverId new = true) by apply String.eqb_refl.
  assert (Hstep : forall st,
            reconcile (Some t) serverId serverShape st
            = match Js.findIndex P st with
              | Some idx => Js.set_nth idx new st
              | None => if existsb (has_id serverId) st then st else st ++ [new]
              end).
  { intros st. unfold reconcile. rewrite Ht. reflexivity. }
  destruct (Js.findIndex P store) as [idx|] eqn:Hfind.
  - destruct (findIndex_Some P store idx Hfind) as [l1 [a [l2 [El [Hlen [Pa Hl1]]]]]].
    subst store idx.
    assert (Eonce : reconcile (Some t) serverId serverShape (l1 ++ a :: l2) = l1 ++ new :: l2).
    { rewrite Hstep, Hfind. apply set_nth_middle. }
    rewrite Eonce, Hstep.
    rewrite (findIndex_app_skip P l1 (new :: l2) Hl1).
    cbn [Js.findIndex]. destruct (P new) eqn:Pnew.
    + cbn [option_map]. rewrite Nat.add_0_r. apply set_nth_middle.
    + rewrite filter_app in Hone. cbn [filter] in Hone. rewrite Pa in Hone.
      rewrite (filter_none P l1 Hl1) in Hone. cbn in Hone.
      assert (Hl2 : filter P l2 = []) by (destruct (filter P l2); [reflexivity|simpl in Hone; lia]).
      apply filter_nil_none in Hl2.
      apply (findIndex_None P) in Hl2. rewrite Hl2. cbn [option_map].
      apply Hfallback. rewrite existsb_app. cbn [existsb].
      rewrite Hnew. rewrite orb_true_r. reflexivity.
  - assert (Eonce : reconcile (Some t) serverId serverShape store
                    = if existsb (has_id serverId) store then store else store ++ [new]).
    { rewrite Hstep, Hfind. reflexivity. }
    rewrite Eonce.
    destruct (existsb (has_id serverId) store) eqn:Hex.
    + rewrite Hstep, Hfind, Hex. reflexivity.
    + rewrite Hstep. apply (findIndex_None P) in Hfind.
      rewrite (findIndex_app_skip P store [new] Hfind). cbn [Js.findIndex].
      destruct (P new).
      * cbn [option_map]. rewrite Nat.add_0_r.
        apply (set_nth_middle store [] new new).
      * cbn [option_map]. apply Hfallback.
        rewrite existsb_app. cbn [existsb]. rewrite Hnew, orb_true_r. reflexivity.
Qed.

Lemma has_id_true (i : string) (s : StoredShape) : has_id i s = true <-> id s = i.
Proof. unfold has_id. apply String.eqb_eq. Qed.

Lemma existsb_has_id (i : string) (l : Store) :
  existsb (has_id i) l = true <-> In i (map id l).
Proof.
  rewrite existsb_exists, in_map_iff. split.
  - intros [s [Hin H]]. exists s. apply has_id_true in H. auto.
  - intros [s [H Hin]]. exists s. split; [exact Hin|]. apply has_id_true. exact H.
Qed.

Lemma mentioned_true (order : list string) (s : StoredShape) :
  mentioned order s = true <-> In (id s) order.
Proof.
  unfold mentioned. rewrite existsb_exists. split.
  - intros [i [Hin H]]. apply String.eqb_eq in H. congruence.
  - intros H. exists (id s). split; [exact H|]. apply String.eqb_refl.
Qed.

(** What [idTo.get] finds. *)
Lemma idTo_get_Some (store : Store) (i : string) (sh : Shape) :
  idTo_get store i = Some sh -> exists s, In s store /\ id s = i /\ shape s = sh.
Proof.
  unfold idTo_get. destruct (find (has_id i) (rev store)) as [s|] eqn:E; simpl; [|discriminate].
  intros H. inversion H; subst. apply find_some in E. destruct E as [Hin Hid].
  exists s. split; [apply in_rev; exact Hin|]. split; [apply has_id_true; exact Hid|reflexivity].
Qed.

Lemma idTo_get_None (store : Store) (i : string) :
  idTo_get store i = None <-> ~ In i (map id store).
Proof.
  unfold idTo_get. split.
  - intros H Hin. apply in_map_iff in Hin. destruct Hin as [s [Hid Hin]].
    destruct (find (has_id i) (rev store)) eqn:E; [discriminate|].
    apply in_rev in Hin. pose proof (find_none _ _ E s Hin) as Hno.
    apply has_id_true in Hid. congruence.
  - intros H. destruct (find (has_id i) (rev store)) as [s|] eqn:E; [|reflexivity].
    exfalso. apply H. apply find_some in E. destruct E as [Hin Hid].
    apply in_map_iff. exists s. split; [apply has_id_true; exact Hid|apply in_rev; exact Hin].
Qed.

(** The ids of the first part are the ids of [order] that the store knows. *)
Lemma ordered_part_ids (order : list string) (store : Store) (i : string) :
  In i (map id (ordered_part order store)) <-> In i order /\ In i (map id store).
Proof.
  unfold ordered_part. rewrite in_map_iff. split.
  - intros [e [Hid Hin]]. apply in_flat_map in Hin. destruct Hin as [j [Hj He]].
    destruct (idTo_get store j) as [sh|] eqn:E; [|contradiction].
    destruct He as [He|[]]. subst e. simpl in Hid. subst j. split; [exact Hj|].
    destruct (idTo_get_Some store i sh E) as [s [Hs [Hsid _]]].
    apply in_map_iff. exists s. auto.
  - intros [Hord Hst].
    destruct (idTo_get store i) as [sh|] eqn:E.
    + exists (mkStored i sh None). split; [reflexivity|].
      apply in_flat_map. exists i. split; [exact Hord|]. rewrite E. left. reflexivity.
    + apply idTo_get_None in E. contradiction.
Qed.


Lemma find_app_l {A : Type} (p : A -> bool) (l1 l2 : list A) :
  find p (l1 ++ l2) = match find p l1 with Some a => Some a | None => find p l2 end.
Proof.
  induction l1 as [|a l1 IH]; simpl; [reflexivity|]. destruct (p a); auto.
Qed.

Lemma filter_has_id_absent (i : string) (store : Store) :
  ~ In i (map id store) -> filter (has_id i) store = [].
Proof.
  intros H. induction store as [|s store IH]; simpl; [reflexivity|].
  destruct (has_id i s) eqn:E.
  - exfalso. apply H. left. apply has_id_true. exact E.
  - apply IH. intros Hin. apply H. right. exact Hin.
Qed.

(** With pairwise distinct ids, [idTo.get] finds the one entry of the id. *)
Lemma idTo_get_unique (store : Store) (i : string) :
  unique_ids store ->
  match idTo_get store i with Some sh => [mkStored i sh None] | None => [] end
  = map strip (filter (has_id i) store).
Proof.
  unfold unique_ids. induction store as [|s store IH]; intros Hnd; [reflexivity|].
  inversion Hnd as [|? ? Hnotin Hnd']; subst.
  unfold idTo_get in *. cbn [rev filter]. rewrite find_app_l.
  destruct (has_id i s) eqn:E.
  - apply has_id_true in E. subst i.
    rewrite (filter_has_id_absent (id s) store Hnotin).
    destruct (find (has_id (id s)) (rev store)) as [s'|] eqn:F.
    + exfalso. apply Hnotin. apply find_some in F. destruct F as [Hin Hid].
      apply has_id_true in Hid. rewrite <- Hid. apply in_map. apply in_rev. exact Hin.
    + cbn [find]. unfold has_id at 1. rewrite String.eqb_refl. reflexivity.
  - rewrite <- (IH Hnd').
    destruct (find (has_id i) (rev store)); [reflexivity|].
    cbn [find]. rewrite E. reflexivity.
Qed.

Lemma ordered_part_in_order_given (order : list string) (store : Store) :
  unique_ids store -> ordered_part order store = in_order_given order store.
Proof.
  intros Hu. unfold ordered_part, in_order_given.
  induction order as [|i order IH]; simpl; [reflexivity|].
  rewrite IH, (idTo_get_unique store i Hu). reflexivity.
Qed.

Lemma append_missing_filter (order : list string) (store : Store) :
  forall acc,
    unique_ids store ->
    (forall s, In s store -> existsb (has_id (id s)) acc = mentioned order s) ->
    append_missing acc store = acc ++ filter (fun s => negb (mentioned order s)) store.
Proof.
  unfold unique_ids, append_missing.
  induction store as [|s store IH]; intros acc Hnd Hacc; simpl.
  - symmetry. apply app_nil_r.
  - inversion Hnd as [|? ? Hnotin Hnd']; subst.
    rewrite (Hacc s (or_introl eq_refl)).
    destruct (mentioned order s) eqn:M; simpl.
    + apply IH; [exact Hnd'|]. intros s' Hs'. apply Hacc. right. exact Hs'.
    + rewrite IH; [rewrite <- app_assoc; reflexivity|exact Hnd'|].
      intros s' Hs'. rewrite existsb_app, (Hacc s' (or_intror Hs')). cbn [existsb].
      assert (Hne : has_id (id s') s = false).
      { destruct (has_id (id s') s) eqn:E; [|reflexivity].
        exfalso. apply Hnotin. apply has_id_true in E. rewrite E. apply in_map. exact Hs'. }
      rewrite Hne. rewrite !orb_false_r. reflexivity.
Qed.


(** The reorder of a store with pairwise distinct ids, as an equation. *)
Lemma applyRemoteReorder_eq_spec (order : list string) (store : Store) :
  unique_ids store -> applyRemoteReorder order store = reorder_spec order store.
Proof.
  intros Hu. unfold applyRemoteReorder, reorder_spec.
  rewrite <- (ordered_part_in_order_given order store Hu).
  apply append_missing_filter; [exact Hu|].
  intros s Hs. apply eq_true_iff_eq.
  rewrite existsb_has_id, ordered_part_ids, mentioned_true.
  split; [tauto|]. intros H. split; [exact H|apply in_map; exact Hs].
Qed.

(** C9, as the code has it (what a reorder does to the fields of an entry
    of a store with pairwise distinct ids).  For every store whose ids are
    pairwise distinct and every id list [order]: every stored entry whose id
    appears in [order] is found in the result rebuilt as [{ id, shape }],
    its [tempId] gone and its shape as it was; every stored entry whose id
    is absent from [order] is found in the result as it was, [tempId]
    included; and the result holds nothing else. *)
Theorem applyRemoteReorder_frame (order : list string) (store : Store) :
  unique_ids store ->
  Forall (fun s => In (if mentioned order s then strip s else s)
                      (applyRemoteReorder order store)) store
  /\ Forall (fun e => exists s, In s store
                                /\ e = (if mentioned order s then strip s else s))
            (applyRemoteReorder order store).
Proof.
  intros Hu. rewrite (applyRemoteReorder_eq_spec order store Hu).
  unfold reorder_spec, in_order_given. split.
  - apply Forall_forall. intros s Hs. apply in_or_app.
    destruct (mentioned order s) eqn:Em.
    + left. apply in_flat_map. exists (id s). split.
      * apply mentioned_true. exact Em.
      * apply in_map. apply filter_In. split; [exact Hs|].
        apply has_id_true. reflexivity.
    + right. apply filter_In. split; [exact Hs|]. rewrite Em. reflexivity.
  - apply Forall_forall. intros e He. apply in_app_or in He. destruct He as [He|He].
    + apply in_flat_map in He. destruct He as (i & Hi & He).
      apply in_map_iff in He. destruct He as (s & Es & Hs).
      apply filter_In in Hs. destruct Hs as [Hs Hid]. apply has_id_true in Hid.
      exists s. split; [exact Hs|].
      assert (Em : mentioned order s = true) by (apply mentioned_true; congruence).
      rewrite Em. symmetry. exact Es.
    + apply filter_In in He. destruct He as [He Hm]. apply negb_true_iff in Hm.
      exists e. split; [exact He|]. rewrite Hm. reflexivity.
Qed.

(** A store whose ids are pairwise distinct and whose entries carry their
    own id as [tempId], as every entry the session creates does, has at most
    one entry that answers to a temporary id. *)
Lemma wellformed_one_match (tid : option string) (store : Store) :
  unique_ids store ->
  Forall (fun s => forall t, tempId s = Some t -> t = id s) store ->
  (List.length (filter (matches_tempId tid) store) <= 1)%nat.
Proof.
  intros Hu Hwf. destruct tid as [t|]; [|].
  2:{ assert (E : filter (matches_tempId None) store = []) by (clear; induction store as [|a l IHl]; simpl; auto).
      rewrite E. simpl. lia. }
  assert (Hm : forall s, In s store -> matches_tempId (Some t) s = true -> id s = t).
  { intros s Hs Hm. unfold matches_tempId in Hm.
    apply andb_true_iff in Hm. destruct Hm as [_ Hm].
    apply orb_true_iff in Hm. destruct Hm as [Hm|Hm].
    - unfold has_tempId in Hm. destruct (tempId s) as [t'|] eqn:E; [|discriminate].
      apply String.eqb_eq in Hm. subst t'.
      rewrite Forall_forall in Hwf. symmetry. apply (Hwf s Hs t E).
    - apply has_id_true. exact Hm. }
  clear Hwf. unfold unique_ids in Hu.
  induction store as [|s store IH]; cbn [filter]; [simpl; lia|].
  inversion Hu as [|? ? Hnotin Hu']; subst.
  destruct (matches_tempId (Some t) s) eqn:E.
  - assert (Hs : id s = t) by (apply Hm; [left; reflexivity|exact E]).
    assert (Hrest : filter (matches_tempId (Some t)) store = []).
    { apply filter_none. apply forallb_forall. intros s' Hs'.
      destruct (matches_tempId (Some t) s') eqn:E'; [|reflexivity].
      exfalso. apply Hnotin. rewrite Hs, <- (Hm s' (or_intror Hs') E'). apply in_map. exact Hs'. }
    rewrite Hrest. simpl. lia.
  - apply IH; [exact Hu'|]. intros s' Hs'. apply Hm. right. exact Hs'.
Qed.

(** The remote delete and update and the move to the front keep the ids
    pairwise distinct. *)
Lemma applyRemoteDelete_unique (i : string) (store : Store) :
  unique_ids store -> unique_ids (applyRemoteDelete i store).
Proof.
  unfold unique_ids, applyRemoteDelete. induction store as [|s store IH]; simpl; intros H.
  - constructor.
  - inversion H as [|? ? Hnotin H']; subst.
    destruct (negb (has_id i s)); simpl; [|auto].
    constructor; [|auto].
    intros Hin. apply Hnotin. apply in_map_iff in Hin. destruct Hin as [x [Hx Hin]].
    apply filter_In in Hin. rewrite <- Hx. apply in_map. tauto.
Qed.

Lemma set_nth_ids (idx : nat) (sh : Shape) (store : Store) :
  map id (set_shape_at idx sh store) = map id store.
Proof.
  unfold set_shape_at. destruct (nth_error store idx) as [s|] eqn:E; [|reflexivity].
  revert idx E. induction store as [|a store IH]; intros idx E; [destruct idx; discriminate|].
  destruct idx; simpl in *.
  - inversion E; subst. reflexivity.
  - rewrite (IH idx E). reflexivity.
Qed.

Lemma applyRemoteUpdate_unique (i : string) (sh : Shape) (store : Store) :
  unique_ids store -> unique_ids (applyRemoteUpdate i sh store).
Proof.
  unfold unique_ids, applyRemoteUpdate. intros H.
  destruct (Js.findIndex (has_id i) store) as [idx|] eqn:E.
  - rewrite set_nth_ids. exact H.
  - rewrite map_app. simpl.
    apply (findIndex_None (has_id i)) in E.
    apply NoDup_app_remove_l with (l := []). simpl.
    apply Permutation_NoDup with (l := i :: map id store).
    + apply Permutation_cons_append.
    + constructor; [|exact H]. intros Hin. apply in_map_iff in Hin.
      destruct Hin as [s [Hs Hin]]. rewrite forallb_forall in E.
      specialize (E s Hin). apply has_id_true in Hs. rewrite Hs in E. discriminate.
Qed.

Lemma splice1_perm {A : Type} (idx : nat) (l : list A) :
  match Js.splice1 idx l with
  | (Some a, rest) => Permutation l (rest ++ [a])
  | (None, rest) => rest = l
  end.
Proof.
  revert idx. induction l as [|b l IH]; intros idx.
  - destruct idx; reflexivity.
  - destruct idx as [|idx]; [apply Permutation_cons_append|].
    specialize (IH idx). cbn [Js.splice1].
    destruct (Js.splice1 idx l) as [[a|] rest].
    + cbn. apply perm_skip. exact IH.
    + cbn. subst. reflexivity.
Qed.

Lemma move_to_end_perm (i : string) (store : Store) :
  Permutation store (move_to_end i store).
Proof.
  unfold move_to_end. destruct (Js.findIndex (has_id i) store) as [idx|]; [|reflexivity].
  pose proof (splice1_perm idx store) as H.
  destruct (Js.splice1 idx store) as [[a|] rest]; [exact H|subst; reflexivity].
Qed.

Lemma move_to_end_unique (i : string) (store : Store) :
  unique_ids store -> unique_ids (move_to_end i store).
Proof.
  unfold unique_ids. intros H.
  apply Permutation_NoDup with (l := map id store); [|exact H].
  apply Permutation_map. apply move_to_end_perm.
Qed.

End StoreFacts.

(** *** The store at concrete events *)

Module StoreCases.

Import Shapes Game Spec.
Open Scope string_scope.

(** C4 fails on the code: two rectangles whose gestures end in the same
    millisecond enter the store under the same id. *)
Theorem mouseUp_same_millisecond_same_id :
  let g0 := session_with tool_rect in
  let g1 := game (mouseUpHandler sqrt_approx measure_monospace tick (mouse_at 10 10) g0) in
  let g2 := game (mouseUpHandler sqrt_approx measure_monospace tick (mouse_at 30 20) g1) in
  map id (existingShapes g2) = ["pending-1700000000000"; "pending-1700000000000"]
  /\ ~ unique_ids (existingShapes g2).
Proof.
  split.
  - vm_compute. reflexivity.
  - intros H. unfold unique_ids in H.
    assert (E : map id
                  (existingShapes
                     (game (mouseUpHandler sqrt_approx measure_monospace tick (mouse_at 30 20)
                        (game (mouseUpHandler sqrt_approx measure_monospace tick
                                 (mouse_at 10 10) (session_with tool_rect))))))
                = ["pending-1700000000000"; "pending-1700000000000"])
      by (vm_compute; reflexivity).
    rewrite E in H. inversion H as [|? ? Hnotin _]. apply Hnotin. left. reflexivity.
Qed.

(** C5 fails as stated: on the store of two shapes drawn within one
    millisecond, the first application of the reconciliation replaces the
    first of the two entries and the second application replaces the other. *)
Lemma reconcile_twice_on_colliding_ids :
  let once := reconcile (Some (pending_id tick)) "42" shapeS colliding in
  let twice := reconcile (Some (pending_id tick)) "42" shapeS once in
  once = [mkStored "42" shapeS None; mkStored (pending_id tick) shapeB (Some (pending_id tick))]
  /\ twice = [mkStored "42" shapeS None; mkStored "42" shapeS None]
  /\ twice <> once.
Proof.
  split; [vm_compute; reflexivity|].
  split; [vm_compute; reflexivity|].
  vm_compute. intros H. discriminate H.
Qed.


(** C9 fails as stated on a store that holds an id twice.  [colliding]
    holds the shapes A and B under one pending id.  A reorder that names the
    id answers with one entry, which carries the shape of B: the entry of A
    is not rebuilt with its shape.  A reorder that names no id keeps the
    entry of A and drops the entry of B, although its id is absent from the
    order. *)
Lemma applyRemoteReorder_frame_on_colliding_ids :
  applyRemoteReorder [pending_id tick] colliding = [mkStored (pending_id tick) shapeB None]
  /\ In (mkStored (pending_id tick) shapeA (Some (pending_id tick))) colliding
  /\ ~ In (strip (mkStored (pending_id tick) shapeA (Some (pending_id tick))))
          (applyRemoteReorder [pending_id tick] colliding)
  /\ applyRemoteReorder [] colliding
     = [mkStored (pending_id tick) shapeA (Some (pending_id tick))]
  /\ In (mkStored (pending_id tick) shapeB (Some (pending_id tick))) colliding
  /\ ~ In (mkStored (pending_id tick) shapeB (Some (pending_id tick)))
          (applyRemoteReorder [] colliding).
Proof.
  assert (E1 : applyRemoteReorder [pending_id tick] colliding
               = [mkStored (pending_id tick) shapeB None]) by (vm_compute; reflexivity).
  assert (E2 : applyRemoteReorder [] colliding
               = [mkStored (pending_id tick) shapeA (Some (pending_id tick))])
    by (vm_compute; reflexivity).
  rewrite E1, E2.
  split; [reflexivity|].
  split; [left; reflexivity|].
  split; [intros [H|[]]; vm_compute in H; discriminate H|].
  split; [reflexivity|].
  split; [right; left; reflexivity|].
  intros [H|[]]. vm_compute in H. discriminate H.
Qed.

Lemma three_unique : unique_ids three.
Proof.
  unfold unique_ids. vm_compute.
  repeat constructor; simpl; intuition discriminate.
Defined.

(** C9 at work: the pending entry of [three] loses its [tempId] when the
    order mentions it, and keeps it when the order does not. *)
Example applyRemoteReorder_strips_tempId :
  applyRemoteReorder [pending_id tick; "1"] three
  = [mkStored (pending_id tick) shapeS None; mkStored "1" shapeA None; mkStored "2" shapeB None]
  /\ applyRemoteReorder ["2"; "1"] three
     = [mkStored "2" shapeB None; mkStored "1" shapeA None;
        mkStored (pending_id tick) shapeS (Some (pending_id tick))].
Proof.
  split; vm_compute; reflexivity.
Qed.

End StoreCases.

(** C5 as amended, at the reconciliation of the pending shape of
    [Spec.three]. *)
Lemma reconcile_idempotent_witness :
  Game.reconcile (Some (Game.pending_id Spec.tick)) "42" Spec.shapeS
    (Game.reconcile (Some (Game.pending_id Spec.tick)) "42" Spec.shapeS
       Spec.three)
  = Game.reconcile (Some (Game.pending_id Spec.tick)) "42" Spec.shapeS
      Spec.three.
Proof.
  apply (StoreFacts.reconcile_idempotent
           (Some (Game.pending_id Spec.tick)) "42" Spec.shapeS Spec.three).
  vm_compute. apply le_n.
Defined.


(** C9 as amended, at a reorder of [three] that names the pending entry and
    shape 1: both are rebuilt without [tempId], and shape 2 is kept. *)
Lemma applyRemoteReorder_frame_witness :
  Forall (fun s => In (if Spec.mentioned [Game.pending_id Spec.tick; "1"%string] s
                       then Spec.strip s else s)
                      (Game.applyRemoteReorder [Game.pending_id Spec.tick; "1"%string]
                         Spec.three))
         Spec.three
  /\ Forall (fun e => exists s,
                 In s Spec.three
                 /\ e = (if Spec.mentioned [Game.pending_id Spec.tick; "1"%string] s
                         then Spec.strip s else s))
            (Game.applyRemoteReorder [Game.pending_id Spec.tick; "1"%string] Spec.three).
Proof.
  apply (StoreFacts.applyRemoteReorder_frame [Game.pending_id Spec.tick; "1"%string]
           Spec.three).
  exact StoreCases.three_unique.
Defined.

(** ** The relay *)

Module RelayFacts.

Import Json Relay Spec.
Open Scope string_scope.

Section WithBuiltins.

Variable numberToString : Q -> string.
Variable parse : string -> option JsValue.

(** A [reorder] message meets no [case] of the switch of index.ts and no
    [if] of part_007: neither handler sends or stores anything for it. *)
Lemma dispatch_reorder (sender : nat) (uid : string) (roomId order : JsValue)
    (users : list User) :
  dispatch numberToString sender uid (reorder_message roomId order) users
  = finished users [].
Proof. reflexivity. Qed.

Lemma dispatch_part007_reorder (sender : nat) (uid : string) (roomId order : JsValue)
    (users : list User) :
  dispatch_part007 numberToString parse sender uid (reorder_message roomId order) users
  = finished users [].
Proof. reflexivity. Qed.



End WithBuiltins.

(** C1 fails on the code: for every room id, order list and registry, a
    [reorder] message makes neither variant of the relay send anything (nor
    ask anything of the database); with two connections joined to room 1,
    the broadcast the claim describes would have reached both. *)
Theorem reorder_is_not_broadcast
    (numberToString : Q -> string) (parse : string -> option JsValue)
    (sender : nat) (uid : string) (roomId order : JsValue) (users : list User) :
  dispatch numberToString sender uid (reorder_message roomId order) users
    = finished users []
  /\ dispatch_part007 numberToString parse sender uid (reorder_message roomId order) users
    = finished users []
  /\ calls_of (dispatch numberToString sender uid (reorder_message roomId order) users) = []
  /\ map fst (reorder_broadcast print_integer (JStr "1") order three_users) = [1; 3]%nat.
Proof.
  split; [apply dispatch_reorder|].
  split; [apply dispatch_part007_reorder|].
  split; [rewrite dispatch_reorder|]; reflexivity.
Qed.

(** C2 fails on index.ts: for every room id and registry, a [delete] whose
    id is the pending id of a client makes index.ts stop before its
    broadcast, while part_007 skips the database call and still broadcasts
    the delete to the room. *)
Theorem delete_of_pending_id_is_not_broadcast
    (numberToString : Q -> string) (parse : string -> option JsValue)
    (sender : nat) (uid : string) (roomId : JsValue) (users : list User) :
  let shapeId := JStr "pending-1700000000000" in
  dispatch numberToString sender uid (delete_message roomId shapeId) users
    = finished users []
  /\ dispatch_part007 numberToString parse sender uid (delete_message roomId shapeId) users
    = finished users
        (broadcastToRoom (ToString numberToString roomId) (delete_event roomId shapeId) users)
  /\ map fst (broadcastToRoom "1" (delete_event (JStr "1") shapeId) three_users) = [1; 3]%nat.
Proof.
  intros shapeId. split; [|split]; reflexivity.
Qed.



(** [Number] skips the white space of the language at both ends of a text,
    beyond ASCII as well: the id made of U+00A0 and [42] converts to 42, and
    index.ts asks the database to delete it.  White space inside the text,
    or a pending id, converts to [NaN]. *)
Example dispatch_delete_padded_id
    (numberToString : Q -> string) (sender : nat) (uid : string)
    (roomId : JsValue) (users : list User) :
  let padded := JStr (String (ascii_of_nat 194) (String (ascii_of_nat 160) "42")) in
  calls_of (dispatch numberToString sender uid (delete_message roomId padded) users)
    = [chat_delete padded]
  /\ Number_isNaN numberToString (JStr " 42 ") = false
  /\ Number_isNaN numberToString (JStr "4 2") = true
  /\ Number_isNaN numberToString (JStr "pending-42") = true.
Proof.
  intros padded. repeat split; reflexivity.
Qed.

End RelayFacts.

(** * Further properties of the code *)

(** ** Pencil strokes *)

Module StrokeFacts.
Import Shapes PencilTool Spec Notions.
Open Scope Q_scope.

Lemma subseq_refl (A : Type) (l : list A) : subseq l l.
Proof. induction l; [apply subseq_nil|apply subseq_take; assumption]. Qed.

Lemma subseq_nil_l (A : Type) (l : list A) : subseq [] l.
Proof. induction l; [apply subseq_nil|apply subseq_skip; assumption]. Qed.

Lemma subseq_app (A : Type) (l1 l1' l2 l2' : list A) :
  subseq l1 l1' -> subseq l2 l2' -> subseq (l1 ++ l2) (l1' ++ l2').
Proof.
  intros H1 H2. induction H1; simpl;
    [assumption|apply subseq_skip; assumption|apply subseq_take; assumption].
Qed.

Lemma subseq_length (A : Type) (l1 l2 : list A) :
  subseq l1 l2 -> (List.length l1 <= List.length l2)%nat.
Proof. induction 1; simpl; lia. Qed.

Lemma subseq_removelast (A : Type) (l : list A) (a : A) :
  forall s, subseq s (l ++ [a]) -> subseq (removelast s) l.
Proof.
  induction l as [|b l IH]; intros s H; simpl in H.
  - inversion H as [| ? ? ? H' | ? ? ? H']; subst; inversion H'; subst; apply subseq_nil.
  - inversion H as [| ? ? ? H' | ? s' ? H']; subst.
    + apply subseq_skip. apply IH. exact H'.
    + destruct s' as [|c s'].
      * simpl. apply subseq_nil_l.
      * change (removelast (b :: c :: s')) with (b :: removelast (c :: s')).
        apply subseq_take. apply IH. exact H'.
Qed.

Lemma firstn_succ_nth (A : Type) (d : A) (l : list A) (k : nat) :
  (k < List.length l)%nat -> firstn (k + 1) l = firstn k l ++ [nth k l d].
Proof.
  revert k. induction l as [|a l IH]; intros k Hk; simpl in Hk; [lia|].
  destruct k; simpl; [reflexivity|]. rewrite IH by lia. reflexivity.
Qed.

Lemma subseq_ends (A : Type) (d : A) (l : list A) :
  (2 <= List.length l)%nat -> subseq [nth 0 l d; last l d] l.
Proof.
  intros H. destruct l as [|a l]; [simpl in H; lia|].
  assert (Hne : l <> []) by (destruct l; [simpl in H; lia|discriminate]).
  change (last (a :: l) d) with (last ([a] ++ l) d).
  rewrite (PencilFacts.last_app_r A [a] l d Hne). simpl nth.
  apply subseq_take. rewrite (app_removelast_last d Hne) at 2.
  change [last l d] with ([] ++ [last l d]).
  apply subseq_app; [apply subseq_nil_l|apply subseq_refl].
Qed.

Section WithSqrt.
Variable sqrt : Q -> Q.

Lemma simplifyRDP_subseq (epsilon : Q) (fuel : nat) (points : list GlobalPoint) :
  match simplifyRDP sqrt fuel points epsilon with
  | Some out => subseq out points /\ (List.length out <= List.length points)%nat
  | None => True
  end.
Proof.
  revert points. induction fuel as [|fuel IH]; intros points; simpl.
  - destruct (List.length points <? 3)%nat; [|exact I].
    split; [apply subseq_refl|lia].
  - destruct (List.length points <? 3)%nat eqn:Hshort.
    + split; [apply subseq_refl|lia].
    + apply Nat.ltb_ge in Hshort.
      destruct (farthest sqrt points) as [index dmax] eqn:Hf.
      destruct (Js.ltb epsilon dmax).
      * pose proof (PencilFacts.farthest_inv sqrt points) as Hinv. rewrite Hf in Hinv.
        assert (Hidx : (index < List.length points)%nat).
        { destruct Hinv as [E|E]; [inversion E; lia|simpl in E; lia]. }
        pose proof (IH (firstn (index + 1) points)) as H1.
        pose proof (IH (skipn index points)) as H2.
        destruct (simplifyRDP sqrt fuel (firstn (index + 1) points) epsilon) as [rec1|];
          [|exact I].
        destruct (simplifyRDP sqrt fuel (skipn index points) epsilon) as [rec2|];
          [|exact I].
        destruct H1 as [H1 _]. destruct H2 as [H2 _].
        rewrite (firstn_succ_nth _ origin points index Hidx) in H1.
        apply subseq_removelast in H1.
        assert (Hs : subseq (removelast rec1 ++ rec2) points).
        { pose proof (subseq_app _ _ _ _ _ H1 H2) as Hs.
          rewrite firstn_skipn in Hs. exact Hs. }
        split; [exact Hs|apply subseq_length; exact Hs].
      * split; [apply subseq_ends; lia|simpl; lia].
Qed.

Lemma subseq_snoc_skip (A : Type) (s l : list A) (a : A) :
  subseq s l -> subseq s (l ++ [a]).
Proof.
  intros H. rewrite <- (app_nil_r s).
  apply subseq_app; [exact H|apply subseq_nil_l].
Qed.

Lemma spaced_snoc (l : list GlobalPoint) (q : GlobalPoint) :
  spaced sqrt l ->
  (l <> [] -> min_spacing < pointDistance sqrt (last l origin) q) ->
  spaced sqrt (l ++ [q]).
Proof.
  induction l as [|a l IH]; intros Hs Hd; [exact I|].
  destruct l as [|b l].
  - simpl. split; [|exact I]. apply Hd. discriminate.
  - change (spaced sqrt (a :: (b :: l) ++ [q])).
    destruct Hs as [Hab Hs]. split; [exact Hab|].
    apply IH; [exact Hs|]. intros _. apply Hd. discriminate.
Qed.

Lemma updateSmoothed_some (p : Pencil) :
  exists sm,
    updateSmoothed sqrt p = Some (mkPencil (points p) sm (strokeWidth p) (strokeColor p))
    /\ first_point sm = first_point (points p)
    /\ last_point sm = last_point (points p)
    /\ subseq sm (points p).
Proof.
  unfold updateSmoothed.
  destruct (List.length (points p) <? 2)%nat.
  - exists (points p). repeat split. apply subseq_refl.
  - destruct (PencilFacts.simplifyRDP_ends sqrt epsilon_tuned) with
      (fuel := List.length (points p)) (points := points p)
      as [out [E [Hf [Hl _]]]].
    + unfold epsilon_tuned, Qle. simpl. lia.
    + lia.
    + pose proof (simplifyRDP_subseq epsilon_tuned (List.length (points p)) (points p))
        as Hsub.
      rewrite E in Hsub. rewrite E. exists out. repeat split; tauto.
Qed.

Lemma addPoint_inv (w : Q) (c : string) (first q : GlobalPoint)
    (seen : list GlobalPoint) (p : Pencil) :
  stroke_inv sqrt w c first seen p ->
  exists p', addPoint sqrt (fst q) (snd q) p = Some p'
             /\ stroke_inv sqrt w c first (seen ++ [q]) p'.
Proof.
  intros (Hf & Hs & Hsub & Hsm & Hpf & Hpl & Hw & Hc).
  unfold addPoint, point. rewrite <- (surjective_pairing q).
  destruct (points p) as [|a l] eqn:Ep; [discriminate|].
  destruct (Js.ltb min_spacing (pointDistance sqrt (last (a :: l) origin) q)) eqn:Hd.
  - destruct (updateSmoothed_some
                (mkPencil ((a :: l) ++ [q]) (smoothed p) (strokeWidth p) (strokeColor p)))
      as (sm & E & Hsf & Hsl & Hss).
    cbn [points strokeWidth strokeColor] in E, Hsf, Hsl, Hss.
    rewrite E. eexists. split; [reflexivity|].
    unfold stroke_inv, getPath. cbn [points smoothed strokeWidth strokeColor].
    repeat split; try assumption.
    + apply spaced_snoc; [exact Hs|]. intros _. apply ResizeFacts.ltb_true. exact Hd.
    + apply subseq_app; [exact Hsub|apply subseq_refl].
    + rewrite Hsf. exact Hf.
  - exists p. split; [reflexivity|].
    unfold stroke_inv. rewrite Ep.
    repeat split; try assumption.
    apply subseq_snoc_skip. exact Hsub.
Qed.

Lemma stroke_snoc (w : Q) (c : string) (coords : list GlobalPoint) (q : GlobalPoint) :
  stroke sqrt w c (coords ++ [q])
  = match stroke sqrt w c coords with
    | Some p => addPoint sqrt (fst q) (snd q) p
    | None => None
    end.
Proof. unfold stroke. rewrite fold_left_app. reflexivity. Qed.

Lemma stroke_holds_inv (w : Q) (c : string) (first : GlobalPoint) (rest : list GlobalPoint) :
  exists p, stroke sqrt w c (first :: rest) = Some p
            /\ stroke_inv sqrt w c first (first :: rest) p.
Proof.
  induction rest as [|q rest IH] using rev_ind.
  - destruct first as [x y]. eexists. split; [reflexivity|].
    unfold stroke_inv, getPath. cbn.
    repeat split; try reflexivity; apply subseq_refl.
  - destruct IH as (p & E & Hinv).
    change (first :: rest ++ [q]) with ((first :: rest) ++ [q]).
    rewrite stroke_snoc, E. apply addPoint_inv. exact Hinv.
Qed.

End WithSqrt.

(** [simplifyRDP] invents no point and reorders none: what it returns is
    the input with some points left out, so every point of the result is a
    point of the input and the result is never longer than the input. *)
Theorem simplifyRDP_subsequence
    (sqrt : Q -> Q) (epsilon : Q) (fuel : nat) (points : list GlobalPoint) :
  match simplifyRDP sqrt fuel points epsilon with
  | Some out =>
      subseq out points
      /\ (forall q, In q out -> In q points)
      /\ (List.length out <= List.length points)%nat
  | None => True
  end.
Proof.
  pose proof (simplifyRDP_subseq sqrt epsilon fuel points) as H.
  destruct (simplifyRDP sqrt fuel points epsilon) as [out|]; [|exact I].
  destruct H as [Hsub Hlen]. split; [exact Hsub|]. split; [|exact Hlen].
  clear Hlen. induction Hsub as [|a l1 l2 _ IH|a l1 l2 _ IH]; intros q Hq.
  - exact Hq.
  - right. apply IH. exact Hq.
  - destruct Hq as [Hq|Hq]; [left; exact Hq|right; apply IH; exact Hq].
Qed.

(** A stroke always yields a pencil.  Its recorded points begin with the
    first pointer position, are taken from the pointer positions in their
    order, and each lies farther than the minimum spacing from the one
    recorded before it; the path it hands out is taken from the recorded
    points in their order and has their first and last point; the stroke
    width and colour are those the pencil was made with. *)
Theorem stroke_records_spaced_points
    (sqrt : Q -> Q) (w : Q) (c : string) (first : GlobalPoint) (rest : list GlobalPoint) :
  exists p,
    stroke sqrt w c (first :: rest) = Some p
    /\ first_point (points p) = Some first
    /\ spaced sqrt (points p)
    /\ subseq (points p) (first :: rest)
    /\ subseq (getPath p) (points p)
    /\ first_point (getPath p) = Some first
    /\ last_point (getPath p) = last_point (points p)
    /\ strokeWidth p = w
    /\ strokeColor p = c.
Proof. apply (stroke_holds_inv sqrt w c first rest). Qed.

End StrokeFacts.

(** ** Panning with the pointer *)

Module ViewFacts.

Import Shapes Game Input Spec Notions.
Open Scope Q_scope.

Section WithBuiltins.

Variable sqrt : Q -> Q.
Variable measureText : Q -> string -> string -> Q.

(** [mouseMoveHandler] during a pan. *)
Lemma mouseMove_pans (ev : MouseEvent) (s : Session) :
  isPanning (core s) = true ->
  mouseMoveHandler sqrt ev s
  = Some (with_core
            (with_camera
               (fst (cameraStart s) - (fst (screen_of ev) - fst (panStart s)) / zoom (core s))
               (snd (cameraStart s) - (snd (screen_of ev) - snd (panStart s)) / zoom (core s))
               (zoom (core s)) (core s))
            s).
Proof. intros Hp. unfold mouseMoveHandler. rewrite Hp. reflexivity. Qed.

Lemma run_moves_app (l1 l2 : list MouseEvent) (s : Session) :
  run_moves sqrt (l1 ++ l2) s
  = match run_moves sqrt l1 s with
    | Some s' => run_moves sqrt l2 s'
    | None => None
    end.
Proof.
  revert s. induction l1 as [|ev l1 IH]; intros s; [reflexivity|].
  cbn [app run_moves]. destruct (mouseMoveHandler sqrt ev s); [apply IH|reflexivity].
Qed.

Lemma run_moves_pans (s1 : Session) (moves : list MouseEvent) :
  isPanning (core s1) = true ->
  forall s, same_but_camera s1 s ->
    exists s', run_moves sqrt moves s = Some s' /\ same_but_camera s1 s'.
Proof.
  intros Hp. induction moves as [|ev moves IH]; intros s Hs.
  - exists s. split; [reflexivity|exact Hs].
  - destruct Hs as (Hsp & Hps & Hcs & Hae & Hip & Hz & Hc).
    cbn [run_moves]. rewrite mouseMove_pans by congruence.
    apply IH. unfold same_but_camera.
    cbn [with_core spacePressed panStart cameraStart activeEraser core].
    split; [exact Hsp|]. split; [exact Hps|]. split; [exact Hcs|]. split; [exact Hae|].
    split; [exact Hip|]. split; [exact Hz|].
    intros x y z. rewrite <- (Hc x y z). reflexivity.
Qed.

(** A pan gesture (the middle button, or any button while the space bar is
    held) gathers no drift.  The press sends nothing.  However the pointer
    wandered in between, the session after the last move is the session
    that this one move alone gives: the camera is computed from the camera
    and the pointer as they were at the press and from the pointer as it is
    now, by the very expression of the handler, and the zoom, the store and
    the tool are those of the press.  The release ends the pan and sends
    nothing. *)
Theorem pan_gesture_has_no_drift
    (button : Z) (now : Z) (down last up : MouseEvent) (moves : list MouseEvent)
    (s : Session) :
  (button =? 1)%Z || spacePressed s = true ->
  exists s1 s2,
    mouseDownHandler sqrt button down s = Some (s1, [])
    /\ run_moves sqrt (moves ++ [last]) s1 = Some s2
    /\ mouseMoveHandler sqrt last s1 = Some s2
    /\ cameraX (core s2)
       = cameraX (core s) - (fst (screen_of last) - fst (screen_of down)) / zoom (core s)
    /\ cameraY (core s2)
       = cameraY (core s) - (snd (screen_of last) - snd (screen_of down)) / zoom (core s)
    /\ zoom (core s2) = zoom (core s)
    /\ existingShapes (core s2) = existingShapes (core s)
    /\ selectedTool (core s2) = selectedTool (core s)
    /\ sent (mouseUpHandler sqrt measureText now up (core s2)) = []
    /\ isPanning (game (mouseUpHandler sqrt measureText now up (core s2))) = false
    /\ existingShapes (game (mouseUpHandler sqrt measureText now up (core s2)))
       = existingShapes (core s).
Proof.
  intros Hpan. unfold mouseDownHandler. rewrite Hpan. fold (screen_of down).
  set (s1 := mkSession (with_isPanning true (core s)) (spacePressed s) (screen_of down)
                       (cameraX (core s), cameraY (core s)) (activeEraser s)).
  assert (Hp1 : isPanning (core s1) = true) by reflexivity.
  assert (H1 : same_but_camera s1 s1) by (repeat split).
  destruct (run_moves_pans s1 moves Hp1 s1 H1) as (sk & Ek & Hk).
  destruct Hk as (Hsp & Hps & Hcs & Hae & Hip & Hz & Hc).
  assert (Elast : mouseMoveHandler sqrt last sk = mouseMoveHandler sqrt last s1).
  { rewrite !mouseMove_pans by congruence.
    rewrite Hps, Hcs, Hz. unfold with_core. rewrite Hsp, Hps, Hcs, Hae, Hc. reflexivity. }
  exists s1. eexists.
  split; [reflexivity|].
  split; [rewrite run_moves_app, Ek; cbn [run_moves]; rewrite Elast,
            (mouseMove_pans last s1 Hp1); reflexivity|].
  split; [apply mouseMove_pans; exact Hp1|].
  repeat split.
Qed.

End WithBuiltins.

End ViewFacts.

(** ** Handles and hit-testing *)

Module HandleFacts.
Import Shapes Spec Notions.
Open Scope Q_scope.






Section WithSqrt.
Variable sqrt : Q -> Q.

Lemma hit_of_id (x y : Q) (s : StoredShape) (h : Select.Hit) :
  Select.hit_of sqrt x y s = Some h ->
  Select.hit_id h = Some (id s)
  /\ (Select.hit_part h = Select.part_handle \/ Select.hit_part h = Select.part_inside).
Proof.
  unfold Select.hit_of. intros H.
  destruct (handle_at _ x y _).
  - inversion H; subst. cbn. auto.
  - destruct (Select.pointInShape _ _ _ _ _); inversion H; subst. cbn. auto.
Qed.

Lemma first_hit_found (x y : Q) (top_down : list StoredShape) :
  (exists above s below,
      top_down = above ++ s :: below
      /\ Forall (fun t => Select.hit_of sqrt x y t = None) above
      /\ Select.hit_of sqrt x y s = Some (Select.first_hit sqrt x y top_down))
  \/ (Forall (fun t => Select.hit_of sqrt x y t = None) top_down
      /\ Select.first_hit sqrt x y top_down = Select.mkHit None Select.part_none None).
Proof.
  induction top_down as [|s l IH].
  - right. split; [constructor|reflexivity].
  - cbn [Select.first_hit]. destruct (Select.hit_of sqrt x y s) as [h|] eqn:E.
    + left. exists [], s, l. repeat split; [constructor|exact E].
    + destruct IH as [(above & t & below & El & Ha & Ht)|[Hall Hn]].
      * left. exists (s :: above), t, below. subst l. repeat split.
        -- constructor; assumption.
        -- exact Ht.
      * right. split; [constructor; assumption|exact Hn].
Qed.

(** [findAt] answers with the topmost stored shape that the pointer hits:
    either the store splits into the shapes below, the shape hit and the
    shapes above, none of which is hit, and the answer carries the id of
    the shape hit and the part [handle] or [inside]; or no stored shape is
    hit and the answer is no id, part [none]. *)
Theorem findAt_topmost (x y : Q) (stored : list StoredShape) :
  (exists below s above,
      stored = below ++ s :: above
      /\ Forall (fun t => Select.hit_of sqrt x y t = None) above
      /\ Select.hit_of sqrt x y s = Some (Select.findAt sqrt x y stored)
      /\ Select.hit_id (Select.findAt sqrt x y stored) = Some (id s)
      /\ (Select.hit_part (Select.findAt sqrt x y stored) = Select.part_handle
          \/ Select.hit_part (Select.findAt sqrt x y stored) = Select.part_inside))
  \/ (Forall (fun t => Select.hit_of sqrt x y t = None) stored
      /\ Select.findAt sqrt x y stored = Select.mkHit None Select.part_none None).
Proof.
  unfold Select.findAt.
  destruct (first_hit_found x y (rev stored)) as [(above & s & below & El & Ha & Hs)|[Hall Hn]].
  - left. exists (rev below), s, (rev above).
    destruct (hit_of_id x y s _ Hs) as [Hid Hpart].
    repeat split; try assumption.
    + rewrite <- (rev_involutive stored), El, rev_app_distr. cbn [rev].
      rewrite <- app_assoc. reflexivity.
    + apply Forall_rev. exact Ha.
  - right. split; [|exact Hn].
    rewrite <- (rev_involutive stored). apply Forall_rev. exact Hall.
Qed.

End WithSqrt.

End HandleFacts.

(** ** What the messages of the relay do to the store *)

Module StoreEdits.

Import Shapes Game Input Spec Notions.

Lemma not_in_ids (i : string) (l : Store) :
  forallb (fun a => negb (has_id i a)) l = true <-> ~ In i (map id l).
Proof.
  induction l as [|a l IH]; simpl.
  - tauto.
  - rewrite andb_true_iff, IH, negb_true_iff.
    unfold has_id. split.
    + intros [Hn Hl] [E|E]; [|tauto]. rewrite E, String.eqb_refl in Hn. discriminate.
    + intros H. split; [|tauto].
      destruct (String.eqb (id a) i) eqn:E; [|reflexivity].
      apply String.eqb_eq in E. tauto.
Qed.

(** The first entry with a given id splits the store. *)
Lemma first_with_id (i : string) (store : Store) :
  (exists l1 a l2,
      store = l1 ++ a :: l2 /\ id a = i /\ ~ In i (map id l1)
      /\ Js.findIndex (has_id i) store = Some (List.length l1))
  \/ (~ In i (map id store) /\ Js.findIndex (has_id i) store = None).
Proof.
  destruct (Js.findIndex (has_id i) store) as [idx|] eqn:E.
  - left. destruct (StoreFacts.findIndex_Some _ _ _ E) as (l1 & a & l2 & Es & El & Ha & Hl1).
    exists l1, a, l2. repeat split.
    + exact Es.
    + apply StoreFacts.has_id_true. exact Ha.
    + apply not_in_ids. exact Hl1.
    + rewrite El. reflexivity.
  - right. split; [|reflexivity]. apply not_in_ids. apply StoreFacts.findIndex_None. exact E.
Qed.

Lemma set_shape_at_middle (l1 l2 : Store) (a : StoredShape) (sh : Shape) :
  set_shape_at (List.length l1) sh (l1 ++ a :: l2) = l1 ++ set_shape sh a :: l2.
Proof.
  unfold set_shape_at. rewrite nth_error_app2 by lia. rewrite Nat.sub_diag. cbn [nth_error].
  apply StoreFacts.set_nth_middle.
Qed.

Lemma splice1_middle (A : Type) (l1 l2 : list A) (a : A) :
  Js.splice1 (List.length l1) (l1 ++ a :: l2) = (Some a, l1 ++ l2).
Proof.
  induction l1 as [|b l1 IH]; [reflexivity|].
  cbn [List.length app Js.splice1]. rewrite IH. reflexivity.
Qed.

Lemma find_skip (i : string) (l1 l2 : Store) :
  ~ In i (map id l1) -> find (has_id i) (l1 ++ l2) = find (has_id i) l2.
Proof.
  intros H. rewrite StoreFacts.find_app_l.
  destruct (find (has_id i) l1) as [t|] eqn:E; [|reflexivity].
  apply find_some in E. destruct E as [Hin Ht]. apply StoreFacts.has_id_true in Ht.
  exfalso. apply H. rewrite <- Ht. apply in_map. exact Hin.
Qed.

Lemma applyRemoteUpdate_split (i : string) (sh : Shape) (store : Store) :
  (exists l1 a l2,
      store = l1 ++ a :: l2 /\ id a = i /\ ~ In i (map id l1)
      /\ applyRemoteUpdate i sh store = l1 ++ mkStored i sh (tempId a) :: l2)
  \/ (~ In i (map id store) /\ applyRemoteUpdate i sh store = store ++ [mkStored i sh None]).
Proof.
  unfold applyRemoteUpdate.
  destruct (first_with_id i store) as [(l1 & a & l2 & Es & Ha & Hl1 & Ef)|[Hn Ef]]; rewrite Ef.
  - left. exists l1, a, l2. repeat split; try assumption.
    rewrite Es, set_shape_at_middle. unfold set_shape. rewrite Ha. reflexivity.
  - right. split; [exact Hn|reflexivity].
Qed.

(** An [update] from the relay replaces the shape of the first stored entry
    with the id and touches nothing else: the entries before and after it,
    their order, and the id and [tempId] of the entry itself; when no entry
    has the id, the shape is appended under it.  Either way the first entry
    with the id carries the new shape afterwards, and a second identical
    [update] changes nothing. *)
Theorem applyRemoteUpdate_replaces_first (i : string) (sh : Shape) (store : Store) :
  ((exists l1 a l2,
       store = l1 ++ a :: l2 /\ id a = i /\ ~ In i (map id l1)
       /\ applyRemoteUpdate i sh store = l1 ++ mkStored i sh (tempId a) :: l2)
   \/ (~ In i (map id store) /\ applyRemoteUpdate i sh store = store ++ [mkStored i sh None]))
  /\ option_map shape (find (has_id i) (applyRemoteUpdate i sh store)) = Some sh
  /\ applyRemoteUpdate i sh (applyRemoteUpdate i sh store) = applyRemoteUpdate i sh store.
Proof.
  split; [apply applyRemoteUpdate_split|].
  assert (Hfind : forall (l1 l2 : Store) t, ~ In i (map id l1) ->
            find (has_id i) (l1 ++ mkStored i sh t :: l2) = Some (mkStored i sh t)).
  { intros l1 l2 t Hl1. rewrite find_skip by exact Hl1.
    cbn [find]. unfold has_id at 1. cbn [id]. rewrite String.eqb_refl. reflexivity. }
  assert (Hidx : forall (l1 l2 : Store) t, ~ In i (map id l1) ->
            Js.findIndex (has_id i) (l1 ++ mkStored i sh t :: l2) = Some (List.length l1)).
  { intros l1 l2 t Hl1. rewrite StoreFacts.findIndex_app_skip by (apply not_in_ids; exact Hl1).
    cbn [Js.findIndex]. unfold has_id at 1. cbn [id]. rewrite String.eqb_refl.
    cbn [option_map]. rewrite Nat.add_0_r. reflexivity. }
  destruct (applyRemoteUpdate_split i sh store)
    as [(l1 & a & l2 & Es & Ha & Hl1 & E)|[Hn E]]; rewrite E.
  - split.
    + rewrite Hfind by exact Hl1. reflexivity.
    + unfold applyRemoteUpdate. rewrite Hidx by exact Hl1. apply set_shape_at_middle.
  - split.
    + rewrite Hfind by exact Hn. reflexivity.
    + unfold applyRemoteUpdate. rewrite Hidx by exact Hn. apply set_shape_at_middle.
Qed.

Lemma applyRemoteDelete_in (i : string) (store : Store) (s : StoredShape) :
  In s (applyRemoteDelete i store) <-> In s store /\ id s <> i.
Proof.
  unfold applyRemoteDelete. rewrite filter_In, negb_true_iff.
  split; intros [H1 H2]; split; try exact H1.
  - intros E. apply StoreFacts.has_id_true in E. congruence.
  - destruct (has_id i s) eqn:E; [|reflexivity].
    apply StoreFacts.has_id_true in E. contradiction.
Qed.

Lemma filter_subseq (A : Type) (p : A -> bool) (l : list A) : subseq (filter p l) l.
Proof.
  induction l as [|a l IH]; cbn [filter]; [apply subseq_nil|].
  destruct (p a); [apply subseq_take|apply subseq_skip]; exact IH.
Qed.

Lemma filter_idem (A : Type) (p : A -> bool) (l : list A) :
  filter p (filter p l) = filter p l.
Proof.
  induction l as [|a l IH]; cbn [filter]; [reflexivity|].
  destruct (p a) eqn:E; [|exact IH]. cbn [filter]. rewrite E, IH. reflexivity.
Qed.

Lemma applyRemoteDelete_not_in (i : string) (store : Store) :
  ~ In i (map id (applyRemoteDelete i store)).
Proof.
  intros H. apply in_map_iff in H. destruct H as (s & Hid & Hin).
  apply applyRemoteDelete_in in Hin. tauto.
Qed.

(** A [delete] from the relay removes every entry with the id and nothing
    else: what is left are the other entries, in their order; no id of the
    result is the deleted one; a second identical [delete] changes
    nothing. *)
Theorem applyRemoteDelete_removes_id (i : string) (store : Store) :
  (forall s, In s (applyRemoteDelete i store) <-> In s store /\ id s <> i)
  /\ subseq (applyRemoteDelete i store) store
  /\ ~ In i (map id (applyRemoteDelete i store))
  /\ applyRemoteDelete i (applyRemoteDelete i store) = applyRemoteDelete i store.
Proof.
  split; [intros s; apply applyRemoteDelete_in|].
  split; [apply filter_subseq|]. split.
  - apply applyRemoteDelete_not_in.
  - apply filter_idem.
Qed.

Lemma pending_id_truthy (now : Z) : Js.truthy_string (pending_id now) = true.
Proof. reflexivity. Qed.

(** The acknowledgement of a pending shape takes its place: when the relay
    answers a creation with the durable id and echoes the pending id as
    [tempId], the pending entry is replaced where it stands, whatever was
    stored after it in the meantime, provided no earlier entry answers to
    the pending id. *)
Theorem reconcile_replaces_pending_in_place
    (now : Z) (sh0 sh : Shape) (serverId : string) (l1 l2 : Store) :
  Forall (fun s => matches_tempId (Some (pending_id now)) s = false) l1 ->
  reconcile (Some (pending_id now)) serverId sh (addPending now sh0 l1 ++ l2)
  = l1 ++ mkStored serverId sh None :: l2.
Proof.
  intros Hl1. unfold reconcile, addPending. rewrite pending_id_truthy.
  rewrite <- app_assoc. cbn [app].
  rewrite StoreFacts.findIndex_app_skip.
  - cbn [Js.findIndex]. unfold has_tempId at 1. cbn [tempId].
    rewrite String.eqb_refl. cbn [orb option_map]. rewrite Nat.add_0_r.
    apply StoreFacts.set_nth_middle.
  - apply forallb_forall. intros s Hs. rewrite Forall_forall in Hl1.
    specialize (Hl1 s Hs). unfold matches_tempId in Hl1.
    rewrite pending_id_truthy in Hl1. cbn [andb] in Hl1. rewrite Hl1. reflexivity.
Qed.

(** [bringToFront] moves the first entry with the id behind all the others,
    keeps the others in their order and announces the new order of ids to
    the relay; when no entry has the id it changes nothing and sends
    nothing. *)
Theorem bringToFront_moves_last (i : string) (g : Game) :
  (exists l1 a l2,
      existingShapes g = l1 ++ a :: l2 /\ id a = i /\ ~ In i (map id l1)
      /\ existingShapes (fst (bringToFront i g)) = l1 ++ l2 ++ [a]
      /\ snd (bringToFront i g)
         = [send_reorder (map id (l1 ++ l2 ++ [a])) (roomId g)])
  \/ (~ In i (map id (existingShapes g)) /\ bringToFront i g = (g, [])).
Proof.
  unfold bringToFront, move_to_end.
  destruct (first_with_id i (existingShapes g))
    as [(l1 & a & l2 & Es & Ha & Hl1 & Ef)|[Hn Ef]]; rewrite Ef.
  - left. exists l1, a, l2. repeat split; try assumption.
    + cbn [fst existingShapes with_existingShapes]. rewrite Es, splice1_middle.
      rewrite <- app_assoc. reflexivity.
    + cbn [snd]. unfold sendReorder. cbn [existingShapes with_existingShapes roomId].
      rewrite Es, splice1_middle. rewrite <- app_assoc. reflexivity.
  - right. split; [exact Hn|reflexivity].
Qed.

Lemma unique_ids_filter (keep : StoredShape -> bool) (store : Store) :
  unique_ids store -> unique_ids (filter keep store).
Proof.
  unfold unique_ids. induction store as [|s store IH]; intros Hu; [constructor|].
  cbn [map] in Hu. apply NoDup_cons_iff in Hu. destruct Hu as [Hs Hu].
  cbn [filter]. destruct (keep s); [|apply IH; exact Hu].
  cbn [map]. constructor; [|apply IH; exact Hu].
  intros Hin. apply Hs. apply in_map_iff in Hin. destruct Hin as (x & Ex & Hx).
  apply filter_In in Hx. apply in_map_iff. exists x. tauto.
Qed.

Lemma NoDup_middle (A : Type) (a : A) (l1 l2 : list A) :
  NoDup (l1 ++ l2) -> ~ In a (l1 ++ l2) -> NoDup (l1 ++ a :: l2).
Proof.
  intros Hn Ha. apply (Permutation_NoDup (l := a :: l1 ++ l2)).
  - apply Permutation_middle.
  - constructor; assumption.
Qed.

Lemma reconcile_unique (t : option string) (serverId : string) (sh : Shape) (store : Store) :
  unique_ids store -> ~ In serverId (map id store) ->
  unique_ids (reconcile t serverId sh store).
Proof.
  intros Hu Hfresh.
  assert (Hins : unique_ids (if existsb (has_id serverId) store then store
                             else store ++ [mkStored serverId sh None])).
  { destruct (existsb (has_id serverId) store); [exact Hu|].
    unfold unique_ids. rewrite map_app. cbn [map id].
    apply NoDup_middle; rewrite app_nil_r; assumption. }
  unfold reconcile. destruct t as [t|]; [|exact Hins].
  destruct (Js.truthy_string t); [|exact Hins].
  destruct (Js.findIndex _ store) as [idx|] eqn:E; [|exact Hins].
  destruct (StoreFacts.findIndex_Some _ _ _ E) as (l1 & a & l2 & Es & El & _ & _).
  subst store idx. rewrite StoreFacts.set_nth_middle.
  unfold unique_ids in *. rewrite map_app in *. cbn [map id] in *.
  apply NoDup_remove in Hu. destruct Hu as [Hu _].
  apply NoDup_middle; [exact Hu|].
  intros Hin. apply Hfresh. apply in_app_or in Hin. apply in_or_app.
  destruct Hin; [left|right; right]; assumption.
Qed.

Lemma map_id_strip (l : Store) : map id (map strip l) = map id l.
Proof. rewrite map_map. reflexivity. Qed.

Lemma in_order_given_ids (order : list string) (store : Store) (i : string) :
  In i (map id (in_order_given order store)) -> In i order.
Proof.
  unfold in_order_given. intros H. apply in_map_iff in H. destruct H as (s & Es & Hs).
  apply in_flat_map in Hs. destruct Hs as (j & Hj & Hs).
  apply in_map_iff in Hs. destruct Hs as (s0 & E0 & Hs0).
  apply filter_In in Hs0. destruct Hs0 as [_ Hs0]. apply StoreFacts.has_id_true in Hs0.
  subst s. cbn [strip id] in Es. congruence.
Qed.

Lemma in_order_given_unique (order : list string) (store : Store) :
  unique_ids store -> NoDup order -> unique_ids (in_order_given order store).
Proof.
  intros Hu. unfold unique_ids. induction order as [|i o IH]; intros Ho.
  - constructor.
  - apply NoDup_cons_iff in Ho. destruct Ho as [Hi Ho].
    change (in_order_given (i :: o) store)
      with (map strip (filter (has_id i) store) ++ in_order_given o store).
    rewrite map_app, map_id_strip. apply NoDup_app.
    + apply unique_ids_filter. exact Hu.
    + apply IH. exact Ho.
    + intros a Ha Hb. apply in_order_given_ids in Hb.
      apply in_map_iff in Ha. destruct Ha as (s & Es & Hs).
      apply filter_In in Hs. destruct Hs as [_ Hs]. apply StoreFacts.has_id_true in Hs.
      congruence.
Qed.

Lemma applyRemoteReorder_unique (order : list string) (store : Store) :
  unique_ids store -> NoDup order -> unique_ids (applyRemoteReorder order store).
Proof.
  intros Hu Ho.
  pose proof (StoreFacts.applyRemoteReorder_eq_spec order store Hu) as E.
  rewrite E. unfold reorder_spec, unique_ids. rewrite map_app. apply NoDup_app.
  - apply in_order_given_unique; assumption.
  - apply unique_ids_filter. exact Hu.
  - intros a Ha Hb. apply in_order_given_ids in Ha.
    apply in_map_iff in Hb. destruct Hb as (s & Es & Hs).
    apply filter_In in Hs. destruct Hs as [_ Hs]. apply negb_true_iff in Hs.
    assert (Hm : mentioned order s = true) by (apply StoreFacts.mentioned_true; congruence).
    congruence.
Qed.

Section WithBuiltins.

Variable numberToString : Q -> string.

(** A message from the relay keeps the ids of the store pairwise distinct,
    provided a [chat] brings an id that is not stored yet and a [reorder]
    names no id twice; [delete], [update] and any other message need no
    condition. *)
Theorem onmessage_keeps_ids_unique (m : IncomingMessage) (g : Game) :
  unique_ids (existingShapes g) ->
  admissible numberToString m (existingShapes g) ->
  unique_ids (existingShapes (onmessage numberToString m g)).
Proof.
  intros Hu Hm. destruct m as [i sh t|i|order|i sh|ty]; cbn [onmessage admissible] in *.
  - cbn [existingShapes with_existingShapes]. apply reconcile_unique; assumption.
  - match goal with |- context [if ?c then _ else _] => destruct c end;
      cbn [existingShapes with_existingShapes with_selection clearSelection];
      apply StoreFacts.applyRemoteDelete_unique; exact Hu.
  - cbn [existingShapes with_existingShapes]. apply applyRemoteReorder_unique; assumption.
  - cbn [existingShapes with_existingShapes]. apply StoreFacts.applyRemoteUpdate_unique.
    exact Hu.
  - exact Hu.
Qed.

End WithBuiltins.

End StoreEdits.

(** ** Gestures: press, move, release *)

Module GestureFacts.

Import Shapes Game Input Spec Notions.
Open Scope Q_scope.

Lemma find_has_id_of_in (i : string) (store : Store) (s : StoredShape) :
  In s store -> id s = i -> exists t, find (has_id i) store = Some t /\ id t = i.
Proof.
  intros Hin Hid. destruct (find (has_id i) store) as [t|] eqn:E.
  - exists t. split; [reflexivity|]. apply find_some in E. destruct E as [_ E].
    unfold has_id in E. apply String.eqb_eq in E. exact E.
  - pose proof (find_none _ _ E s Hin) as Hn. unfold has_id in Hn.
    rewrite Hid, String.eqb_refl in Hn. discriminate.
Qed.

Section WithBuiltins.

Variable sqrt : Q -> Q.
Variable measureText : Q -> string -> string -> Q.

Lemma findAt_hit_stored (x y : Q) (store : Store) (i : string) :
  Select.hit_id (Select.findAt sqrt x y store) = Some i ->
  (exists s, In s store /\ id s = i)
  /\ (Select.hit_part (Select.findAt sqrt x y store) = Select.part_handle
      \/ Select.hit_part (Select.findAt sqrt x y store) = Select.part_inside).
Proof.
  unfold Select.findAt. intros Hid.
  destruct (HandleFacts.first_hit_found sqrt x y (rev store))
    as [(above & s & below & El & _ & Hs)|[_ Hn]].
  - destruct (HandleFacts.hit_of_id sqrt x y s _ Hs) as [Hi Hp].
    split; [|exact Hp]. exists s. split.
    + apply in_rev. rewrite El. apply in_or_app. right. left. reflexivity.
    + congruence.
  - rewrite Hn in Hid. discriminate.
Qed.

(** What [onSelect] leaves alone. *)
Lemma onSelect_frame (i : option string) (part : Select.SelectPart) (g : Game) :
  let g' := onSelect i part g in
  existingShapes g' = existingShapes g /\ roomId g' = roomId g
  /\ cameraX g' = cameraX g /\ cameraY g' = cameraY g /\ zoom g' = zoom g
  /\ isPanning g' = isPanning g /\ isDraggingShape g' = isDraggingShape g
  /\ dragOriginalShape g' = dragOriginalShape g /\ dragStartWorld g' = dragStartWorld g
  /\ clicked g' = clicked g /\ activePencil g' = activePencil g.
Proof.
  unfold onSelect, setTool, clearSelection.
  destruct (truthy_id i); [destruct part|]; cbn;
    repeat match goal with |- context [if ?c then _ else _] => destruct c end;
    cbn; repeat split; reflexivity.
Qed.

(** [mouseUpHandler] while a shape is being dragged. *)
Lemma mouseUp_commits_drag (now : Z) (up : MouseEvent) (g : Game) (sel : string) (orig : Shape) :
  isPanning g = false -> isDraggingShape g = true ->
  selectedShapeId g = Some sel -> Js.truthy_string sel = true ->
  dragOriginalShape g = Some orig ->
  let moved := translateShape orig (fst (world_under g up) - fst (dragStartWorld g))
                                   (snd (world_under g up) - snd (dragStartWorld g)) in
  mouseUpHandler sqrt measureText now up g
  = mkOutcome (with_drag false None
                 (with_existingShapes (replace_shape sel moved (existingShapes g))
                    (with_clicked false g)))
              [send_update sel moved (roomId g)] None.
Proof.
  intros Hp Hd Hs Ht Ho. destruct g. cbn in Hp, Hd, Hs, Ho. subst.
  unfold mouseUpHandler. cbn. rewrite Ht. reflexivity.
Qed.

(** A drag with the select tool: a press that hits a stored shape, followed
    by a release, moves the entry stored under the id of the shape hit by
    the distance the pointer travelled in the world, tells the relay so in
    one [update] message, and ends the drag. *)
Theorem select_drag_moves_shape
    (button : Z) (down up : MouseEvent) (now : Z) (s : Session) (i : string) :
  (button =? 1)%Z || spacePressed s = false ->
  selectedTool (core s) = tool_select ->
  isPanning (core s) = false ->
  Select.hit_id (Select.findAt sqrt (fst (screen_of down)) (snd (screen_of down))
                   (existingShapes (core s))) = Some i ->
  Js.truthy_string i = true ->
  exists s1 stored,
    mouseDownHandler sqrt button down s = Some (s1, [])
    /\ find_stored i (existingShapes (core s)) = Some stored
    /\ let dx := fst (world_under (core s) up) - fst (world_under (core s) down) in
       let dy := snd (world_under (core s) up) - snd (world_under (core s) down) in
       let moved := translateShape (shape stored) dx dy in
       let out := mouseUpHandler sqrt measureText now up (core s1) in
       sent out = [send_update i moved (roomId (core s))]
       /\ existingShapes (game out) = replace_shape i moved (existingShapes (core s))
       /\ isDraggingShape (game out) = false
       /\ dragOriginalShape (game out) = None.
Proof.
  intros Hpan Htool Hnp Hhit Htruthy.
  destruct (findAt_hit_stored _ _ _ _ Hhit) as [(t & Hin & Hid) _].
  destruct (find_has_id_of_in i (existingShapes (core s)) t Hin Hid) as (stored & Ef & _).
  unfold mouseDownHandler. rewrite Hpan.
  cbn [selectedTool with_start with_clicked]. rewrite Htool.
  cbv zeta.
  unfold selectAt. cbn [existingShapes with_start with_clicked].
  fold (screen_of down). rewrite Hhit.
  set (g0 := with_start _ _ _).
  set (g1 := onSelect _ _ _).
  destruct (onSelect_frame (Some i) (Select.hit_part (Select.findAt sqrt (fst (screen_of down))
              (snd (screen_of down)) (existingShapes (core s))))
              (with_selection (Some i) (resizeTool g0) (selectedShapeId g0) g0))
    as (Fs & Fr & Fx & Fy & Fz & Fp & _).
  fold g1 in Fs, Fr, Fx, Fy, Fz, Fp.
  cbn in Fs, Fr, Fx, Fy, Fz, Fp.
  unfold select_found. cbn [selectedShapeId with_selection truthy_id]. rewrite Htruthy.
  cbn [existingShapes with_selection]. rewrite Fs. unfold find_stored in *. rewrite Ef.
  eexists. exists stored. split; [reflexivity|]. split; [reflexivity|].
  cbn [core with_core].
  rewrite (mouseUp_commits_drag now up _ i (shape stored));
    [|cbn; congruence|reflexivity|reflexivity|exact Htruthy|reflexivity].
  cbn [sent game existingShapes with_drag with_existingShapes with_clicked with_dragStart
       with_selection roomId isDraggingShape dragOriginalShape dragStartWorld].
  unfold world_under, screenToWorld.
  cbn [zoom cameraX cameraY with_clicked with_dragStart with_selection fst snd].
  rewrite Fs, Fr, Fx, Fy, Fz.
  repeat split; reflexivity.
Qed.

(** [mouseUpHandler] at the end of a pencil stroke. *)
Lemma mouseUp_commits_pencil (now : Z) (up : MouseEvent) (g : Game) (p : PencilTool.Pencil) :
  isPanning g = false -> isDraggingShape g = false ->
  selectedTool g = tool_pencil -> activePencil g = Some p ->
  let sh := pencil (PencilTool.getPath p) (PencilTool.strokeWidth p)
                   (PencilTool.strokeColor p) in
  mouseUpHandler sqrt measureText now up g
  = mkOutcome (with_activePencil None
                 (with_existingShapes (addPending now sh (existingShapes g))
                    (with_clicked false g)))
              [send_chat (pending_id now) sh (roomId g)] None.
Proof.
  intros Hp Hd Ht Ha. destruct g. cbn in Hp, Hd, Ht, Ha. subst.
  reflexivity.
Qed.

Lemma addPoint_returns (x y : Q) (p : PencilTool.Pencil) :
  exists p', PencilTool.addPoint sqrt x y p = Some p'.
Proof.
  unfold PencilTool.addPoint.
  match goal with |- context [if ?c then _ else _] => destruct c end.
  - destruct (StrokeFacts.updateSmoothed_some sqrt
                (PencilTool.mkPencil (PencilTool.points p ++ [PencilTool.point x y])
                   (PencilTool.smoothed p) (PencilTool.strokeWidth p)
                   (PencilTool.strokeColor p))) as (sm & E & _).
    rewrite E. eexists. reflexivity.
  - eexists. reflexivity.
Qed.

(** The moves of a pencil stroke feed the pointer positions to the active
    pencil and change nothing else. *)
Lemma run_moves_pencil (g0 : Game) (moves : list MouseEvent) :
  selectedTool g0 = tool_pencil -> clicked g0 = true -> isPanning g0 = false ->
  forall (s : Session) (p : PencilTool.Pencil),
    core s = with_activePencil (Some p) g0 ->
    exists s' p',
      run_moves sqrt moves s = Some s'
      /\ core s' = with_activePencil (Some p') g0
      /\ fold_left (fun acc xy =>
                      match acc with
                      | Some q => PencilTool.addPoint sqrt (fst xy) (snd xy) q
                      | None => None
                      end)
                   (map (world_under g0) moves) (Some p) = Some p'.
Proof.
  intros Ht Hc Hp. induction moves as [|ev moves IH]; intros s p Hs.
  - exists s, p. repeat split. exact Hs.
  - cbn [run_moves map fold_left].
    destruct (addPoint_returns (fst (world_under g0 ev)) (snd (world_under g0 ev)) p)
      as [p1 E1].
    assert (Em : mouseMoveHandler sqrt ev s
                 = Some (with_core (with_activePencil (Some p1) (core s)) s)).
    { unfold mouseMoveHandler. rewrite Hs.
      cbn [isPanning with_activePencil selectedTool isDraggingShape activePencil clicked].
      rewrite Hp, Ht, Hc. cbn [is_tool_select andb].
      unfold world_under, screen_of in E1. unfold screenToWorld in *.
      cbn [zoom cameraX cameraY with_activePencil fst snd] in *.
      rewrite E1. reflexivity. }
    rewrite Em, E1. apply IH. cbn [core with_core]. rewrite Hs. reflexivity.
Qed.

(** A stroke with the pencil tool: a press, any number of moves and a
    release.  The handlers always return; the pencil has been fed the world
    points under the pointer, starting with the one of the press; the
    release stores the simplified path under a pending id, with the stroke
    width and colour of the session, sends it to the relay in one [chat]
    message that names the pending id as [tempId], and lets go of the
    pencil. *)
Theorem pencil_stroke_is_stored_and_sent
    (button : Z) (down up : MouseEvent) (moves : list MouseEvent) (now : Z) (s : Session) :
  (button =? 1)%Z || spacePressed s = false ->
  selectedTool (core s) = tool_pencil ->
  isPanning (core s) = false ->
  isDraggingShape (core s) = false ->
  exists s1 s2 p,
    mouseDownHandler sqrt button down s = Some (s1, [])
    /\ run_moves sqrt moves s1 = Some s2
    /\ stroke sqrt (defaultStrokeWidth (core s)) (defaultStrokeColor (core s))
              (map (world_under (core s)) (down :: moves)) = Some p
    /\ first_point (PencilTool.getPath p) = Some (world_under (core s) down)
    /\ let sh := pencil (PencilTool.getPath p) (defaultStrokeWidth (core s))
                        (defaultStrokeColor (core s)) in
       let out := mouseUpHandler sqrt measureText now up (core s2) in
       sent out = [send_chat (pending_id now) sh (roomId (core s))]
       /\ existingShapes (game out) = addPending now sh (existingShapes (core s))
       /\ activePencil (game out) = None.
Proof.
  intros Hpan Htool Hnp Hnd.
  set (w := defaultStrokeWidth (core s)). set (c := defaultStrokeColor (core s)).
  set (wd := world_under (core s) down).
  set (g0 := with_start (fst wd) (snd wd) (with_clicked true (core s))).
  destruct (addPoint_returns (fst wd) (snd wd) (PencilTool.newPencil w c)) as [p0 E0].
  assert (Ed : mouseDownHandler sqrt button down s
               = Some (with_core (with_activePencil (Some p0) g0) s, [])).
  { unfold mouseDownHandler. rewrite Hpan.
    cbn [selectedTool with_start with_clicked]. rewrite Htool.
    cbn [defaultStrokeWidth defaultStrokeColor with_start with_clicked].
    fold (screen_of down). fold (world_under (core s) down). fold wd. fold w. fold c.
    rewrite E0. reflexivity. }
  destruct (run_moves_pencil g0 moves Htool eq_refl Hnp
              (with_core (with_activePencil (Some p0) g0) s) p0 eq_refl)
    as (s2 & p & Er & Ec & Ef).
  assert (Es : stroke sqrt w c (map (world_under (core s)) (down :: moves)) = Some p).
  { unfold stroke. cbn [map fold_left]. fold wd. rewrite E0. exact Ef. }
  destruct (StrokeFacts.stroke_holds_inv sqrt w c wd (map (world_under (core s)) moves))
    as (p' & Es' & Hinv).
  change (wd :: map (world_under (core s)) moves)
    with (map (world_under (core s)) (down :: moves)) in Es'.
  rewrite Es in Es'. inversion Es'; subst p'.
  destruct Hinv as (_ & _ & _ & _ & Hfirst & _ & Hw & Hc).
  exists (with_core (with_activePencil (Some p0) g0) s), s2, p.
  split; [exact Ed|]. split; [exact Er|]. split; [exact Es|]. split; [exact Hfirst|].
  cbv zeta. rewrite Ec.
  rewrite (mouseUp_commits_pencil now up _ p); [|exact Hnp|exact Hnd|exact Htool|reflexivity].
  rewrite Hw, Hc. repeat split.
Qed.

Lemma find_last_split (A : Type) (p : A -> bool) (l : list A) :
  (exists below a above,
      l = below ++ a :: above /\ p a = true
      /\ Forall (fun t => p t = false) above
      /\ find p (rev l) = Some a)
  \/ (Forall (fun t => p t = false) l /\ find p (rev l) = None).
Proof.
  destruct (find p (rev l)) as [a|] eqn:E.
  - left. induction l as [|b l IH] using rev_ind; [discriminate|].
    rewrite rev_app_distr in E. cbn [rev app find] in E.
    destruct (p b) eqn:Eb.
    + inversion E; subst b. exists l, a, [].
      split; [reflexivity|]. split; [exact Eb|]. split; [constructor|reflexivity].
    + destruct (IH E) as (below & x & above & El & Hx & Ha & Ex).
      inversion Ex; subst x.
      exists below, a, (above ++ [b]). subst l. rewrite <- app_assoc.
      split; [reflexivity|]. split; [exact Hx|]. split; [|reflexivity].
      apply Forall_app. split; [exact Ha|]. constructor; [exact Eb|constructor].
  - right. split; [|reflexivity]. apply Forall_forall. intros t Ht.
    apply in_rev in Ht. pose proof (find_none _ _ E t Ht) as H. exact H.
Qed.

(** The eraser answers with the topmost stored shape that holds the point:
    either the store splits into the shapes below, the shape hit and the
    shapes above, none of which holds the point, and the answer is the id of
    the shape hit; or no stored shape holds the point and the answer is
    [null]. *)
Theorem findShapeAt_topmost (e : Eraser.Eraser) (x y : Q) (store : Store) :
  (exists below s above,
      store = below ++ s :: above
      /\ Eraser.isPointInShape sqrt e x y (shape s) = true
      /\ Forall (fun t => Eraser.isPointInShape sqrt e x y (shape t) = false) above
      /\ Eraser.findShapeAt sqrt e x y store = Some (id s))
  \/ (Forall (fun t => Eraser.isPointInShape sqrt e x y (shape t) = false) store
      /\ Eraser.findShapeAt sqrt e x y store = None).
Proof.
  unfold Eraser.findShapeAt.
  destruct (find_last_split _ (fun s => Eraser.isPointInShape sqrt e x y (shape s)) store)
    as [(below & s & above & Es & Hs & Ha & Ef)|[Hall Ef]]; rewrite Ef.
  - left. exists below, s, above. repeat split; assumption.
  - right. split; [exact Hall|reflexivity].
Qed.

Lemma findShapeAt_hit (e : Eraser.Eraser) (x y : Q) (store : Store) (i : string) :
  Eraser.findShapeAt sqrt e x y store = Some i -> In i (map id store).
Proof.
  unfold Eraser.findShapeAt. intros H.
  destruct (find _ (rev store)) as [t|] eqn:E; [|discriminate].
  inversion H; subst i. apply find_some in E. destruct E as [E _].
  apply in_map. apply in_rev. exact E.
Qed.

(** A press with the eraser tool either leaves the store alone and sends
    nothing, or sends one [delete] message for the id of a stored shape and
    does to the store what that message does to the store of every other
    client: no entry with the id is left, the others stay in their
    order. *)
Theorem eraser_press_deletes (button : Z) (down : MouseEvent) (s : Session) :
  (button =? 1)%Z || spacePressed s = false ->
  selectedTool (core s) = tool_eraser ->
  exists s1 out,
    mouseDownHandler sqrt button down s = Some (s1, out)
    /\ ((out = [] /\ existingShapes (core s1) = existingShapes (core s))
        \/ exists i,
             out = [send_delete i (roomId (core s))]
             /\ In i (map id (existingShapes (core s)))
             /\ existingShapes (core s1) = applyRemoteDelete i (existingShapes (core s))
             /\ ~ In i (map id (existingShapes (core s1)))).
Proof.
  intros Hpan Htool. unfold mouseDownHandler. rewrite Hpan.
  cbn [selectedTool with_start with_clicked]. rewrite Htool.
  cbn [existingShapes with_start with_clicked roomId].
  set (e := match activeEraser s with Some e => e | None => _ end).
  set (wx := fst _). set (wy := snd _).
  destruct (Eraser.findShapeAt sqrt e wx wy (existingShapes (core s))) as [i|] eqn:Ef.
  - pose proof (findShapeAt_hit e wx wy (existingShapes (core s)) i Ef) as Hin.
    cbn [truthy_id]. destruct (Js.truthy_string i).
    + eexists. eexists. split; [reflexivity|]. right. exists i.
      cbn [core with_core existingShapes with_existingShapes].
      repeat split; try assumption.
      apply (StoreEdits.applyRemoteDelete_not_in i (existingShapes (core s))).
    + eexists. eexists. split; [reflexivity|]. left. split; reflexivity.
  - cbn [truthy_id]. eexists. eexists. split; [reflexivity|]. left. split; reflexivity.
Qed.

End WithBuiltins.

End GestureFacts.





(** ** Rooms, persistence and the registry of the relay *)

Module RegistryFacts.

Import Json Relay Registry Spec Notions.
Open Scope string_scope.
Open Scope list_scope.

Lemma in_update_user (sender : nat) (f : User -> User) (users : list User) (u' : User) :
  In u' (update_user sender f users)
  <-> exists u, In u users /\ u' = if Nat.eqb (ws u) sender then f u else u.
Proof.
  unfold update_user. rewrite in_map_iff. split; intros (u & H1 & H2); exists u.
  - split; [exact H2|symmetry; exact H1].
  - split; [symmetry; exact H2|exact H1].
Qed.


Lemma in_broadcast (room : string) (p : JsValue) (users : list User) (w : nat) :
  In (w, p) (broadcastToRoom room p users)
  <-> exists u, In u users /\ ws u = w /\ existsb (String.eqb room) (rooms u) = true.
Proof.
  unfold broadcastToRoom. rewrite in_map_iff. split.
  - intros (u & E & Hu). apply filter_In in Hu. exists u. inversion E. tauto.
  - intros (u & Hu & Ew & Hr). exists u. split; [rewrite Ew; reflexivity|].
    apply filter_In. tauto.
Qed.





Section WithBuiltins.

Variable numberToString : Q -> string.





End WithBuiltins.

Lemma heartbeat_from_prefix (now : Z) (l1 : list User) :
  forall l2,
    heartbeat_from now (List.length l1) (l1 ++ l2)
    = (filter (fun u => negb (stale now u)) l1 ++ l2, map (verdict now) (rev l1)).
Proof.
  induction l1 as [|a l IH] using rev_ind; intros l2; [reflexivity|].
  rewrite length_app, Nat.add_comm. cbn [List.length Nat.add heartbeat_from].
  rewrite <- app_assoc. cbn [app].
  rewrite nth_error_app2 by lia. rewrite Nat.sub_diag. cbn [nth_error].
  rewrite rev_app_distr, filter_app. cbn [rev app map filter]. unfold verdict at 1.
  destruct (stale now a); cbn [negb].
  - rewrite StoreEdits.splice1_middle. cbn [snd]. rewrite IH.
    rewrite app_nil_r. reflexivity.
  - rewrite IH. rewrite <- app_assoc. reflexivity.
Qed.

Lemma heartbeat_eq (now : Z) (users : list User) :
  heartbeat now users
  = (filter (fun u => negb (stale now u)) users, map (verdict now) (rev users)).
Proof.
  unfold heartbeat.
  pose proof (heartbeat_from_prefix now users []) as H.
  rewrite !app_nil_r in H. exact H.
Qed.

Lemma pong_keeps_connection (sender : nat) (t now : Z) (users : list User) :
  In sender (map ws users) ->
  (t <> 0)%Z -> (now - t <= timeout_ms)%Z ->
  In sender (map ws (fst (heartbeat now (onPong sender t users))))
  /\ In (sock_ping sender) (snd (heartbeat now (onPong sender t users))).
Proof.
  intros Hin Ht Hnow. apply in_map_iff in Hin. destruct Hin as (u & Ew & Hu).
  subst sender.
  set (u' := mkUser (ws u) (rooms u) (userId u) (Some t)).
  assert (Hu' : In u' (onPong (ws u) t users)).
  { unfold onPong. apply in_update_user. exists u. split; [exact Hu|].
    rewrite Nat.eqb_refl. reflexivity. }
  assert (Hfresh : stale now u' = false).
  { unfold stale, u'. cbn [lastPing]. apply orb_false_iff. split.
    - apply Z.eqb_neq. exact Ht.
    - apply Z.ltb_ge. exact Hnow. }
  rewrite heartbeat_eq. cbn [fst snd]. split.
  - apply in_map_iff. exists u'. split; [reflexivity|].
    apply filter_In. split; [exact Hu'|]. rewrite Hfresh. reflexivity.
  - apply in_map_iff. exists u'. split.
    + unfold verdict. rewrite Hfresh. reflexivity.
    + apply -> in_rev. exact Hu'.
Qed.

(** The heartbeat keeps exactly the connections that are not stale, in
    their order, terminates every stale one and pings every other one,
    going through the registry from its end to its start.  So a registered
    connection whose pong arrived at most 45 seconds before the heartbeat
    is still registered after it, and is pinged again. *)
Theorem heartbeat_drops_stale (now : Z) (users : list User) (sender : nat) (t : Z) :
  heartbeat now users
  = (filter (fun u => negb (stale now u)) users, map (verdict now) (rev users))
  /\ (In sender (map ws users) -> (t <> 0)%Z -> (now - t <= timeout_ms)%Z ->
      In sender (map ws (fst (heartbeat now (onPong sender t users))))
      /\ In (sock_ping sender) (snd (heartbeat now (onPong sender t users)))).
Proof.
  split; [apply heartbeat_eq|apply pong_keeps_connection].
Qed.

(** Closing a connection whose socket is registered once removes its entry
    and leaves the others in their order; no broadcast reaches the socket
    afterwards. *)
Theorem onClose_unregisters (sender : nat) (users : list User) :
  NoDup (map ws users) ->
  onClose sender users = filter (fun u => negb (Nat.eqb (ws u) sender)) users
  /\ ~ In sender (map ws (onClose sender users))
  /\ (forall room p, ~ In (sender, p) (broadcastToRoom room p (onClose sender users))).
Proof.
  intros Hnd.
  assert (E : onClose sender users = filter (fun u => negb (Nat.eqb (ws u) sender)) users).
  { unfold onClose. destruct (Js.findIndex _ users) as [idx|] eqn:Ef.
    - destruct (StoreFacts.findIndex_Some _ _ _ Ef) as (l1 & a & l2 & Es & El & Ha & Hl1).
      subst users idx. rewrite StoreEdits.splice1_middle. cbn [snd].
      rewrite filter_app. cbn [filter]. rewrite Ha. cbn [negb].
      rewrite map_app in Hnd. cbn [map] in Hnd. apply NoDup_remove in Hnd.
      destruct Hnd as [_ Hn]. apply Nat.eqb_eq in Ha.
      assert (Hall : forall l, ~ In (ws a) (map ws l) ->
                filter (fun u => negb (Nat.eqb (ws u) sender)) l = l).
      { intros l Hl. induction l as [|b l IH]; [reflexivity|].
        cbn [filter]. destruct (Nat.eqb (ws b) sender) eqn:Eb.
        - apply Nat.eqb_eq in Eb. exfalso. apply Hl. left. congruence.
        - cbn [negb]. rewrite IH; [reflexivity|]. intros H. apply Hl. right. exact H. }
      rewrite !Hall; [reflexivity| |];
        intros H; apply Hn; apply in_or_app; [right|left]; exact H.
    - apply StoreFacts.findIndex_None in Ef. symmetry.
      apply forallb_filter_id in Ef. exact Ef. }
  split; [exact E|].
  assert (Hno : ~ In sender (map ws (onClose sender users))).
  { rewrite E. intros H. apply in_map_iff in H. destruct H as (u & Ew & Hu).
    apply filter_In in Hu. destruct Hu as [_ Hu].
    rewrite Ew, Nat.eqb_refl in Hu. discriminate. }
  split; [exact Hno|].
  intros room p H. apply in_broadcast in H. destruct H as (u & Hu & Ew & _).
  apply Hno. apply in_map_iff. exists u. tauto.
Qed.

Section WithJwt.

Variable verify : string -> option (option string).
Variable token_of_url : string -> string.

(** A new connection is either turned away, closed and the registry left
    as it was, or registered at the end of the registry with the user id of
    its token, no room and the time of the connection as its last pong.
    Either way it changes no broadcast: until it joins a room, a connection
    receives nothing. *)
Theorem onConnection_registers_outside_rooms
    (sock : nat) (url : option string) (now : Z) (users : list User) :
  let after := onConnection verify token_of_url sock url now users in
  (after = (users, [sock_close sock])
   \/ exists uid, Js.truthy_string uid = true
                  /\ after = (users ++ [mkUser sock [] uid (Some now)], []))
  /\ (forall room p, broadcastToRoom room p (fst after) = broadcastToRoom room p users).
Proof.
  cbv zeta. unfold onConnection, checkUser.
  destruct url as [u|]; [|split; [left; reflexivity|reflexivity]].
  destruct (Js.truthy_string u); cbn [negb]; [|split; [left; reflexivity|reflexivity]].
  destruct (Js.truthy_string (token_of_url u)); cbn [negb];
    [|split; [left; reflexivity|reflexivity]].
  destruct (verify (token_of_url u)) as [[uid|]|];
    try (split; [left; reflexivity|reflexivity]).
  destruct (Js.truthy_string uid) eqn:E; [|split; [left; reflexivity|reflexivity]].
  split.
  - right. exists uid. split; [exact E|reflexivity].
  - intros room p. cbn [fst]. unfold broadcastToRoom.
    rewrite filter_app. cbn [filter rooms existsb]. rewrite app_nil_r. reflexivity.
Qed.

End WithJwt.

End RegistryFacts.


(** ** The box of a resize *)

Module ResizeBox.

Import Shapes Resize Spec Notions.
Open Scope Q_scope.

(** What [computeNewBBoxFromHandle] passes on untouched.  A handle that is
    not on the left side ([n], [ne], [e], [se], [s]) leaves the [x] of the
    box as it was, and a handle that is not on the top side ([e], [se],
    [s], [sw], [w]) leaves its [y] as it was, whether or not the minimum
    size steps in; the horizontal part of the answer is the same for every
    vertical delta, and the vertical part the same for every horizontal
    delta.  No arithmetic is involved: the values are equal as they stand. *)
Theorem computeNewBBoxFromHandle_keeps_anchor
    (b : BBox) (h : HandleName) (dx dy dx' dy' : Q) :
  (moves_left h = false -> bx (computeNewBBoxFromHandle b h dx dy) = bx b)
  /\ (moves_top h = false -> by_ (computeNewBBoxFromHandle b h dx dy) = by_ b)
  /\ bx (computeNewBBoxFromHandle b h dx dy') = bx (computeNewBBoxFromHandle b h dx dy)
  /\ bw (computeNewBBoxFromHandle b h dx dy') = bw (computeNewBBoxFromHandle b h dx dy)
  /\ by_ (computeNewBBoxFromHandle b h dx' dy) = by_ (computeNewBBoxFromHandle b h dx dy)
  /\ bh (computeNewBBoxFromHandle b h dx' dy) = bh (computeNewBBoxFromHandle b h dx dy).
Proof.
  unfold computeNewBBoxFromHandle.
  destruct h; cbn [moves_left moves_right moves_top moves_bottom];
    repeat match goal with |- context [Js.ltb ?a ?b] => destruct (Js.ltb a b) end;
    cbn [bx by_ bw bh]; repeat split; intros; try reflexivity; try discriminate.
Qed.

End ResizeBox.


(** ** The properties above, each at one input *)

(** A pan with the middle button from (10, 10) over (17, 3) to (30, 40). *)
Lemma pan_gesture_has_no_drift_witness :
  exists s1 s2,
    Input.mouseDownHandler Spec.sqrt_approx 1 (Spec.mouse_at 10 10)
      (Notions.session_on Game.tool_rect Spec.three) = Some (s1, [])
    /\ Notions.run_moves Spec.sqrt_approx ([Spec.mouse_at 17 3] ++ [Spec.mouse_at 30 40]) s1
       = Some s2
    /\ Input.mouseMoveHandler Spec.sqrt_approx (Spec.mouse_at 30 40) s1 = Some s2
    /\ Game.cameraX (Input.core s2)
       = (Game.cameraX (Input.core (Notions.session_on Game.tool_rect Spec.three))
          - (fst (Notions.screen_of (Spec.mouse_at 30 40))
             - fst (Notions.screen_of (Spec.mouse_at 10 10)))
            / Game.zoom (Input.core (Notions.session_on Game.tool_rect Spec.three)))%Q
    /\ Game.cameraY (Input.core s2)
       = (Game.cameraY (Input.core (Notions.session_on Game.tool_rect Spec.three))
          - (snd (Notions.screen_of (Spec.mouse_at 30 40))
             - snd (Notions.screen_of (Spec.mouse_at 10 10)))
            / Game.zoom (Input.core (Notions.session_on Game.tool_rect Spec.three)))%Q
    /\ Game.zoom (Input.core s2)
       = Game.zoom (Input.core (Notions.session_on Game.tool_rect Spec.three))
    /\ Game.existingShapes (Input.core s2) = Spec.three
    /\ Game.selectedTool (Input.core s2) = Game.tool_rect
    /\ Game.sent (Game.mouseUpHandler Spec.sqrt_approx Spec.measure_monospace Spec.tick
                    (Spec.mouse_at 30 40) (Input.core s2)) = []
    /\ Game.isPanning (Game.game (Game.mouseUpHandler Spec.sqrt_approx Spec.measure_monospace
                                    Spec.tick (Spec.mouse_at 30 40) (Input.core s2))) = false
    /\ Game.existingShapes
         (Game.game (Game.mouseUpHandler Spec.sqrt_approx Spec.measure_monospace Spec.tick
                       (Spec.mouse_at 30 40) (Input.core s2))) = Spec.three.
Proof.
  apply (ViewFacts.pan_gesture_has_no_drift Spec.sqrt_approx Spec.measure_monospace 1 Spec.tick
           (Spec.mouse_at 10 10) (Spec.mouse_at 30 40) (Spec.mouse_at 30 40)
           [Spec.mouse_at 17 3] (Notions.session_on Game.tool_rect Spec.three)).
  reflexivity.
Defined.


(** A drag of the topmost of three shapes from (5, 5) to (8, 9). *)
Lemma select_drag_moves_shape_witness :
  exists s1 stored,
    Input.mouseDownHandler Spec.sqrt_approx 0 (Spec.mouse_at 5 5)
      (Notions.session_on Game.tool_select Spec.three) = Some (s1, [])
    /\ Input.find_stored (Game.pending_id Spec.tick) Spec.three = Some stored
    /\ let moved := Game.translateShape (Shapes.shape stored)
                      (fst (Notions.world_under
                              (Input.core (Notions.session_on Game.tool_select Spec.three))
                              (Spec.mouse_at 8 9))
                       - fst (Notions.world_under
                                (Input.core (Notions.session_on Game.tool_select Spec.three))
                                (Spec.mouse_at 5 5)))
                      (snd (Notions.world_under
                              (Input.core (Notions.session_on Game.tool_select Spec.three))
                              (Spec.mouse_at 8 9))
                       - snd (Notions.world_under
                                (Input.core (Notions.session_on Game.tool_select Spec.three))
                                (Spec.mouse_at 5 5))) in
       let out := Game.mouseUpHandler Spec.sqrt_approx Spec.measure_monospace Spec.tick
                    (Spec.mouse_at 8 9) (Input.core s1) in
       Game.sent out = [Game.send_update (Game.pending_id Spec.tick) moved "1"]
       /\ Game.existingShapes (Game.game out)
          = Game.replace_shape (Game.pending_id Spec.tick) moved Spec.three
       /\ Game.isDraggingShape (Game.game out) = false
       /\ Game.dragOriginalShape (Game.game out) = None.
Proof.
  apply (GestureFacts.select_drag_moves_shape Spec.sqrt_approx Spec.measure_monospace 0
           (Spec.mouse_at 5 5) (Spec.mouse_at 8 9) Spec.tick
           (Notions.session_on Game.tool_select Spec.three) (Game.pending_id Spec.tick));
    reflexivity.
Defined.

(** A pending shape between two stored ones is acknowledged as shape 7. *)
Lemma reconcile_replaces_pending_in_place_witness :
  Game.reconcile (Some (Game.pending_id Spec.tick)) "7" Spec.shapeS
    (Game.addPending Spec.tick Spec.shapeS [Shapes.mkStored "1" Spec.shapeA None]
     ++ [Shapes.mkStored "2" Spec.shapeB None])
  = [Shapes.mkStored "1" Spec.shapeA None] ++ Shapes.mkStored "7" Spec.shapeS None
      :: [Shapes.mkStored "2" Spec.shapeB None].
Proof.
  apply (StoreEdits.reconcile_replaces_pending_in_place Spec.tick Spec.shapeS Spec.shapeS "7"
           [Shapes.mkStored "1" Spec.shapeA None] [Shapes.mkStored "2" Spec.shapeB None]).
  repeat constructor.
Defined.

(** A reorder of three shapes that names two of them. *)
Lemma onmessage_keeps_ids_unique_witness :
  Spec.unique_ids
    (Game.existingShapes
       (Game.onmessage Spec.print_integer (Game.msg_reorder ["2"; "1"]%string)
          (Input.core (Notions.session_on Game.tool_select Spec.three)))).
Proof.
  apply (StoreEdits.onmessage_keeps_ids_unique Spec.print_integer
           (Game.msg_reorder ["2"; "1"]%string)
           (Input.core (Notions.session_on Game.tool_select Spec.three))).
  - exact StoreCases.three_unique.
  - cbn. repeat constructor; simpl; intuition discriminate.
Defined.

(** A stroke from (0, 0) over (3, 4) to (6, 8) on an empty canvas. *)
Lemma pencil_stroke_is_stored_and_sent_witness :
  exists s1 s2 p,
    Input.mouseDownHandler Spec.sqrt_approx 0 (Spec.mouse_at 0 0)
      (Notions.session_on Game.tool_pencil []) = Some (s1, [])
    /\ Notions.run_moves Spec.sqrt_approx [Spec.mouse_at 3 4; Spec.mouse_at 6 8] s1 = Some s2
    /\ Notions.stroke Spec.sqrt_approx 2 "white"
         (map (Notions.world_under (Input.core (Notions.session_on Game.tool_pencil [])))
              [Spec.mouse_at 0 0; Spec.mouse_at 3 4; Spec.mouse_at 6 8]) = Some p
    /\ Spec.first_point (PencilTool.getPath p)
       = Some (Notions.world_under (Input.core (Notions.session_on Game.tool_pencil []))
                 (Spec.mouse_at 0 0))
    /\ let sh := Shapes.pencil (PencilTool.getPath p) 2 "white" in
       let out := Game.mouseUpHandler Spec.sqrt_approx Spec.measure_monospace Spec.tick
                    (Spec.mouse_at 6 8) (Input.core s2) in
       Game.sent out = [Game.send_chat (Game.pending_id Spec.tick) sh "1"]
       /\ Game.existingShapes (Game.game out) = Game.addPending Spec.tick sh []
       /\ Game.activePencil (Game.game out) = None.
Proof.
  apply (GestureFacts.pencil_stroke_is_stored_and_sent Spec.sqrt_approx Spec.measure_monospace
           0 (Spec.mouse_at 0 0) (Spec.mouse_at 6 8) [Spec.mouse_at 3 4; Spec.mouse_at 6 8]
           Spec.tick (Notions.session_on Game.tool_pencil []));
    reflexivity.
Defined.

(** A press of the eraser at (5, 5) on three shapes. *)
Lemma eraser_press_deletes_witness :
  exists s1 out,
    Input.mouseDownHandler Spec.sqrt_approx 0 (Spec.mouse_at 5 5)
      (Notions.session_on Game.tool_eraser Spec.three) = Some (s1, out)
    /\ ((out = [] /\ Game.existingShapes (Input.core s1) = Spec.three)
        \/ exists i,
             out = [Game.send_delete i "1"]
             /\ In i (map Shapes.id Spec.three)
             /\ Game.existingShapes (Input.core s1) = Game.applyRemoteDelete i Spec.three
             /\ ~ In i (map Shapes.id (Game.existingShapes (Input.core s1)))).
Proof.
  apply (GestureFacts.eraser_press_deletes Spec.sqrt_approx 0 (Spec.mouse_at 5 5)
           (Notions.session_on Game.tool_eraser Spec.three));
    reflexivity.
Defined.


(** The second of three connections closes. *)
Lemma onClose_unregisters_witness :
  Registry.onClose 2 Spec.three_users
  = filter (fun u => negb (Nat.eqb (Relay.ws u) 2)) Spec.three_users
  /\ ~ In 2%nat (map Relay.ws (Registry.onClose 2 Spec.three_users))
  /\ (forall room p,
        ~ In (2%nat, p) (Relay.broadcastToRoom room p (Registry.onClose 2 Spec.three_users))).
Proof.
  apply (RegistryFacts.onClose_unregisters 2 Spec.three_users).
  cbn. repeat constructor; simpl; intuition discriminate.
Defined.
